(** * OptimizelyE3Data: extraction, staging and warehouse load scripts

    A shallow embedding of the Python scripts of the repository

    - [extract_optimizely_s3.py]          (module [Extract]),
    - [load_optimizely_decisions.py]      (module [V1]),
    - [load_optimizely_decisions_v2.py]   (module [V2]),
    - [stage_and_load_to_bq_gcs.py]       (module [Gcs]),
    - [stage_and_load_to_bq_local_v2.py]  (module [LocalV2]),

    and the statements of their specification that concern the transfer
    counters, the date range, the prefix validation, the completeness probe
    and the batching of load jobs.

    Python values are modelled as follows.  A [str] is a [string] (the keys
    are taken to be sequences of 8-bit characters, so [\d] is an ASCII
    digit); an [int] is a [Z]; an exception is a constructor of [exn]; a
    function that may raise returns a [result]; a function with effects is a
    state transformer over the world it touches (local file system and the
    log of network requests, or the log of warehouse requests). *)

From Stdlib Require Import ZArith Lia Ascii String List Bool.
From stdpp Require Import base option list gmap strings sorting.

Local Open Scope Z_scope.

#[global] Arguments String.append !s1 s2 : simpl nomatch.

(** ** Python strings *)

Definition slash : ascii := "/"%char.

(** [s.endswith(suf)]: some suffix of [s] is [suf]. *)
Fixpoint endswith (s suf : string) : bool :=
  if String.eqb s suf then true
  else match s with
       | EmptyString => false
       | String _ r => endswith r suf
       end.

(** [s.startswith(pre)]. *)
Fixpoint startswith (s pre : string) {struct pre} : bool :=
  match pre with
  | EmptyString => true
  | String a pre' =>
      match s with
      | EmptyString => false
      | String b s' => Ascii.eqb a b && startswith s' pre'
      end
  end.

(** [sub in s]. *)
Fixpoint contains (s sub : string) : bool :=
  if startswith s sub then true
  else match s with
       | EmptyString => false
       | String _ r => contains r sub
       end.

(** [s.split(sep)] for a one-character separator: never empty. *)
Fixpoint split (sep : ascii) (s : string) : list string :=
  match s with
  | EmptyString => [EmptyString]
  | String c r =>
      if Ascii.eqb c sep then EmptyString :: split sep r
      else match split sep r with
           | h :: t => String c h :: t
           | [] => [String c EmptyString]
           end
  end.

Fixpoint drop_while (f : ascii → bool) (l : list ascii) : list ascii :=
  match l with
  | [] => []
  | c :: r => if f c then drop_while f r else l
  end.

Definition is_slash (c : ascii) : bool := Ascii.eqb c slash.

(** [s.lstrip("/")] and [s.rstrip("/")]. *)
Definition lstrip_slash (s : string) : string :=
  string_of_list_ascii (drop_while is_slash (list_ascii_of_string s)).

Definition rstrip_slash (s : string) : string :=
  string_of_list_ascii
    (rev (drop_while is_slash (rev (list_ascii_of_string s)))).

(** Python truthiness of a [str] and of an [Optional[str]]. *)
Definition truthy (s : string) : bool := negb (String.eqb s "").

Definition truthy_opt (o : option string) : bool :=
  match o with Some s => truthy s | None => false end.

(** [a or b] on optional strings: the first truthy operand, else the last. *)
Definition or_else (a : option string) (b : string) : string :=
  match a with
  | Some s => if truthy s then s else b
  | None => b
  end.

(** ** Paths: [posixpath.join], [posixpath.dirname] and path resolution *)

Definition join_step (path b : string) : string :=
  if startswith b "/" then b
  else if negb (truthy path) || endswith path "/" then path +:+ b
  else path +:+ "/" +:+ b.

(** [os.path.join(a, *p)]. *)
Definition path_join (a : string) (p : list string) : string :=
  fold_left join_step p a.

(** [os.path.dirname(p)]: the text up to the last separator, without its
    trailing separators unless it consists of separators only. *)
Definition dirname (p : string) : string :=
  let head := drop_while (λ c, negb (is_slash c)) (rev (list_ascii_of_string p)) in
  if forallb is_slash head then string_of_list_ascii (rev head)
  else string_of_list_ascii (rev (drop_while is_slash head)).

(** The components the operating system walks through for a path.  Empty
    components (doubled or trailing separators) are dropped, and absolute
    and relative paths share one name space (within one run every local path
    has the same root).  The components are taken as names: this is the
    file that the operating system finds for a path without [.] and [..]
    components, on a file system that tells upper and lower case apart and
    has no symbolic links.  The statements that depend on which file a path
    names are made for such paths ([plain]). *)
Definition resolve (p : string) : list string :=
  filter (λ c, truthy c = true) (split slash p).

(** ** Exceptions and results *)

Inductive exn : Type :=
  | ValueError (msg : string)
  | RuntimeError (msg : string)
  | OverflowError
  | FileNotFoundError
  | FileExistsError
  | NotADirectoryError
  | IsADirectoryError
  | ClientError (code : string)
  | ConnectionError
  | LoadJobError
  | SystemExit (status : Z) (msg : string).

(** [SystemExit] derives from [BaseException] only: [except Exception]
    lets it through. *)
Definition is_Exception (e : exn) : bool :=
  match e with
  | SystemExit _ _ => false
  | _ => true
  end.

(** [str(e)]: the message of the exception. *)
Definition str_exn (e : exn) : string :=
  match e with
  | ValueError msg | RuntimeError msg | SystemExit _ msg => msg
  | ClientError code => code
  | _ => ""
  end.

Inductive result (A : Type) : Type :=
  | Ok (a : A)
  | Raise (e : exn).
Arguments Ok {A} a.
Arguments Raise {A} e.

Definition is_ok {A} (r : result A) : bool :=
  match r with Ok _ => true | Raise _ => false end.

(** Effectful code: a state transformer that may raise; the state reached
    when the exception is raised is kept. *)
Definition M (S A : Type) : Type := S → result A * S.

Definition ret {S A} (a : A) : M S A := λ s, (Ok a, s).

Definition bind {S A B} (m : M S A) (f : A → M S B) : M S B :=
  λ s, match m s with
       | (Ok a, s') => f a s'
       | (Raise e, s') => (Raise e, s')
       end.

Definition raise {S A} (e : exn) : M S A := λ s, (Raise e, s).

(** [try: m  except Exception as e: h e]. *)
Definition try_except {S A} (m : M S A) (h : exn → M S A) : M S A :=
  λ s, match m s with
       | (Ok a, s') => (Ok a, s')
       | (Raise e, s') => if is_Exception e then h e s' else (Raise e, s')
       end.

Definition lift_result {S A} (r : result A) : M S A := λ s, (r, s).

Notation "'do' x <- m ; k" := (bind m (λ x, k))
  (at level 10, x name, m at level 100, k at level 200,
   format "'[v' 'do'  x  <-  m ; '/' k ']'").
Notation "m ;; k" := (bind m (λ _, k))
  (at level 100, k at level 200, right associativity).

(** ** Calendar dates: [datetime.date] *)

Record date : Type := mk_date { year : Z; month : Z; day : Z }.

Definition MINYEAR : Z := 1.
Definition MAXYEAR : Z := 9999.

Definition is_leap (y : Z) : bool :=
  (y mod 4 =? 0) && (negb (y mod 100 =? 0) || (y mod 400 =? 0)).

Definition days_in_month (y m : Z) : Z :=
  if (m =? 2) then (if is_leap y then 29 else 28)
  else if (m =? 4) || (m =? 6) || (m =? 9) || (m =? 11) then 30
  else 31.

(** The check [date(y, m, d)] makes; every [date] object satisfies it. *)
Definition valid_date (d : date) : bool :=
  (MINYEAR <=? year d) && (year d <=? MAXYEAR)
  && (1 <=? month d) && (month d <=? 12)
  && (1 <=? day d) && (day d <=? days_in_month (year d) (month d)).

(** [date(y, m, d)]. *)
Definition new_date (y m d : Z) : result date :=
  let x := mk_date y m d in
  if valid_date x then Ok x else Raise (ValueError "date value out of range").

(** [a <= b] and [a < b] on dates: by year, then month, then day. *)
Definition date_le (a b : date) : bool :=
  (year a <? year b)
  || ((year a =? year b)
      && ((month a <? month b) || ((month a =? month b) && (day a <=? day b)))).

Definition date_lt (a b : date) : bool := negb (date_le b a).

(** [d + timedelta(days=1)]: the next calendar day; past [date.max] the
    addition raises [OverflowError]. *)
Definition add_day (d : date) : result date :=
  if day d <? days_in_month (year d) (month d)
  then Ok (mk_date (year d) (month d) (day d + 1))
  else if month d <? 12 then Ok (mk_date (year d) (month d + 1) 1)
  else if year d <? MAXYEAR then Ok (mk_date (year d + 1) 1 1)
  else Raise OverflowError.

(** Decimal digits. *)
Definition digit_char (k : Z) : ascii :=
  match k with
  | 0 => "0" | 1 => "1" | 2 => "2" | 3 => "3" | 4 => "4"
  | 5 => "5" | 6 => "6" | 7 => "7" | 8 => "8" | _ => "9"
  end%char.

Definition is_digit (c : ascii) : bool :=
  (48 <=? Z.of_N (N_of_ascii c)) && (Z.of_N (N_of_ascii c) <=? 57).

Definition digit_val (c : ascii) : Z := Z.of_N (N_of_ascii c) - 48.

(** [f"{n:02d}"] and [f"{n:04d}"] for [0 <= n < 100] and [0 <= n < 10000],
    the range of the fields of a date. *)
Definition fmt02 (n : Z) : string :=
  String (digit_char (n / 10 mod 10)) (String (digit_char (n mod 10)) "").

Definition fmt04 (n : Z) : string :=
  String (digit_char (n / 1000 mod 10)) (String (digit_char (n / 100 mod 10))
    (fmt02 n)).

(** [d.isoformat()]: YYYY-MM-DD. *)
Definition isoformat (d : date) : string :=
  fmt04 (year d) +:+ "-" +:+ fmt02 (month d) +:+ "-" +:+ fmt02 (day d).

(** A measure that grows with the calendar, used to bound the day loop. *)
Definition day_rank (d : date) : Z := year d * 372 + month d * 31 + day d.

(** The body of [daterange]: [while d <= end: yield d; d += timedelta(days=1)].
    The result is the list of yielded dates and the exception, if any, that
    ends the generator. *)
Fixpoint daterange_loop (fuel : nat) (d end_ : date) : list date * option exn :=
  match fuel with
  | O => ([], None)
  | S fuel' =>
      if date_le d end_ then
        match add_day d with
        | Ok d' => let '(l, e) := daterange_loop fuel' d' end_ in (d :: l, e)
        | Raise e => ([d], Some e)
        end
      else ([], None)
  end.

(** [daterange(start, end)].  The loop is run for as many rounds as there
    are ranks between the two dates; [daterange_exact] shows that this is
    enough for it to leave through its own test. *)
Definition daterange (start end_ : date) : list date * option exn :=
  daterange_loop (Z.to_nat (day_rank end_ + 1 - day_rank start)) start end_.

(** [for d in daterange(start, end): body d], threading an accumulator. *)
Fixpoint for_each {S A B} (items : list A) (body : A → B → M S B) (acc : B) : M S B :=
  match items with
  | [] => ret acc
  | x :: rest => do acc' <- body x acc; for_each rest body acc'
  end.

Definition for_generated {S A B} (gen : list A * option exn)
    (body : A → B → M S B) (acc : B) : M S B :=
  do acc' <- for_each (fst gen) body acc;
  match snd gen with
  | Some e => raise e
  | None => ret acc'
  end.

(** ** The date heuristic: [DATE_IN_KEY_REGEX] and [key_has_date_in_range] *)

Definition is_sep (c : ascii) : bool :=
  Ascii.eqb c "-" || Ascii.eqb c "/" || Ascii.eqb c "_".

Definition two_digits (a b : ascii) : Z := digit_val a * 10 + digit_val b.

(** A regular expression as a matcher on the remaining text that returns the
    captured value and the number of characters consumed. *)
Definition matcher (A : Type) : Type := list ascii → option (A * nat).

(** [[-/_]?] followed by [k]: greedy, with the empty alternative tried when
    the rest fails after the separator. *)
Definition rx_opt_sep {A} (k : matcher A) : matcher A :=
  λ s, match s with
       | c :: r =>
           if is_sep c then
             match k r with
             | Some (a, n) => Some (a, S n)
             | None => k s
             end
           else k s
       | [] => k s
       end.

(** [([0-3]\d)(?!\d)]. *)
Definition rx_day : matcher Z :=
  λ s, match s with
       | a :: b :: r =>
           if (Ascii.leb "0" a && Ascii.leb a "3") && is_digit b
              && negb (match r with c :: _ => is_digit c | [] => false end)
           then Some (two_digits a b, 2%nat) else None
       | _ => None
       end.

(** [([01]\d)] followed by [k]. *)
Definition rx_month {A} (k : matcher A) : matcher (Z * A) :=
  λ s, match s with
       | a :: b :: r =>
           if (Ascii.eqb a "0" || Ascii.eqb a "1") && is_digit b then
             match k r with
             | Some (x, n) => Some ((two_digits a b, x), (2 + n)%nat)
             | None => None
             end
           else None
       | _ => None
       end.

(** [(20\d{2})] followed by [k]. *)
Definition rx_year {A} (k : matcher A) : matcher (Z * A) :=
  λ s, match s with
       | a :: b :: c :: d :: r =>
           if Ascii.eqb a "2" && Ascii.eqb b "0" && is_digit c && is_digit d then
             match k r with
             | Some (x, n) =>
                 Some ((2000 + two_digits c d, x), (4 + n)%nat)
             | None => None
             end
           else None
       | _ => None
       end.

(** The pattern after its look-behind:
    [(20\d{2})[-/_]?([01]\d)[-/_]?([0-3]\d)(?!\d)]. *)
Definition rx_date : matcher (Z * (Z * Z)) :=
  rx_year (rx_opt_sep (rx_month (rx_opt_sep rx_day))).

(** [DATE_IN_KEY_REGEX.finditer(key)]: the matches from left to right, the
    search resuming where the previous match ended.  [skip] counts the
    characters still covered by the previous match, [prev_digit] is the
    look-behind [(?<!\d)]. *)
Fixpoint finditer (skip : nat) (prev_digit : bool) (s : list ascii)
    : list (Z * (Z * Z)) :=
  match s with
  | [] => []
  | c :: r =>
      match skip with
      | S k => finditer k (is_digit c) r
      | O =>
          if prev_digit then finditer O (is_digit c) r
          else match rx_date s with
               | Some (m, n) => m :: finditer (Nat.pred n) (is_digit c) r
               | None => finditer O (is_digit c) r
               end
      end
  end.

(** The loop of [key_has_date_in_range] over the matches: a match that is
    not a calendar date raises [ValueError] in [date(...)] and is passed
    over. *)
Fixpoint any_in_range (ms : list (Z * (Z * Z))) (start end_ : date) : bool :=
  match ms with
  | [] => false
  | (y, (mth, d)) :: rest =>
      match new_date y mth d with
      | Ok found =>
          if date_le start found && date_le found end_ then true
          else any_in_range rest start end_
      | Raise _ => any_in_range rest start end_
      end
  end.

Definition key_has_date_in_range (key : string) (start end_ : date) : bool :=
  any_in_range (finditer O false (list_ascii_of_string key)) start end_.

(** The dates a key carries: the matches that are calendar dates. *)
Fixpoint extracted_dates (ms : list (Z * (Z * Z))) : list date :=
  match ms with
  | [] => []
  | (y, (mth, d)) :: rest =>
      match new_date y mth d with
      | Ok found => found :: extracted_dates rest
      | Raise _ => extracted_dates rest
      end
  end.

Definition dates_in_key (key : string) : list date :=
  extracted_dates (finditer O false (list_ascii_of_string key)).
(** ** The world of the extraction scripts *)

(** An entry of a listing, [{"Key": ..., "Size": ...}]. *)
Record s3obj : Type := mk_obj { Key : string; Size : Z }.

(** What lives at a local path. *)
Inductive node : Type :=
  | File (size : Z)
  | Dir.

(** Network requests, in the order they are issued. *)
Inductive event : Type :=
  | HttpGetCredentials (url : string)
  | HeadObject (bucket key : string)
  | ListObjectsV2 (bucket prefix : string)
  | DownloadFile (bucket key local_path : string).

Definition is_s3_request (e : event) : bool :=
  match e with
  | HttpGetCredentials _ => false
  | _ => true
  end.

(** The state a run acts on: the local file system, keyed by resolved path,
    and the log of the network requests made so far. *)
Record world : Type := mk_world {
  fs : gmap (list string) node;
  net_log : list event
}.

(** The body of the reply of the credentials endpoint, as far as
    [fetch_optimizely_temp_creds] looks at it. *)
Record cred_body : Type := {
  has_all_fields : bool;       (* the four credential fields are present *)
  s3Path : option string       (* data.get("s3Path") *)
}.

Inductive http_reply : Type :=
  | NoReply                                        (* requests.get raised *)
  | Reply (status : Z) (body : option cred_body).  (* None: not JSON *)

(** What can go wrong with a request on the network side.  The client
    reports each of them by an exception derived from [Exception]. *)
Inductive fault : Type :=
  | AccessDenied
  | SlowDown
  | ConnectionLost
  | TimedOut.

Definition exn_of_fault (x : fault) : exn :=
  match x with
  | AccessDenied => ClientError "403"
  | SlowDown => ClientError "503"
  | ConnectionLost => ConnectionError
  | TimedOut => ConnectionError
  end.

(** Everything a run reads but does not control. *)
Record environment : Type := {
  (* the objects of a bucket, in listing order *)
  bucket_contents : string → list s3obj;
  (* the fault, if any, that hits the n-th network request of the run *)
  net_fault : nat → option fault;
  (* the reply of the credentials endpoint *)
  cred_reply : http_reply;
  (* os.getenv *)
  getenv : string → option string;
  (* st_size of a directory *)
  dir_size : Z;
  (* the exception, if any, that ends the floating-point part of
     human_size(n): math.log, the division and the choice of the unit *)
  human_size_fault : Z → option exn
}.

(** *** Local file system operations *)

Definition node_at (f : gmap (list string) node) (p : string) : option node :=
  if String.eqb p "" then None
  else match resolve p with
       | [] => Some Dir
       | t => f !! t
       end.

(** [os.path.exists(p)]. *)
Definition path_exists (p : string) : M world bool :=
  λ w, (Ok (bool_decide (is_Some (node_at (fs w) p))), w).

(** [os.path.getsize(p)]. *)
Definition getsize (env : environment) (p : string) : M world Z :=
  λ w, match node_at (fs w) p with
       | Some (File n) => (Ok n, w)
       | Some Dir => (Ok (dir_size env), w)
       | None => (Raise FileNotFoundError, w)
       end.

(** Creation of the directories [pre/c1], [pre/c1/c2], ... that are missing;
    a regular file on the way is an error: [mkdir] finds it in the place of
    the last directory ([FileExistsError], raised again since the path is
    no directory) or above the directory it is to make
    ([NotADirectoryError]). *)
Fixpoint mkdirs (pre rest : list string) (f : gmap (list string) node)
    : result (gmap (list string) node) :=
  match rest with
  | [] => Ok f
  | c :: rest' =>
      let p := pre ++ [c] in
      match f !! p with
      | Some Dir => mkdirs p rest' f
      | Some (File _) =>
          Raise (match rest' with [] => FileExistsError | _ => NotADirectoryError end)
      | None => mkdirs p rest' (<[p := Dir]> f)
      end
  end.

(** [os.makedirs(name, exist_ok=True)]. *)
Definition makedirs (name : string) : M world unit :=
  λ w, if String.eqb name "" then (Raise FileNotFoundError, w)
       else match mkdirs [] (resolve name) (fs w) with
            | Ok f' => (Ok tt, mk_world f' (net_log w))
            | Raise e => (Raise e, w)
            end.

(** [ensure_local_path(root_dir, key)]: the same text in the three scripts. *)
Definition local_path_of (root_dir key : string) : string :=
  path_join root_dir (split slash key).

Definition ensure_local_path (root_dir key : string) : M world string :=
  let local_path := local_path_of root_dir key in
  makedirs (dirname local_path) ;;
  ret local_path.

(** *** Network requests *)

(** Every request is logged and may be hit by a fault. *)
Definition request (env : environment) (e : event) : M world unit :=
  λ w, let w' := mk_world (fs w) (net_log w ++ [e]) in
       match net_fault env (length (net_log w)) with
       | Some x => (Raise (exn_of_fault x), w')
       | None => (Ok tt, w')
       end.

Definition remote_size (env : environment) (bucket key : string) : option Z :=
  Size <$> List.find (λ o, String.eqb (Key o) key) (bucket_contents env bucket).

(** [client.head_object(Bucket=bucket, Key=key)]. *)
Definition head_object (env : environment) (bucket key : string) : M world unit :=
  request env (HeadObject bucket key) ;;
  match remote_size env bucket key with
  | Some _ => ret tt
  | None => raise (ClientError "404")
  end.

(** The generator [list_objects(client, bucket, prefix)], consumed to the
    end: the objects of the bucket whose key starts with the prefix, in
    listing order.  The pages of the listing are not told apart. *)
Definition list_objects (env : environment) (bucket prefix : string)
    : M world (list s3obj) :=
  request env (ListObjectsV2 bucket prefix) ;;
  ret (List.filter (λ o, startswith (Key o) prefix) (bucket_contents env bucket)).

(** Writing the fetched object to [local_path]. *)
Definition write_file (local_path : string) (n : Z) : M world unit :=
  λ w, let t := resolve local_path in
       match t, fs w !! t with
       | [], _ => (Raise IsADirectoryError, w)
       | _, Some Dir => (Raise IsADirectoryError, w)
       | _, _ =>
           match removelast t with
           | [] => (Ok tt, mk_world (<[t := File n]> (fs w)) (net_log w))
           | parent =>
               match fs w !! parent with
               | Some Dir => (Ok tt, mk_world (<[t := File n]> (fs w)) (net_log w))
               | Some (File _) => (Raise NotADirectoryError, w)
               | None => (Raise FileNotFoundError, w)
               end
           end
       end.

(** [client.download_file(bucket, key, local_path)]. *)
Definition download_file (env : environment) (bucket key local_path : string)
    : M world unit :=
  request env (DownloadFile bucket key local_path) ;;
  match remote_size env bucket key with
  | Some n => write_file local_path n
  | None => raise (ClientError "404")
  end.

(** *** The transfer loop *)

(** The counters [(ok, skipped, failed)]. *)
Definition counts : Type := Z * Z * Z.

(** The floating-point part of [human_size(n)], reached when [n] is neither
    zero nor refused before: it returns a text or ends by an exception, as
    the arithmetic of the machine has it.  The text is not modelled. *)
Definition human_size_float (env : environment) (n : Z) : result unit :=
  match human_size_fault env n with
  | Some e => Raise e
  | None => Ok tt
  end.

(** One round of the loop of [download_objects].  The three scripts have the
    same body up to the test [passes_over] that makes the loop go on to the
    next object before anything is done, and up to their [human_size], which
    is called for the line that the round prints. *)
Definition transfer_one (env : environment) (passes_over : string → bool)
    (human_size : Z → result unit)
    (bucket out_dir : string) (dry_run : bool) (obj : s3obj) (c : counts)
    : M world counts :=
  let '(ok, skipped, failed) := c in
  let key := Key obj in
  let size := Size obj in
  if passes_over key then ret c
  else
    do local_path <- ensure_local_path out_dir key;
    do there <- path_exists local_path;
    do same <- (if there then do n <- getsize env local_path; ret (n =? size)
                else ret false);
    if same then
      lift_result (human_size size) ;;
      ret (ok, skipped + 1, failed)
    else
      lift_result (human_size size) ;;
      if dry_run then ret (ok + 1, skipped, failed)
      else
        try_except
          (download_file env bucket key local_path ;; ret (ok + 1, skipped, failed))
          (λ _, ret (ok, skipped, failed + 1)).

Definition transfer (env : environment) (passes_over : string → bool)
    (human_size : Z → result unit)
    (bucket : string) (objects : list s3obj) (out_dir : string) (dry_run : bool)
    : M world counts :=
  for_each objects
    (transfer_one env passes_over human_size bucket out_dir dry_run) (0, 0, 0).

(** [success_marker_exists(client, bucket, date_prefix)]: the same text in
    [load_optimizely_decisions.py] and [load_optimizely_decisions_v2.py]. *)
Definition success_marker_exists (env : environment) (bucket date_prefix : string)
    : M world bool :=
  let key := date_prefix +:+ "_SUCCESS" in
  try_except
    (head_object env bucket key ;; ret true)
    (λ _, ret false).

(** [objects.sort(key=lambda o: o["Key"])]. *)
Definition key_le (a b : s3obj) : Prop := String.leb (Key a) (Key b) = true.

#[global] Instance key_le_dec (a b : s3obj) : Decision (key_le a b).
Proof. unfold key_le. apply _. Defined.

Definition sort_by_key (objects : list s3obj) : list s3obj :=
  merge_sort key_le objects.
(** [date.fromisoformat(s)] for the format YYYY-MM-DD. *)
Definition fromisoformat (s : string) : result date :=
  match list_ascii_of_string s with
  | [y1; y2; y3; y4; h1; m1; m2; h2; d1; d2] =>
      if forallb is_digit [y1; y2; y3; y4; m1; m2; d1; d2]
         && Ascii.eqb h1 "-" && Ascii.eqb h2 "-"
      then new_date (two_digits y1 y2 * 100 + two_digits y3 y4)
                    (two_digits m1 m2) (two_digits d1 d2)
      else Raise (ValueError "Invalid isoformat string")
  | _ => Raise (ValueError "Invalid isoformat string")
  end.

(** [sys.exit(msg)] and [sys.exit(status)]. *)
Definition sys_exit_msg {S A} (msg : string) : M S A := raise (SystemExit 1 msg).
Definition sys_exit {S A} (status : Z) : M S A := raise (SystemExit status "").

Definition is_nil {A} (l : list A) : bool :=
  match l with [] => true | _ => false end.

(** [sum(o.get("Size", 0) for o in objects)]. *)
Definition total_bytes (objects : list s3obj) : Z :=
  fold_left (λ acc o, acc + Size o) objects 0.

(** ** [extract_optimizely_s3.py] *)

Module Extract.

(** Construct a 'prefix/YYYY/MM/DD/' style sub-prefix. *)
Definition ymd_path_for (prefix : string) (d : date) : string :=
  let p := if endswith prefix "/" then prefix else prefix +:+ "/" in
  p +:+ fmt04 (year d) +:+ "/" +:+ fmt02 (month d) +:+ "/" +:+ fmt02 (day d) +:+ "/".

Definition list_s3_objects := list_objects.

(** [list_by_day_if_partitioned], consumed to the end. *)
Definition list_by_day_if_partitioned (env : environment)
    (bucket base_prefix : string) (start end_ : date) : M world (list s3obj) :=
  for_generated (daterange start end_)
    (λ d acc,
       do objs <- list_s3_objects env bucket (ymd_path_for base_prefix d);
       ret (acc ++ objs))
    [].

(** [try_detect_partitioning]: is there an object under the day folder of
    the sample date? *)
Definition try_detect_partitioning (env : environment)
    (bucket base_prefix : string) (sample_date : date) : M world bool :=
  let day_prefix := ymd_path_for base_prefix sample_date in
  do objs <- list_s3_objects env bucket day_prefix;
  ret (negb (is_nil objs)).

(** [human_size(n)]: ["0B"] for zero; [math.log] refuses a negative
    number. *)
Definition human_size (env : environment) (n : Z) : result unit :=
  if n =? 0 then Ok tt
  else if n <? 0 then Raise (ValueError "math domain error")
  else human_size_float env n.

(** [download_objects]: every object of the list is handled. *)
Definition download_objects (env : environment) (bucket : string)
    (objects : list s3obj) (out_dir : string) (dry_run : bool) : M world counts :=
  transfer env (λ _, false) (human_size env) bucket objects out_dir dry_run.

Record args : Type := {
  bucket : string;
  prefix : string;
  out_dir : string;
  start_date : string;
  end_date : string;
  dry_run : bool;
  force_scan : bool
}.

(** The part of [main] that builds the list [objects]. *)
Definition collect (env : environment) (a : args) (start end_ : date)
    : M world (list s3obj) :=
  let prefix := if truthy (prefix a) then prefix a else "" in
  do use_partitioned <-
    (if force_scan a then ret false
     else try_except
            (try_detect_partitioning env (bucket a) prefix start)
            (λ _, ret false));
  if use_partitioned
  then list_by_day_if_partitioned env (bucket a) prefix start end_
  else
    do listed <- list_s3_objects env (bucket a) prefix;
    ret (List.filter (λ o, key_has_date_in_range (Key o) start end_) listed).

Definition main (env : environment) (a : args) : M world unit :=
  do start <- lift_result (fromisoformat (start_date a));
  do end_ <- lift_result (fromisoformat (end_date a));
  if date_lt end_ start
  then raise (ValueError "end-date cannot be earlier than start-date")
  else
    if negb (truthy (bucket a)) || contains (bucket a) "YOUR_OPTIMIZELY_EXPORT_BUCKET"
    then raise (RuntimeError "Please provide your S3 bucket via --bucket or env S3_BUCKET, and the export prefix via --prefix or env S3_PREFIX.")
    else
      do objects <- collect env a start end_;
      if is_nil objects then sys_exit 0
      else
        let objects := sort_by_key objects in
        lift_result (human_size env (total_bytes objects)) ;;
        do c <- download_objects env (bucket a) objects (out_dir a) (dry_run a);
        let '(ok, skipped, failed) := c in
        if 0 <? failed then sys_exit 2 else ret tt.

End Extract.

(** ** [load_optimizely_decisions.py]

    The file has lines with stray indentation, in [build_date_prefix] and in
    [main], and Python refuses it as it is.  Of its text, [human_size] and
    [download_objects], which are whole, are modelled; [build_date_prefix]
    and [main] are not. *)

Module V1.

(** [human_size(n)]: ["0B"] for zero ([if not n]); the unit index is 0 for
    a negative number. *)
Definition human_size (env : environment) (n : Z) : result unit :=
  if n =? 0 then Ok tt else human_size_float env n.

(** [download_objects]: [if key.endswith("/"): continue]. *)
Definition download_objects (env : environment) (bucket : string)
    (objects : list s3obj) (out_dir : string) (dry_run : bool) : M world counts :=
  transfer env (λ key, endswith key "/") (human_size env)
    bucket objects out_dir dry_run.

End V1.

(** ** [load_optimizely_decisions_v2.py] *)

Module V2.

Definition OPTLY_CRED_URL : string :=
  "https://api.optimizely.com/v2/export/credentials".

(** [fetch_optimizely_temp_creds]: the request to the credentials
    endpoint; the value kept here is the [s3_path] of the result. *)
Definition fetch_optimizely_temp_creds (env : environment) : M world (option string) :=
  try_except (request env (HttpGetCredentials OPTLY_CRED_URL))
    (λ _, raise (RuntimeError "Failed to call Optimizely credentials API")) ;;
  match cred_reply env with
  | NoReply => raise (RuntimeError "Failed to call Optimizely credentials API")
  | Reply status body =>
      if negb (status =? 200)
      then raise (RuntimeError "Optimizely credentials API returned a non-200 status.")
      else match body with
           | None => raise (RuntimeError "Invalid JSON from Optimizely credentials API")
           | Some b =>
               if has_all_fields b then ret (s3Path b)
               else raise (RuntimeError "Optimizely credentials API response missing expected fields.")
           end
  end.

(** [s3_client_via_optimizely]: the first [refresh()] is made when the
    client is built; the value kept here is [holder.get("s3_path")].
    Later refreshes, made when the credentials expire, are not modelled. *)
Definition s3_client_via_optimizely (env : environment) : M world (option string) :=
  do s3_path <- fetch_optimizely_temp_creds env;
  ret (if truthy_opt s3_path then s3_path else None).

(** *** [urllib.parse.urlparse] and the checks of [ipaddress] behind it

    The library text followed is that of Python 3.11 with the check of
    bracketed hosts ([_check_bracketed_netloc]).  The characters of a text
    are code points below 256; on these the normalisation made by
    [_checknetloc] yields none of [/ ? # @ :], so that check passes.  The
    messages of the [ValueError]s of the library are not kept. *)

Fixpoint take_until (stop : ascii → bool) (l : list ascii) : list ascii * list ascii :=
  match l with
  | [] => ([], [])
  | c :: r => if stop c then ([], l)
              else let '(a, b) := take_until stop r in (c :: a, b)
  end.

(** [s.partition(c)]: the text before the first [c], whether there is one,
    and the text after it. *)
Definition partition (sep : ascii) (l : list ascii) : list ascii * bool * list ascii :=
  match take_until (Ascii.eqb sep) l with
  | (before, _ :: after) => (before, true, after)
  | (before, []) => (before, false, [])
  end.

(** [s.rpartition(c)[2]]: the text after the last [c]. *)
Definition after_last (sep : ascii) (l : list ascii) : list ascii :=
  rev (fst (take_until (Ascii.eqb sep) (rev l))).

Definition is_hex_digit (c : ascii) : bool :=
  is_digit c || (Ascii.leb "a" c && Ascii.leb c "f")
  || (Ascii.leb "A" c && Ascii.leb c "F").

(** [IPv4Address._parse_octet(s)] returns: decimal digits, three at most,
    no leading zero, a value up to 255. *)
Definition octet_ok (s : string) : bool :=
  let l := list_ascii_of_string s in
  truthy s && forallb is_digit l && (length l <=? 3)%nat
  && (String.eqb s "0" || negb (startswith s "0"))
  && (fold_left (λ acc c, acc * 10 + digit_val c) l 0 <=? 255).

(** [ipaddress.IPv4Address(s)] returns. *)
Definition is_IPv4Address (s : string) : bool :=
  negb (contains s "/") && truthy s
  && (length (split "." s) =? 4)%nat && forallb octet_ok (split "." s).

(** [IPv6Address._parse_hextet(s)] returns. *)
Definition hextet_ok (s : string) : bool :=
  let l := list_ascii_of_string s in
  forallb is_hex_digit l && (length l <=? 4)%nat && truthy s.

(** [IPv6Address._ip_int_from_string(ip_str)] returns.  The two hextets
    that stand for a dotted suffix are written [0] here: only whether they
    parse matters. *)
Definition ipv6_int_ok (ip_str : string) : bool :=
  let parts := split ":" ip_str in
  let dotted := contains (List.last parts "") "." in
  let parts := if dotted then removelast parts ++ ["0"; "0"]%string else parts in
  let n := length parts in
  let first_empty := negb (truthy (hd ""%string parts)) in
  let last_empty := negb (truthy (List.last parts "")) in
  truthy ip_str
  && (3 <=? length (split ":" ip_str))%nat
  && (negb dotted || is_IPv4Address (List.last (split ":" ip_str) ""))
  && (n <=? 9)%nat
  && match List.filter (λ i, negb (truthy (nth i parts ""%string))) (seq 1 (n - 2)) with
     | [] =>
         (n =? 8)%nat && negb first_empty && negb last_empty
         && forallb hextet_ok parts
     | [skip_index] =>
         let parts_hi := if first_empty then (skip_index - 1)%nat else skip_index in
         let parts_lo :=
           if last_empty then (n - skip_index - 1 - 1)%nat
           else (n - skip_index - 1)%nat in
         negb (first_empty && negb (parts_hi =? 0)%nat)
         && negb (last_empty && negb (parts_lo =? 0)%nat)
         && (parts_hi + parts_lo <? 8)%nat
         && forallb hextet_ok (take parts_hi parts)
         && forallb hextet_ok (drop (n - parts_lo) parts)
     | _ => false
     end.

(** [ipaddress.IPv6Address(s)] returns: no [/], a scope after [%] that is
    neither empty nor holds another [%], and an address that parses. *)
Definition is_IPv6Address (s : string) : bool :=
  let '(addr, sep, scope_id) := partition "%" (list_ascii_of_string s) in
  negb (contains s "/")
  && (negb sep || (negb (is_nil scope_id) && negb (existsb (Ascii.eqb "%") scope_id)))
  && ipv6_int_ok (string_of_list_ascii addr).

(** [re.match(r"\Av[a-fA-F0-9]+\..+\Z", hostname)] finds a match. *)
Definition is_IPvFuture (hostname : list ascii) : bool :=
  match hostname with
  | c :: r =>
      let '(hex, rest) := take_until (λ x, negb (is_hex_digit x)) r in
      Ascii.eqb c "v" && negb (is_nil hex)
      && match rest with
         | dot :: (_ :: _) as tail =>
             Ascii.eqb dot "." && forallb (λ x, negb (Ascii.eqb x "010")) tail
         | _ => false
         end
  | [] => false
  end.

(** [_check_bracketed_host(hostname)] returns. *)
Definition check_bracketed_host (hostname : list ascii) : bool :=
  match hostname with
  | "v"%char :: _ => is_IPvFuture hostname
  | _ =>
      let s := string_of_list_ascii hostname in
      if is_IPv4Address s then false else is_IPv6Address s
  end.

(** [_check_bracketed_netloc(netloc)] returns. *)
Definition check_bracketed_netloc (netloc : list ascii) : bool :=
  let hostname_and_port := after_last "@" netloc in
  let '(before_bracket, have_open_br, bracketed) := partition "[" hostname_and_port in
  if have_open_br then
    let '(hostname, _, port) := partition "]" bracketed in
    if negb (is_nil before_bracket) then false
    else if negb (is_nil port) && negb (match port with c :: _ => Ascii.eqb c ":" | [] => false end)
    then false
    else check_bracketed_host hostname
  else
    let '(hostname, _, _) := partition ":" hostname_and_port in
    check_bracketed_host hostname.

(** [urllib.parse.urlparse(url)] for a [url] that starts with [s3://];
    [rest] is the text after these five characters and the result holds
    [netloc] and [path].  Tabs and line ends are deleted first; the network
    location runs to the first of [/ ? #], and is refused when it has one
    bracket without the other or a bracketed host that is no address; the
    path runs from there to the first of [? #]. *)
Definition urlparse_s3 (rest : list ascii) : result (string * string) :=
  let url :=
    List.filter
      (λ c, negb (Ascii.eqb c "009" || Ascii.eqb c "013" || Ascii.eqb c "010")) rest in
  let '(netloc, url) :=
    take_until (λ c, Ascii.eqb c "/" || Ascii.eqb c "?" || Ascii.eqb c "#") url in
  let '(path, _) := take_until (λ c, Ascii.eqb c "?" || Ascii.eqb c "#") url in
  let has_open := existsb (Ascii.eqb "[") netloc in
  let has_close := existsb (Ascii.eqb "]") netloc in
  if xorb has_open has_close then Raise (ValueError "Invalid IPv6 URL")
  else if has_open && has_close && negb (check_bracketed_netloc netloc)
  then Raise (ValueError "Invalid IPv6 URL")
  else Ok (string_of_list_ascii netloc, string_of_list_ascii path).

(** Return (bucket, key_prefix) from s3://bucket/key... *)
Definition parse_s3_path (s3_path : string) : result (string * string) :=
  if negb (startswith s3_path "s3://")
  then Raise (ValueError "Expected s3:// URL")
  else
    match urlparse_s3 (drop 5 (list_ascii_of_string s3_path)) with
    | Raise e => Raise e
    | Ok (netloc, path) =>
        let bucket := netloc in
        let key := lstrip_slash path in
        let key := if truthy key && negb (endswith key "/") then key +:+ "/" else key in
        Ok (bucket, key)
    end.

Definition validate_prefix_endswith (prefix partition_type : string) : result unit :=
  let acceptable := ["type=decisions/"; "type=events/"; "type=decisions-rerun/"] in
  if negb (existsb (endswith prefix) acceptable)
  then Raise (ValueError "--prefix must end with one of 'type=decisions/', 'type=events/', or 'type=decisions-rerun/'")
  else if String.eqb partition_type "events" && negb (endswith prefix "type=events/")
  then Raise (ValueError "--type events requires --prefix to end with 'type=events/'")
  else if String.eqb partition_type "decisions"
          && negb (endswith prefix "type=decisions/" || endswith prefix "type=decisions-rerun/")
  then Raise (ValueError "--type decisions requires --prefix to end with 'type=decisions/' or 'type=decisions-rerun/'")
  else Ok tt.

(** The regular expressions of [compute_bucket_and_prefix], as matchers
    that return the length of the match. *)
Definition rx := list ascii → option nat.

Definition rx_then (n : nat) (k : rx) : rx :=
  λ s, match k s with Some m => Some (n + m)%nat | None => None end.

Fixpoint rx_lit (lit : list ascii) (k : rx) : rx :=
  λ s, match lit with
       | [] => k s
       | a :: lit' =>
           match s with
           | c :: r => if Ascii.eqb a c then rx_then 1 (rx_lit lit' k) r else None
           | [] => None
           end
       end.

(** [\d+] followed by [k]: the longest run first. *)
Fixpoint rx_digits (k : rx) (s : list ascii) : option nat :=
  match s with
  | c :: r =>
      if is_digit c then
        match rx_digits k r with
        | Some n => Some (S n)
        | None => rx_then 1 k r
        end
      else None
  | [] => None
  end.

(** [/?] followed by [k]. *)
Definition rx_opt_slash (k : rx) : rx :=
  λ s, match s with
       | c :: r =>
           if is_slash c then
             match rx_then 1 k r with
             | Some n => Some n
             | None => k s
             end
           else k s
       | [] => k s
       end.

(** [$]: the end of the text, or just before a final newline. *)
Definition rx_dollar : rx :=
  λ s, match s with
       | [] => Some O
       | [c] => if Ascii.eqb c "010" then Some O else None
       | _ => None
       end.

Definition rx_accept : rx := λ _, Some O.

Definition account_lit : list ascii := list_ascii_of_string "v1/account_id=".

(** [v1/account_id=\d+/?$] and [v1/account_id=\d+/]. *)
Definition rx_account_end : rx :=
  rx_lit account_lit (rx_digits (rx_opt_slash rx_dollar)).
Definition rx_account : rx :=
  rx_lit account_lit (rx_digits (rx_lit [slash] rx_accept)).

(** [re.search(r, s)]: is there a match somewhere? *)
Fixpoint re_search (r : rx) (s : list ascii) : bool :=
  match r s with
  | Some _ => true
  | None => match s with
            | [] => false
            | _ :: s' => re_search r s'
            end
  end.

(** [re.match(r, s)]: the text matched at the start. *)
Definition re_match (r : rx) (s : string) : option string :=
  match r (list_ascii_of_string s) with
  | Some n => Some (string_of_list_ascii (take n (list_ascii_of_string s)))
  | None => None
  end.

Record args : Type := {
  auth : string;
  pat : option string;
  bucket : option string;
  prefix : option string;
  account_id : option string;
  partition_type : string;
  out_dir : string;
  start_date : string;
  end_date : string;
  dry_run : bool;
  require_success : bool
}.

Definition DEFAULT_BUCKET (env : environment) : string :=
  default "optimizely-events-data" (getenv env "S3_BUCKET").

Definition compute_bucket_and_prefix (env : environment) (a : args)
    (s3_path_hint : option string) : result (string * string) :=
  if truthy_opt (prefix a) then
    let given := default "" (prefix a) in
    let prefix := if endswith given "/" then given else given +:+ "/" in
    match validate_prefix_endswith prefix (partition_type a) with
    | Raise e => Raise e
    | Ok _ => Ok (or_else (bucket a) (DEFAULT_BUCKET env), prefix)
    end
  else
    let parsed : option (string * string) :=
      match s3_path_hint with
      | Some h => if truthy h then
                    match parse_s3_path h with
                    | Ok bk => Some bk
                    | Raise _ => None
                    end
                  else None
      | None => None
      end in
    let base_bucket := fst <$> parsed in
    let base_key := snd <$> parsed in
    let bucket := or_else (bucket a) (or_else base_bucket (DEFAULT_BUCKET env)) in
    let account_base : option string :=
      match base_key with
      | Some k =>
          if truthy k && re_search rx_account_end (list_ascii_of_string k)
          then Some k
          else if truthy k && re_search rx_account (list_ascii_of_string k)
          then re_match rx_account k
          else None
      | None => None
      end in
    let account_base :=
      if negb (truthy_opt account_base) && truthy_opt (account_id a)
      then Some ("v1/account_id=" +:+ default "" (account_id a) +:+ "/")
      else account_base in
    if negb (truthy_opt account_base)
    then Raise (RuntimeError "Cannot determine account base prefix. Provide --prefix or --account-id, or use --auth optimizely to infer from s3Path.")
    else
      let partition := "type=" +:+ partition_type a +:+ "/" in
      let prefix := default "" account_base +:+ partition in
      match validate_prefix_endswith prefix (partition_type a) with
      | Raise e => Raise e
      | Ok _ => Ok (bucket, prefix)
      end.

(** [human_size(n)]: the text of [load_optimizely_decisions.py]. *)
Definition human_size (env : environment) (n : Z) : result unit :=
  if n =? 0 then Ok tt else human_size_float env n.

Definition date_prefix_of (prefix : string) (d : date) : string :=
  prefix +:+ "date=" +:+ isoformat d +:+ "/".

(** One round of the loop over the days in [main]. *)
Definition collect_day (env : environment) (bucket prefix : string)
    (require_success : bool) (d : date) (all_objects : list s3obj)
    : M world (list s3obj) :=
  let date_prefix := date_prefix_of prefix d in
  do has_success <- success_marker_exists env bucket date_prefix;
  if negb has_success && require_success then ret all_objects
  else
    do listed <- list_objects env bucket date_prefix;
    let day_objs := List.filter (λ o, endswith (Key o) ".parquet") listed in
    if is_nil day_objs then ret all_objects
    else ret (all_objects ++ day_objs).

Definition collect (env : environment) (bucket prefix : string)
    (require_success : bool) (start end_ : date) : M world (list s3obj) :=
  for_generated (daterange start end_)
    (collect_day env bucket prefix require_success) [].

(** The transfer loop written out in [main]:
    [if key.endswith("/") or not key: continue]. *)
Definition transfer_inline (env : environment) (bucket : string)
    (all_objects : list s3obj) (out_dir : string) (dry_run : bool) : M world counts :=
  transfer env (λ key, endswith key "/" || negb (truthy key)) (human_size env)
    bucket all_objects out_dir dry_run.

Definition main (env : environment) (a : args) : M world unit :=
  do dates <-
    try_except
      (do start <- lift_result (fromisoformat (start_date a));
       do end_ <- lift_result (fromisoformat (end_date a));
       ret (start, end_))
      (λ _, sys_exit_msg "ERROR: --start-date and --end-date must be in YYYY-MM-DD format");
  let '(start, end_) := dates in
  if date_lt end_ start
  then sys_exit_msg "ERROR: --end-date cannot be earlier than --start-date"
  else
    do s3_path_hint <-
      (if String.eqb (auth a) "optimizely" then
         let pat := if truthy_opt (pat a) then pat a else getenv env "OPTIMIZELY_PAT" in
         if negb (truthy_opt pat)
         then sys_exit_msg "ERROR: --pat is required for --auth optimizely (or set OPTIMIZELY_PAT)"
         else s3_client_via_optimizely env
       else
         if negb (truthy_opt (getenv env "AWS_ACCESS_KEY_ID")
                  && truthy_opt (getenv env "AWS_SECRET_ACCESS_KEY"))
         then sys_exit_msg "ERROR: Missing AWS_ACCESS_KEY_ID / AWS_SECRET_ACCESS_KEY for --auth aws"
         else ret None);
    do bp <-
      try_except (lift_result (compute_bucket_and_prefix env a s3_path_hint))
        (λ e, sys_exit_msg ("ERROR: " +:+ str_exn e));
    let '(bucket, prefix) := bp in
    do all_objects <- collect env bucket prefix (require_success a) start end_;
    if is_nil all_objects then sys_exit 0
    else
      let all_objects := sort_by_key all_objects in
      lift_result (human_size env (total_bytes all_objects)) ;;
      do c <- transfer_inline env bucket all_objects (out_dir a) (dry_run a);
      let '(ok, skipped, failed) := c in
      if 0 <? failed then sys_exit 2 else ret tt.

End V2.

(** ** Batch Loader: [stage_and_load_to_bq_gcs.py] *)

Module Gcs.

(** Max 10,000 URIs per BigQuery load job; stay well under the limit. *)
Definition CHUNK_SIZE : Z := 9000.

(** [lst[i:i+n]] for [0 <= i] and [0 < n]. *)
Definition slice {A} (lst : list A) (i n : Z) : list A :=
  take (Z.to_nat n) (drop (Z.to_nat i) lst).

(** The iterations of [for i in range(i, len(lst), n): yield lst[i:i+n]]
    for a positive step; the loop runs at most [len(lst)] times. *)
Fixpoint chunks_from {A} (fuel : nat) (lst : list A) (i n : Z) : list (list A) :=
  match fuel with
  | O => []
  | S fuel' =>
      if i <? Z.of_nat (length lst)
      then slice lst i n :: chunks_from fuel' lst (i + n) n
      else []
  end.

(** [chunks(lst, n)], consumed to the end.  [range] refuses a zero step
    and is empty for a negative one. *)
Definition chunks {A} (lst : list A) (n : Z) : result (list (list A)) :=
  if n =? 0 then Raise (ValueError "range() arg 3 must not be zero")
  else if n <? 0 then Ok []
  else Ok (chunks_from (length lst) lst 0 n).

(** Requests to the warehouse, in the order they are issued. *)
Inductive bq_event : Type :=
  | LoadFromUri (uris : list string)
  | LoadFromFile (path : string)
  | JobResult (job : nat)
  | GetTable.

(** The warehouse: which load jobs (numbered from 0 in submission order)
    fail. *)
Record warehouse : Type := { job_fails : nat → bool }.

Record bq_world : Type := { bq_log : list bq_event; bq_jobs : nat }.

Definition bq_emit (e : bq_event) : M bq_world unit :=
  λ w, (Ok tt, {| bq_log := bq_log w ++ [e]; bq_jobs := bq_jobs w |}).

(** [client.load_table_from_uri(batch, ...)]: submits a job, returns it. *)
Definition load_table_from_uri (batch : list string) : M bq_world nat :=
  λ w, (Ok (bq_jobs w),
        {| bq_log := bq_log w ++ [LoadFromUri batch]; bq_jobs := S (bq_jobs w) |}).

(** [job.result()]: blocks until the job is done, raises if it failed. *)
Definition job_result (wh : warehouse) (job : nat) : M bq_world unit :=
  bq_emit (JobResult job) ;;
  if job_fails wh job then raise LoadJobError else ret tt.

Fixpoint load_batches (wh : warehouse) (batches : list (list string))
    (done : Z) : M bq_world Z :=
  match batches with
  | [] => ret done
  | batch :: rest =>
      do job <- load_table_from_uri batch;
      job_result wh job ;;
      load_batches wh rest (done + Z.of_nat (length batch))
  end.

(** [load_parquet_to_bq(uris, ...)] with the chunk size made explicit. *)
Definition load_parquet_to_bq_at (chunk_size : Z) (wh : warehouse)
    (uris : list string) : M bq_world unit :=
  do batches <- lift_result (chunks uris chunk_size);
  load_batches wh batches 0 ;;
  bq_emit GetTable.

Definition load_parquet_to_bq : warehouse → list string → M bq_world unit :=
  load_parquet_to_bq_at CHUNK_SIZE.

End Gcs.

(** ** Batch Loader: [stage_and_load_to_bq_local_v2.py] *)

Module LocalV2.
Import Gcs.

(** [client.load_table_from_file(f, ...)]: submits a job for one file. *)
Definition load_table_from_file (path : string) : M bq_world nat :=
  λ w, (Ok (bq_jobs w),
        {| bq_log := bq_log w ++ [LoadFromFile path]; bq_jobs := S (bq_jobs w) |}).

(** [load_parquet_to_bq(file_paths, ...)]: one load job per file. *)
Fixpoint load_parquet_to_bq (wh : warehouse) (file_paths : list string)
    : M bq_world unit :=
  match file_paths with
  | [] => ret tt
  | file_path :: rest =>
      do job <- load_table_from_file file_path;
      job_result wh job ;;
      load_parquet_to_bq wh rest
  end.

Fixpoint load_each (wh : warehouse) (batches : list (list string))
    : M bq_world unit :=
  match batches with
  | [] => ret tt
  | batch :: rest => load_parquet_to_bq wh batch ;; load_each wh rest
  end.

(** The batch loop of [main]:
    [for i in range(0, len(all_files), args.batch_size)]. *)
Definition main (batch_size : Z) (wh : warehouse) (all_files : list string)
    : M bq_world unit :=
  do batches <- lift_result (chunks all_files batch_size);
  load_each wh batches.

End LocalV2.

(** ** Staging: the rest of [stage_and_load_to_bq_gcs.py]

    The text of the file is accepted from Python 3.12 on (the f-string of
    [upload_to_gcs] has a backslash in an expression). *)

Module Stage.
Import Gcs.

(** The configuration that the module reads from the environment when it is
    loaded. *)
Record config : Type := {
  PROJECT_ID : string;
  LOCAL_DIR : string;
  GCS_BUCKET : string;
  GCS_PREFIX : string;
  BQ_DATASET : string;
  BQ_TABLE_RAW : string;
  LOCATION : string
}.

(** Requests to the object store and to the catalogue of the warehouse, in
    the order they are issued. *)
Inductive cloud_event : Type :=
  | GetBucket (name : string)
  | CreateBucket (name location : string)
  | GetDataset (dataset : string)
  | CreateDataset (dataset location : string)
  | BlobExists (bucket key : string)
  | BlobReload (bucket key : string)
  | UploadFromFilename (bucket key filename : string).

(** The state a run acts on: the buckets and the datasets with their
    locations, the size of every blob, the log of the requests, and the
    warehouse as [load_parquet_to_bq] sees it. *)
Record cloud : Type := mk_cloud {
  buckets : gmap string string;
  datasets : gmap string string;
  blobs : gmap (string * string) Z;
  cloud_log : list cloud_event;
  bq : bq_world
}.

(** A file that [iter_local_parquet] yields. *)
Record local_file : Type := mk_local_file {
  fpath : string;       (* str(fpath) *)
  rel : string;         (* str(fpath.relative_to(local_root)) *)
  st_size : Z           (* fpath.stat().st_size *)
}.

(** Everything a run reads but does not control. *)
Record stage_env : Type := {
  (* the exception, if any, by which the construction of a client ends *)
  client_error : option exn;
  (* the exception, if any, by which bigquery.Dataset refuses the text
     "project.dataset" *)
  dataset_ref_error : option exn;
  (* the fault, if any, that hits the n-th request of the run *)
  cloud_fault : nat → option fault;
  (* local_root.exists() *)
  local_root_exists : bool;
  (* the files that iter_local_parquet(local_root) yields, in its order *)
  local_parquet : list local_file;
  (* which load jobs fail *)
  load_warehouse : warehouse
}.

(** [google.api_core.exceptions.NotFound]: the reply 404. *)
Definition NotFound : exn := ClientError "404".
Definition Conflict : exn := ClientError "409".

Definition is_NotFound (e : exn) : bool :=
  match e with
  | ClientError code => String.eqb code "404"
  | _ => false
  end.

(** [try: m  except NotFound: h]. *)
Definition try_except_NotFound {S A} (m : M S A) (h : M S A) : M S A :=
  λ s, match m s with
       | (Ok a, s') => (Ok a, s')
       | (Raise e, s') => if is_NotFound e then h s' else (Raise e, s')
       end.

(** Every request is logged and may be hit by a fault. *)
Definition cloud_request (env : stage_env) (e : cloud_event) : M cloud unit :=
  λ w, let w' := mk_cloud (buckets w) (datasets w) (blobs w)
                   (cloud_log w ++ [e]) (bq w) in
       match cloud_fault env (length (cloud_log w)) with
       | Some x => (Raise (exn_of_fault x), w')
       | None => (Ok tt, w')
       end.

(** [storage.Client(...)], [bigquery.Client(...)]: no request is made. *)
Definition new_client (env : stage_env) : M cloud unit :=
  λ w, match client_error env with
       | Some e => (Raise e, w)
       | None => (Ok tt, w)
       end.

(** [client.get_bucket(bucket_name)]; the value kept is the name. *)
Definition get_bucket (env : stage_env) (bucket_name : string) : M cloud string :=
  cloud_request env (GetBucket bucket_name) ;;
  λ w, match buckets w !! bucket_name with
       | Some _ => (Ok bucket_name, w)
       | None => (Raise NotFound, w)
       end.

(** [client.create_bucket(bucket)] with [bucket.location = location]. *)
Definition create_bucket (env : stage_env) (bucket_name location : string)
    : M cloud string :=
  cloud_request env (CreateBucket bucket_name location) ;;
  λ w, match buckets w !! bucket_name with
       | Some _ => (Raise Conflict, w)
       | None =>
           (Ok bucket_name,
            mk_cloud (<[bucket_name := location]> (buckets w)) (datasets w)
              (blobs w) (cloud_log w) (bq w))
       end.

Definition ensure_bucket (env : stage_env) (bucket_name location : string)
    : M cloud string :=
  try_except_NotFound
    (get_bucket env bucket_name)
    (create_bucket env bucket_name location).

Definition get_dataset (env : stage_env) (ds_ref : string) : M cloud string :=
  cloud_request env (GetDataset ds_ref) ;;
  λ w, match datasets w !! ds_ref with
       | Some _ => (Ok ds_ref, w)
       | None => (Raise NotFound, w)
       end.

Definition create_dataset (env : stage_env) (ds_ref location : string)
    : M cloud string :=
  cloud_request env (CreateDataset ds_ref location) ;;
  λ w, match datasets w !! ds_ref with
       | Some _ => (Raise Conflict, w)
       | None =>
           (Ok ds_ref,
            mk_cloud (buckets w) (<[ds_ref := location]> (datasets w))
              (blobs w) (cloud_log w) (bq w))
       end.

Definition ensure_dataset (env : stage_env) (project_id dataset_id location : string)
    : M cloud string :=
  let ds_ref := project_id +:+ "." +:+ dataset_id in
  (λ w, match dataset_ref_error env with
        | Some e => (Raise e, w)
        | None => (Ok tt, w)
        end) ;;
  try_except_NotFound
    (get_dataset env ds_ref)
    (create_dataset env ds_ref location).

(** [s.replace('\\', '/')]. *)
Fixpoint replace_backslash (s : string) : string :=
  match s with
  | EmptyString => EmptyString
  | String c r =>
      String (if Ascii.eqb c "\" then "/" else c)%char (replace_backslash r)
  end.

(** [blob.exists()]. *)
Definition blob_exists (env : stage_env) (bucket key : string) : M cloud bool :=
  cloud_request env (BlobExists bucket key) ;;
  λ w, (Ok (bool_decide (is_Some (blobs w !! (bucket, key)))), w).

(** [blob.reload()]; the value kept is [blob.size]. *)
Definition blob_reload (env : stage_env) (bucket key : string) : M cloud Z :=
  cloud_request env (BlobReload bucket key) ;;
  λ w, match blobs w !! (bucket, key) with
       | Some n => (Ok n, w)
       | None => (Raise NotFound, w)
       end.

(** [blob.upload_from_filename(filename)] of a file of the given size. *)
Definition upload_from_filename (env : stage_env) (bucket key filename : string)
    (size : Z) : M cloud unit :=
  cloud_request env (UploadFromFilename bucket key filename) ;;
  λ w, match buckets w !! bucket with
       | None => (Raise NotFound, w)
       | Some _ =>
           (Ok tt,
            mk_cloud (buckets w) (datasets w) (<[(bucket, key) := size]> (blobs w))
              (cloud_log w) (bq w))
       end.

Definition gcs_key_of (gcs_prefix : string) (f : local_file) : string :=
  rstrip_slash gcs_prefix +:+ "/" +:+ replace_backslash (rel f).

Definition uri_of (bucket gcs_prefix : string) (f : local_file) : string :=
  "gs://" +:+ bucket +:+ "/" +:+ gcs_key_of gcs_prefix f.

(** One round of the loop of [upload_to_gcs]. *)
Definition upload_one (env : stage_env) (bucket gcs_prefix : string)
    (f : local_file) (uris : list string) : M cloud (list string) :=
  let gcs_key := gcs_key_of gcs_prefix f in
  let size_on_disk := st_size f in
  do there <- blob_exists env bucket gcs_key;
  do needs_upload <-
    (if there then
       do size <- blob_reload env bucket gcs_key;
       ret (negb (size =? size_on_disk))
     else ret true);
  (if needs_upload
   then upload_from_filename env bucket gcs_key (fpath f) size_on_disk
   else ret tt) ;;
  ret (uris ++ [uri_of bucket gcs_prefix f]).

(** [upload_to_gcs(local_root, bucket, gcs_prefix)]. *)
Definition upload_to_gcs (env : stage_env) (bucket gcs_prefix : string)
    : M cloud (list string) :=
  for_each (local_parquet env) (upload_one env bucket gcs_prefix) [].

(** [load_parquet_to_bq] acting on the warehouse part of the state. *)
Definition lift_bq {A} (m : M bq_world A) : M cloud A :=
  λ w, let '(r, b) := m (bq w) in
       (r, mk_cloud (buckets w) (datasets w) (blobs w) (cloud_log w) b).

Definition main (cfg : config) (env : stage_env) : M cloud unit :=
  if negb (local_root_exists env) then sys_exit 1
  else
    new_client env ;;
    do bucket <- ensure_bucket env (GCS_BUCKET cfg) (LOCATION cfg);
    new_client env ;;
    ensure_dataset env (PROJECT_ID cfg) (BQ_DATASET cfg) (LOCATION cfg) ;;
    do uris <- upload_to_gcs env bucket (GCS_PREFIX cfg);
    if is_nil uris then sys_exit 0
    else
      new_client env ;;
      lift_bq (load_parquet_to_bq (load_warehouse env) uris).

End Stage.

(** * Notions used in the statements *)

(** ** Type markers *)

Definition acceptable : list string :=
  ["type=decisions/"; "type=events/"; "type=decisions-rerun/"].

(** The base prefix made to end with a separator. *)
Definition with_slash (base : string) : string :=
  if endswith base "/" then base else base +:+ "/".

(** ** Load jobs *)

Definition ceil_div (n b : Z) : Z := (n + b - 1) / b.

(** The number of load jobs a log records. *)
Definition load_jobs (log : list Gcs.bq_event) : nat :=
  length (List.filter (λ e, match e with
                            | Gcs.LoadFromUri _ | Gcs.LoadFromFile _ => true
                            | _ => false
                            end) log).

(** The log of loading the batches one after the other, each job being
    waited for right after its submission; [k] is the number of the first
    job. *)
Fixpoint batch_log (k : nat) (batches : list (list string)) : list Gcs.bq_event :=
  match batches with
  | [] => []
  | b :: rest => Gcs.LoadFromUri b :: Gcs.JobResult k :: batch_log (S k) rest
  end.

Fixpoint file_log (k : nat) (files : list string) : list Gcs.bq_event :=
  match files with
  | [] => []
  | f :: rest => Gcs.LoadFromFile f :: Gcs.JobResult k :: file_log (S k) rest
  end.

Definition bq_start : Gcs.bq_world := {| Gcs.bq_log := []; Gcs.bq_jobs := 0 |}.

Definition all_jobs_succeed : Gcs.warehouse := {| Gcs.job_fails := λ _, false |}.

(** ** Counters and trees *)


(** The test of the skip rule: something is at [p], of the given size. *)
Definition settled_b (env : environment) (f : gmap (list string) node)
    (p : string) (size : Z) : bool :=
  match node_at f p with
  | Some (File n) => n =? size
  | Some Dir => dir_size env =? size
  | None => false
  end.

Definition total (c : counts) : Z := let '(ok, skipped, failed) := c in ok + skipped + failed.
Definition downloaded (c : counts) : Z := let '(ok, _, _) := c in ok.
Definition skipped (c : counts) : Z := let '(_, sk, _) := c in sk.
Definition failed (c : counts) : Z := let '(_, _, fl) := c in fl.

(** The number of objects of a list that the loop does not pass over. *)
Definition handled (passes_over : string → bool) (objects : list s3obj) : Z :=
  Z.of_nat (length (List.filter (λ o, negb (passes_over (Key o))) objects)).

(** What one round of the loop can do. *)
Inductive step_outcome (env : environment) (passes_over : string → bool)
    (human_size : Z → result unit) (bucket out_dir : string) (dry_run : bool)
    (obj : s3obj) (c : counts) (w : world)
    : result counts → world → Prop :=
  | passed_over :
      passes_over (Key obj) = true →
      step_outcome env passes_over human_size bucket out_dir dry_run obj c w (Ok c) w
  | mkdir_failed e :
      passes_over (Key obj) = false →
      dirname (local_path_of out_dir (Key obj)) = ""
      ∨ mkdirs [] (resolve (dirname (local_path_of out_dir (Key obj)))) (fs w) = Raise e →
      step_outcome env passes_over human_size bucket out_dir dry_run obj c w (Raise e) w
  | print_failed f' e :
      passes_over (Key obj) = false →
      dirname (local_path_of out_dir (Key obj)) ≠ "" →
      mkdirs [] (resolve (dirname (local_path_of out_dir (Key obj)))) (fs w) = Ok f' →
      human_size (Size obj) = Raise e →
      step_outcome env passes_over human_size bucket out_dir dry_run obj c w
        (Raise e) (mk_world f' (net_log w))
  | skipped_one f' :
      passes_over (Key obj) = false →
      dirname (local_path_of out_dir (Key obj)) ≠ "" →
      mkdirs [] (resolve (dirname (local_path_of out_dir (Key obj)))) (fs w) = Ok f' →
      settled_b env f' (local_path_of out_dir (Key obj)) (Size obj) = true →
      human_size (Size obj) = Ok tt →
      step_outcome env passes_over human_size bucket out_dir dry_run obj c w
        (Ok (downloaded c, skipped c + 1, failed c)) (mk_world f' (net_log w))
  | planned_one f' :
      passes_over (Key obj) = false →
      dirname (local_path_of out_dir (Key obj)) ≠ "" →
      mkdirs [] (resolve (dirname (local_path_of out_dir (Key obj)))) (fs w) = Ok f' →
      settled_b env f' (local_path_of out_dir (Key obj)) (Size obj) = false →
      dry_run = true →
      human_size (Size obj) = Ok tt →
      step_outcome env passes_over human_size bucket out_dir dry_run obj c w
        (Ok (downloaded c + 1, skipped c, failed c)) (mk_world f' (net_log w))
  | failed_one f' :
      passes_over (Key obj) = false →
      dirname (local_path_of out_dir (Key obj)) ≠ "" →
      mkdirs [] (resolve (dirname (local_path_of out_dir (Key obj)))) (fs w) = Ok f' →
      settled_b env f' (local_path_of out_dir (Key obj)) (Size obj) = false →
      dry_run = false →
      human_size (Size obj) = Ok tt →
      step_outcome env passes_over human_size bucket out_dir dry_run obj c w
        (Ok (downloaded c, skipped c, failed c + 1))
        (mk_world f' (net_log w ++
           [DownloadFile bucket (Key obj) (local_path_of out_dir (Key obj))]))
  | fetched_one f' n :
      passes_over (Key obj) = false →
      dirname (local_path_of out_dir (Key obj)) ≠ "" →
      mkdirs [] (resolve (dirname (local_path_of out_dir (Key obj)))) (fs w) = Ok f' →
      settled_b env f' (local_path_of out_dir (Key obj)) (Size obj) = false →
      dry_run = false →
      remote_size env bucket (Key obj) = Some n →
      resolve (local_path_of out_dir (Key obj)) ≠ [] →
      f' !! resolve (local_path_of out_dir (Key obj)) ≠ Some Dir →
      human_size (Size obj) = Ok tt →
      step_outcome env passes_over human_size bucket out_dir dry_run obj c w
        (Ok (downloaded c + 1, skipped c, failed c))
        (mk_world (<[resolve (local_path_of out_dir (Key obj)) := File n]> f')
           (net_log w ++
              [DownloadFile bucket (Key obj) (local_path_of out_dir (Key obj))])).

(** ** Transfers *)

(** An object is eligible when its key does not end with the separator. *)
Definition eligible (o : s3obj) : bool := negb (endswith (Key o) "/").

Definition eligible_count (objects : list s3obj) : Z :=
  Z.of_nat (length (List.filter eligible objects)).


(** A store that holds the listed objects, a network without faults. *)
Definition quiet_env (contents : list s3obj) : environment :=
  {| bucket_contents := λ _, contents;
     net_fault := λ _, None;
     cred_reply := NoReply;
     getenv := λ _, None;
     dir_size := 4096;
     human_size_fault := λ _, None |}.

Definition empty_world : world := mk_world ∅ [].

(** *** Second run *)





(** A path or a key whose components are names: none of them is [.] or
    [..], which the operating system takes for the directory itself and for
    the one above. *)
Definition plain (p : string) : bool :=
  forallb (λ c, negb (String.eqb c ".") && negb (String.eqb c ".."))
    (split slash p).

(** The output directory is plain, and so is the key of every object that
    the loop handles: two of their local paths name one file exactly when
    they resolve to the same components. *)
Definition plain_run (passes_over : string → bool) (out_dir : string)
    (objects : list s3obj) : Prop :=
  plain out_dir = true
  ∧ ∀ o, o ∈ objects → passes_over (Key o) = false → plain (Key o) = true.



(** ** Dates *)

Definition date_max : date := mk_date 9999 12 31.

(** ** Day prefixes *)

(** [d] lies outside [start, end_]. *)
Definition outside (start end_ d : date) : Prop :=
  date_lt d start = true ∨ date_lt end_ d = true.

Definition in_range (start end_ d : date) : Prop :=
  date_le start d = true ∧ date_le d end_ = true.

(** The part of a day prefix that names the day, in the layout of
    [load_optimizely_decisions_v2.py] and in that of
    [extract_optimizely_s3.py]. *)
Definition date_tag (d : date) : string := "date=" +:+ isoformat d +:+ "/".

Definition ymd_tag (d : date) : string :=
  fmt04 (year d) +:+ "/" +:+ fmt02 (month d) +:+ "/" +:+ fmt02 (day d) +:+ "/".

Definition no_fault (env : environment) : Prop := ∀ n, net_fault env n = None.

(** ** The end of a run *)


Definition credentials_request : event := HttpGetCredentials V2.OPTLY_CRED_URL.

(** How a run ends before it has collected anything: by [sys.exit(msg)], or
    by the [RuntimeError] of the credentials exchange. *)
Definition early_end (r : result unit) : Prop :=
  ∃ msg, r = Raise (SystemExit 1 msg) ∨ r = Raise (RuntimeError msg).

(** * Notions used in the further properties *)

(** ** Transfers *)

(** What a run of the transfer loop may have done to the file system:
    every directory is still there, every file is still a file, a file that
    is not the local file of a handled object is as it was, and a file that
    has appeared or changed is the local file of a handled object, with the
    size the object has in the store. *)
Definition wrote_only (env : environment) (passes_over : string → bool)
    (bucket out_dir : string) (objects : list s3obj) (w w' : world) : Prop :=
  (∀ p, fs w !! p = Some Dir → fs w' !! p = Some Dir)
  ∧ (∀ p n, fs w !! p = Some (File n) → ∃ m, fs w' !! p = Some (File m))
  ∧ (∀ p n, fs w !! p = Some (File n) →
            (∀ o, o ∈ objects → passes_over (Key o) = false →
                  resolve (local_path_of out_dir (Key o)) ≠ p) →
            fs w' !! p = Some (File n))
  ∧ (∀ p n, fs w' !! p = Some (File n) →
            fs w !! p = Some (File n)
            ∨ ∃ o, o ∈ objects ∧ passes_over (Key o) = false
                   ∧ resolve (local_path_of out_dir (Key o)) = p
                   ∧ remote_size env bucket (Key o) = Some n).

(** The request to download a handled object to its local path. *)
Definition download_of (passes_over : string → bool) (bucket out_dir : string)
    (objects : list s3obj) (e : event) : Prop :=
  ∃ o, o ∈ objects ∧ passes_over (Key o) = false
       ∧ e = DownloadFile bucket (Key o) (local_path_of out_dir (Key o)).


(** ** Failing load jobs *)

(** Job [k] is the first load job that the warehouse fails. *)
Definition first_failure (wh : Gcs.warehouse) (k : nat) : Prop :=
  Gcs.job_fails wh k = true ∧ ∀ j, (j < k)%nat → Gcs.job_fails wh j = false.

(** A warehouse that fails the job of the given number only. *)
Definition fails_only (k : nat) : Gcs.warehouse :=
  {| Gcs.job_fails := λ j, Nat.eqb j k |}.

(** ** Prefixes *)

(** The values that the command line lets through for [--type]. *)
Definition type_choices : list string := ["decisions"; "events"; "decisions-rerun"].

(** A text of one decimal digit or more. *)
Definition digits (n : string) : bool :=
  truthy n && forallb is_digit (list_ascii_of_string n).

(** The prefix that [compute_bucket_and_prefix] builds from an account base. *)
Definition typed_prefix (account_base partition_type : string) : string :=
  account_base +:+ "type=" +:+ partition_type +:+ "/".

Definition no_account_base : exn :=
  RuntimeError "Cannot determine account base prefix. Provide --prefix or --account-id, or use --auth optimizely to infer from s3Path.".

(** ** Collection *)

(** The key of the marker object of a day. *)
Definition marker_key (prefix : string) (d : date) : string :=
  V2.date_prefix_of prefix d +:+ "_SUCCESS".

(** The marker object of the day is in the bucket. *)
Definition has_marker (env : environment) (bucket prefix : string) (d : date) : bool :=
  match remote_size env bucket (marker_key prefix d) with
  | Some _ => true
  | None => false
  end.

(** The Parquet objects of the bucket under the prefix of the day, in
    listing order. *)
Definition day_parquet (env : environment) (bucket prefix : string) (d : date)
    : list s3obj :=
  List.filter (λ o, endswith (Key o) ".parquet")
    (List.filter (λ o, startswith (Key o) (V2.date_prefix_of prefix d))
       (bucket_contents env bucket)).

(** What the collection takes of a day when every request gets through. *)
Definition day_taken (env : environment) (bucket prefix : string)
    (require_success : bool) (d : date) : list s3obj :=
  if require_success && negb (has_marker env bucket prefix d) then []
  else day_parquet env bucket prefix d.

(** ** Runs of [main] *)

Definition is_download (e : event) : bool :=
  match e with
  | DownloadFile _ _ _ => true
  | _ => false
  end.

(** Requests that are not downloads, added to the log; the file system as
    it was. *)
Definition probes_only (w w' : world) : Prop :=
  fs w' = fs w
  ∧ ∃ L, net_log w' = net_log w ++ L ∧ Forall (λ e, is_download e = false) L.

(** The test of the loop written out in [main] of
    [load_optimizely_decisions_v2.py]: [key.endswith("/") or not key]. *)
Definition passed_inline (key : string) : bool :=
  endswith key "/" || negb (truthy key).


(** [main] of [load_optimizely_decisions_v2.py] from the day loop on, once
    the dates, the client, the bucket and the prefix are there. *)
Definition main_from_day_loop (env : environment) (a : V2.args)
    (bucket prefix : string) (start end_ : date) : M world unit :=
  do all_objects <- V2.collect env bucket prefix (V2.require_success a) start end_;
  if is_nil all_objects then sys_exit 0
  else
    let all_objects := sort_by_key all_objects in
    lift_result (V2.human_size env (total_bytes all_objects)) ;;
    do c <- V2.transfer_inline env bucket all_objects (V2.out_dir a) (V2.dry_run a);
    let '(ok, skipped, failed) := c in
    if 0 <? failed then sys_exit 2 else ret tt.

(** A run under [--auth aws] over a store without faults, with the
    credentials in the environment. *)
Definition aws_env (contents : list s3obj) : environment :=
  {| bucket_contents := λ _, contents;
     net_fault := λ _, None;
     cred_reply := NoReply;
     getenv := λ name, if String.eqb name "S3_BUCKET" then None else Some "secret";
     dir_size := 4096;
     human_size_fault := λ _, None |}.

Definition aws_args (prefix start_date end_date : string) (dry_run : bool) : V2.args :=
  {| V2.auth := "aws"; V2.pat := None; V2.bucket := None;
     V2.prefix := Some prefix; V2.account_id := None;
     V2.partition_type := "decisions"; V2.out_dir := "downloads";
     V2.start_date := start_date; V2.end_date := end_date;
     V2.dry_run := dry_run; V2.require_success := true |}.

Definition two_days : list s3obj :=
  [mk_obj "p/type=decisions/date=2024-10-30/_SUCCESS" 0;
   mk_obj "p/type=decisions/date=2024-10-30/part-0.parquet" 10;
   mk_obj "p/type=decisions/date=2024-10-31/part-0.parquet" 20;
   mk_obj "p/type=decisions/date=2024-11-01/_SUCCESS" 0;
   mk_obj "p/type=decisions/date=2024-11-01/part-0.parquet" 30].

(** ** The collection of [extract_optimizely_s3.py] *)

(** The objects of the bucket whose key starts with the prefix, in listing
    order. *)
Definition under (env : environment) (bucket prefix : string) : list s3obj :=
  List.filter (λ o, startswith (Key o) prefix) (bucket_contents env bucket).

(** [args.prefix if args.prefix else ""]. *)
Definition extract_prefix (a : Extract.args) : string :=
  if truthy (Extract.prefix a) then Extract.prefix a else "".

(** What [main] of [extract_optimizely_s3.py] collects when every request
    gets through: the objects of the day folders when there is something
    under the folder of the first day and no full scan is forced, or else
    the objects under the prefix whose key passes the date heuristic. *)
Definition extract_taken (env : environment) (a : Extract.args)
    (start end_ : date) : list s3obj :=
  if Extract.force_scan a
     || is_nil (under env (Extract.bucket a)
                  (Extract.ymd_path_for (extract_prefix a) start))
  then List.filter (λ o, key_has_date_in_range (Key o) start end_)
         (under env (Extract.bucket a) (extract_prefix a))
  else flat_map (λ d, under env (Extract.bucket a)
                        (Extract.ymd_path_for (extract_prefix a) d))
         (fst (daterange start end_)).

(** ** Staging *)

Definition is_upload (e : Stage.cloud_event) : bool :=
  match e with
  | Stage.UploadFromFilename _ _ _ => true
  | _ => false
  end.

(** No request of the run meets a fault. *)
Definition quiet_cloud (env : Stage.stage_env) : Prop :=
  ∀ n, Stage.cloud_fault env n = None.

(** The blob of the file is in the bucket, with the size of the file. *)
Definition staged (w : Stage.cloud) (bucket gcs_prefix : string)
    (f : Stage.local_file) : Prop :=
  Stage.blobs w !! (bucket, Stage.gcs_key_of gcs_prefix f) = Some (Stage.st_size f).

(** The files go to different blobs. *)
Definition keys_apart (gcs_prefix : string) (files : list Stage.local_file) : Prop :=
  NoDup (Stage.gcs_key_of gcs_prefix <$> files).

(** What a round of requests may do: buckets, datasets and warehouse as
    they were, requests added to the log. *)
Definition staging_only (w w' : Stage.cloud) : Prop :=
  Stage.buckets w' = Stage.buckets w
  ∧ Stage.datasets w' = Stage.datasets w
  ∧ Stage.bq w' = Stage.bq w
  ∧ ∃ L, Stage.cloud_log w' = Stage.cloud_log w ++ L.

Definition empty_cloud : Stage.cloud :=
  Stage.mk_cloud ∅ ∅ ∅ [] bq_start.

(** A run in which nothing goes wrong on the side of the cloud. *)
Definition quiet_stage (files : list Stage.local_file) : Stage.stage_env :=
  {| Stage.client_error := None;
     Stage.dataset_ref_error := None;
     Stage.cloud_fault := λ _, None;
     Stage.local_root_exists := true;
     Stage.local_parquet := files;
     Stage.load_warehouse := all_jobs_succeed |}.

Definition sample_config : Stage.config :=
  {| Stage.PROJECT_ID := "project"; Stage.LOCAL_DIR := "downloads";
     Stage.GCS_BUCKET := "bucket"; Stage.GCS_PREFIX := "events/";
     Stage.BQ_DATASET := "optimizely_e3";
     Stage.BQ_TABLE_RAW := "event_data_with_user_agents";
     Stage.LOCATION := "EU" |}.

(** * Properties *)

(** ** Strings *)

Section StringFacts.

Lemma endswith_refl s : endswith s s = true.
Proof. destruct s; cbn [endswith]; rewrite String.eqb_refl; reflexivity. Qed.

Lemma endswith_cons c s suf :
  endswith s suf = true → endswith (String c s) suf = true.
Proof.
  intros H. cbn [endswith]. destruct (String.eqb (String c s) suf); [reflexivity | exact H].
Qed.

Lemma endswith_unfold s suf :
  endswith s suf = true →
  s = suf ∨ ∃ c r, s = String c r ∧ endswith r suf = true.
Proof.
  destruct s as [|c r]; cbn [endswith].
  - destruct (String.eqb_spec "" suf); [auto | discriminate].
  - destruct (String.eqb_spec (String c r) suf); [auto | eauto].
Qed.

(** [endswith] is the suffix relation. *)
Lemma endswith_spec s suf :
  endswith s suf = true ↔ ∃ pre, s = pre +:+ suf.
Proof.
  split.
  - induction s as [|c r IH]; intros H; apply endswith_unfold in H.
    + destruct H as [->|(? & ? & ? & _)]; [exists ""; reflexivity | discriminate].
    + destruct H as [->|(c' & r' & E & H)]; [exists ""; reflexivity|].
      injection E as <- <-. destruct (IH H) as [pre ->].
      exists (String c pre). reflexivity.
  - intros [pre ->]. induction pre as [|c pre IH]; simpl String.append.
    + apply endswith_refl.
    + apply endswith_cons, IH.
Qed.

Lemma endswith_app a b : endswith (a +:+ b) b = true.
Proof. apply endswith_spec. eauto. Qed.

Lemma append_assoc (a b c : string) : (a +:+ b) +:+ c = a +:+ (b +:+ c).
Proof. induction a; simpl; congruence. Qed.

Lemma endswith_trans s t u :
  endswith s t = true → endswith t u = true → endswith s u = true.
Proof.
  rewrite !endswith_spec. intros [p ->] [q ->].
  exists (p +:+ q). symmetry. apply append_assoc.
Qed.

Lemma endswith_length s suf :
  endswith s suf = true → (String.length suf ≤ String.length s)%nat.
Proof.
  induction s as [|c r IH]; intros H; apply endswith_unfold in H.
  - destruct H as [<-|(? & ? & ? & _)]; [simpl; lia | discriminate].
  - destruct H as [<-|(c' & r' & E & H)]; [lia|].
    injection E as <- <-. specialize (IH H). simpl. lia.
Qed.

(** Two suffixes of one text: the shorter is a suffix of the longer. *)
Lemma endswith_both s a b :
  endswith s a = true → endswith s b = true →
  (String.length a ≤ String.length b)%nat → endswith b a = true.
Proof.
  induction s as [|c r IH]; intros Ha Hb Hlen.
  - apply endswith_unfold in Ha, Hb.
    destruct Ha as [<-|(? & ? & ? & _)]; [|discriminate].
    destruct Hb as [<-|(? & ? & ? & _)]; [reflexivity | discriminate].
  - pose proof Ha as Ha0.
    apply endswith_unfold in Ha, Hb.
    destruct Hb as [<-|(c2 & r2 & E2 & Hb)]; [exact Ha0|].
    injection E2 as <- <-.
    destruct Ha as [<-|(c1 & r1 & E1 & Ha)].
    + apply endswith_length in Hb. simpl in Hlen. lia.
    + injection E1 as <- <-. apply IH; assumption.
Qed.

Lemma endswith_slash_idem s :
  endswith (if endswith s "/" then s else s +:+ "/") "/" = true.
Proof.
  destruct (endswith s "/") eqn:E; [exact E | apply endswith_app].
Qed.

Lemma append_nil_r (s : string) : s +:+ "" = s.
Proof. induction s; simpl; congruence. Qed.

Lemma append_length (a b : string) :
  String.length (a +:+ b) = (String.length a + String.length b)%nat.
Proof. induction a; simpl; congruence. Qed.

Lemma startswith_spec s p : startswith s p = true ↔ ∃ rest, s = p +:+ rest.
Proof.
  revert s. induction p as [|c p IH]; intros s; simpl.
  - split; [intros _; exists s; reflexivity | intros _; reflexivity].
  - destruct s as [|c' s]; [split; [discriminate | intros [? ?]; discriminate]|].
    rewrite andb_true_iff, Ascii.eqb_eq, IH.
    split.
    + intros [-> [rest ->]]. exists rest. reflexivity.
    + intros [rest E]. injection E as -> ->. eauto.
Qed.

Lemma append_inj_l (a b c : string) : a +:+ b = a +:+ c → b = c.
Proof. induction a; simpl; intros H; [exact H | injection H; auto]. Qed.

(** Two prefixes of one text that have the same length are equal. *)
Lemma append_same_length (a b x y : string) :
  a +:+ x = b +:+ y → String.length a = String.length b → a = b.
Proof.
  revert b. induction a as [|c a IH]; intros [|c' b] H L; simpl in *;
    try discriminate; [reflexivity|].
  injection H as -> H. f_equal. apply IH; [exact H | lia].
Qed.

End StringFacts.

(** ** Partition Locator: the type markers *)

Section Markers.

Lemma rerun_is_not_decisions p :
  endswith p "type=decisions-rerun/" = true → endswith p "type=decisions/" = false.
Proof.
  intros H. destruct (endswith p "type=decisions/") eqn:E; [|reflexivity].
  pose proof (endswith_both p "type=decisions/" "type=decisions-rerun/" E H) as C.
  simpl String.length in C. specialize (C ltac:(lia)).
  vm_compute in C. discriminate.
Qed.

Lemma rerun_is_not_events p :
  endswith p "type=decisions-rerun/" = true → endswith p "type=events/" = false.
Proof.
  intros H. destruct (endswith p "type=events/") eqn:E; [|reflexivity].
  pose proof (endswith_both p "type=events/" "type=decisions-rerun/" E H) as C.
  simpl String.length in C. specialize (C ltac:(lia)).
  vm_compute in C. discriminate.
Qed.

Lemma events_is_not_decisions p :
  endswith p "type=events/" = true →
  endswith p "type=decisions/" = false ∧ endswith p "type=decisions-rerun/" = false.
Proof.
  intros H. split.
  - destruct (endswith p "type=decisions/") eqn:E; [|reflexivity].
    pose proof (endswith_both p "type=events/" "type=decisions/" H E) as C.
    simpl String.length in C. specialize (C ltac:(lia)).
    vm_compute in C. discriminate.
  - destruct (endswith p "type=decisions-rerun/") eqn:E; [|reflexivity].
    pose proof (endswith_both p "type=events/" "type=decisions-rerun/" H E) as C.
    simpl String.length in C. specialize (C ltac:(lia)).
    vm_compute in C. discriminate.
Qed.

Lemma marker_ends_with_slash p :
  existsb (endswith p) acceptable = true → endswith p "/" = true.
Proof.
  unfold acceptable. simpl. rewrite !orb_true_iff.
  intros [H|[H|[H|H]]]; try discriminate;
    eapply endswith_trans; try exact H; reflexivity.
Qed.

(** [validate_prefix_endswith] returns exactly on these prefixes. *)
Lemma validate_ok_iff prefix partition_type :
  V2.validate_prefix_endswith prefix partition_type = Ok tt ↔
  existsb (endswith prefix) acceptable = true
  ∧ (partition_type = "events" → endswith prefix "type=events/" = true)
  ∧ (partition_type = "decisions" →
       endswith prefix "type=decisions/" = true
       ∨ endswith prefix "type=decisions-rerun/" = true).
Proof.
  unfold V2.validate_prefix_endswith. fold acceptable.
  destruct (existsb (endswith prefix) acceptable) eqn:Ha; simpl.
  2: { split; [discriminate | intros [? _]; discriminate]. }
  destruct (String.eqb_spec partition_type "events") as [->|Hne]; simpl.
  - destruct (endswith prefix "type=events/") eqn:He; simpl.
    + split; [|reflexivity]. intros _. repeat split; auto; try discriminate.
    + split; [discriminate|]. intros (_ & H & _). specialize (H eq_refl). discriminate.
  - destruct (String.eqb_spec partition_type "decisions") as [->|Hnd]; simpl.
    + destruct (endswith prefix "type=decisions/") eqn:Hd; simpl.
      * split; [|reflexivity]. intros _. repeat split; auto; try discriminate.
      * destruct (endswith prefix "type=decisions-rerun/") eqn:Hr; simpl.
        -- split; [|reflexivity]. intros _. repeat split; auto; try discriminate.
        -- split; [discriminate|]. intros (_ & _ & H).
           destruct (H eq_refl); discriminate.
    + split; [|reflexivity]. intros _. repeat split; auto; intros; congruence.
Qed.

(** What the claim asks of the decisions-rerun marker holds of
    [validate_prefix_endswith]. *)
Lemma validate_accepts_rerun base :
  endswith (with_slash base) "type=decisions-rerun/" = true →
  V2.validate_prefix_endswith (with_slash base) "decisions" = Ok tt.
Proof.
  intros H. apply validate_ok_iff. repeat split.
  - unfold acceptable. simpl. rewrite H. rewrite !orb_true_r. reflexivity.
  - discriminate.
  - auto.
Qed.

Lemma validate_rejects_events_for_decisions base :
  endswith (with_slash base) "type=events/" = true →
  ∃ msg, V2.validate_prefix_endswith (with_slash base) "decisions" = Raise (ValueError msg).
Proof.
  intros H. destruct (events_is_not_decisions _ H) as [Hd Hr].
  unfold V2.validate_prefix_endswith. simpl. rewrite H, Hd, Hr. simpl. eauto.
Qed.

Lemma validate_rejects_unmarked base partition_type :
  existsb (endswith (with_slash base)) acceptable = false →
  ∃ msg, V2.validate_prefix_endswith (with_slash base) partition_type
         = Raise (ValueError msg).
Proof.
  intros H. unfold V2.validate_prefix_endswith. fold acceptable.
  rewrite H. simpl. eauto.
Qed.

Lemma validate_cases p t :
  (V2.validate_prefix_endswith p t = Ok tt
   ∧ endswith p "/" = true ∧ existsb (endswith p) acceptable = true)
  ∨ ∃ msg, V2.validate_prefix_endswith p t = Raise (ValueError msg).
Proof.
  destruct (V2.validate_prefix_endswith p t) as [[]|e] eqn:E.
  - left. pose proof (proj1 (validate_ok_iff p t) E) as (Hm & _).
    auto using marker_ends_with_slash.
  - right. unfold V2.validate_prefix_endswith in E.
    repeat match type of E with
           | (if ?c then _ else _) = _ => destruct c
           end; inversion E; eauto.
Qed.

End Markers.

(** C5.  The Partition Locator that runs, that of
    [load_optimizely_decisions_v2.py], does what the claim says.  A
    [--prefix] that ends, once made to end with a separator, with the
    decisions-rerun marker passes [validate_prefix_endswith] for the type
    "decisions": [compute_bucket_and_prefix] returns it, and the prefix of a
    day is this prefix followed by [date=YYYY-MM-DD/].  A prefix that ends
    with the events marker is refused by [ValueError] for the type
    "decisions", and a prefix that ends with none of the three markers is
    refused by [ValueError] for every type.  ([build_date_prefix] of
    [load_optimizely_decisions.py] is in a file that Python refuses for its
    indentation: it is never called.) *)
Theorem rerun_prefix_locates_partition (env : environment) (a : V2.args)
    (hint : option string) (base : string) (d : date) :
  V2.prefix a = Some base → truthy base = true →
  (V2.partition_type a = "decisions" →
   endswith (with_slash base) "type=decisions-rerun/" = true →
   V2.validate_prefix_endswith (with_slash base) "decisions" = Ok tt
   ∧ V2.compute_bucket_and_prefix env a hint
     = Ok (or_else (V2.bucket a) (V2.DEFAULT_BUCKET env), with_slash base)
   ∧ V2.date_prefix_of (with_slash base) d
     = with_slash base +:+ "date=" +:+ isoformat d +:+ "/")
  ∧ (V2.partition_type a = "decisions" →
     endswith (with_slash base) "type=events/" = true →
     ∃ msg, V2.validate_prefix_endswith (with_slash base) "decisions"
            = Raise (ValueError msg)
            ∧ V2.compute_bucket_and_prefix env a hint = Raise (ValueError msg))
  ∧ (existsb (endswith (with_slash base)) acceptable = false →
     ∃ msg, V2.validate_prefix_endswith (with_slash base) (V2.partition_type a)
            = Raise (ValueError msg)
            ∧ V2.compute_bucket_and_prefix env a hint = Raise (ValueError msg)).
Proof.
  intros Hp Ht.
  assert (Hc : V2.compute_bucket_and_prefix env a hint
               = match V2.validate_prefix_endswith (with_slash base)
                         (V2.partition_type a) with
                 | Raise e => Raise e
                 | Ok _ => Ok (or_else (V2.bucket a) (V2.DEFAULT_BUCKET env),
                               with_slash base)
                 end).
  { unfold V2.compute_bucket_and_prefix. rewrite Hp.
    cbn [truthy_opt from_option]. unfold id. rewrite Ht. reflexivity. }
  rewrite Hc. split; [|split].
  - intros -> H. rewrite (validate_accepts_rerun base H). auto.
  - intros -> H. destruct (validate_rejects_events_for_decisions base H) as [msg E].
    exists msg. rewrite E. auto.
  - intros H.
    destruct (validate_rejects_unmarked base (V2.partition_type a) H) as [msg E].
    exists msg. rewrite E. auto.
Qed.

Lemma rerun_prefix_locates_partition_witness :
  let a := {| V2.auth := "aws"; V2.pat := None; V2.bucket := None;
              V2.prefix := Some "v1/account_id=1/type=decisions-rerun";
              V2.account_id := None; V2.partition_type := "decisions";
              V2.out_dir := "downloads";
              V2.start_date := "2024-10-30"; V2.end_date := "2024-10-31";
              V2.dry_run := false; V2.require_success := true |} in
  V2.validate_prefix_endswith "v1/account_id=1/type=decisions-rerun/" "decisions" = Ok tt
  ∧ V2.compute_bucket_and_prefix (quiet_env []) a None
    = Ok ("optimizely-events-data", "v1/account_id=1/type=decisions-rerun/")
  ∧ V2.date_prefix_of "v1/account_id=1/type=decisions-rerun/" (mk_date 2024 10 30)
    = "v1/account_id=1/type=decisions-rerun/date=2024-10-30/".
Proof.
  intros a.
  exact (proj1 (rerun_prefix_locates_partition (quiet_env []) a None
                  "v1/account_id=1/type=decisions-rerun" (mk_date 2024 10 30)
                  eq_refl eq_refl) eq_refl eq_refl).
Defined.

(** C9.  Whatever [compute_bucket_and_prefix] returns ends with a separator
    and with one of the type markers, and passes
    [validate_prefix_endswith] for the requested partition type; when it does
    not return such a pair it raises [ValueError] or [RuntimeError]. *)
Theorem compute_bucket_and_prefix_conforms (env : environment) (a : V2.args)
    (s3_path_hint : option string) :
  match V2.compute_bucket_and_prefix env a s3_path_hint with
  | Ok (bucket, prefix) =>
      endswith prefix "/" = true
      ∧ existsb (endswith prefix) acceptable = true
      ∧ V2.validate_prefix_endswith prefix (V2.partition_type a) = Ok tt
  | Raise e => ∃ msg, e = ValueError msg ∨ e = RuntimeError msg
  end.
Proof.
  unfold V2.compute_bucket_and_prefix.
  destruct (truthy_opt (V2.prefix a)).
  - match goal with |- context [V2.validate_prefix_endswith ?p ?t] =>
      destruct (validate_cases p t) as [(E & ? & ?)|[msg E]]; rewrite E end;
      eauto.
  - cbv zeta.
    match goal with |- context [if negb (truthy_opt ?ab) then _ else _] =>
      destruct (negb (truthy_opt ab)) end; [eauto|].
    match goal with |- context [V2.validate_prefix_endswith ?p ?t] =>
      destruct (validate_cases p t) as [(E & ? & ?)|[msg E]]; rewrite E end;
      eauto.
Qed.

(** ** Partition Completeness Check *)

Lemma fault_is_Exception (x : fault) : is_Exception (exn_of_fault x) = true.
Proof. destruct x; reflexivity. Qed.

(** C7.  [success_marker_exists] always returns: [true] exactly when the
    metadata probe of the marker object [date_prefix + "_SUCCESS"] succeeds,
    [false] when the probe fails, whatever the failure (no such object or a
    fault of the request).  The probe is its only effect. *)
Theorem success_marker_exists_never_raises (env : environment)
    (bucket date_prefix : string) (w : world) :
  let key := date_prefix +:+ "_SUCCESS" in
  let probe := head_object env bucket key w in
  ∃ b : bool,
    success_marker_exists env bucket date_prefix w = (Ok b, snd probe)
    ∧ (b = true ↔ fst probe = Ok tt)
    ∧ (b = false ↔ ∃ e, fst probe = Raise e)
    ∧ fs (snd probe) = fs w
    ∧ net_log (snd probe) = net_log w ++ [HeadObject bucket key].
Proof.
  intros key probe. subst probe.
  unfold success_marker_exists, try_except, head_object, bind, request, raise, ret.
  fold key.
  destruct (net_fault env (length (net_log w))) as [x|] eqn:Hf.
  - rewrite fault_is_Exception. exists false. simpl.
    repeat split; try discriminate; eauto.
  - destruct (remote_size env bucket key) as [n|]; simpl.
    + exists true. repeat split; try discriminate; auto.
      intros [e He]. discriminate.
    + exists false. repeat split; try discriminate; eauto.
Qed.

(** ** Batch Loader *)

Section Batches.
Import Gcs.

Context {A : Type}.
Implicit Types (lst : list A) (i n : Z).

Lemma ceil_div_step (m n : Z) :
  0 < n → 0 < m → ceil_div m n = 1 + ceil_div (Z.max 0 (m - n)) n.
Proof.
  intros Hn Hm. unfold ceil_div.
  destruct (Z.le_gt_cases n m) as [Hle|Hgt].
  - rewrite Z.max_r by lia.
    replace (m + n - 1) with ((m - n + n - 1) + 1 * n) by lia.
    rewrite Z.div_add by lia. lia.
  - rewrite Z.max_l by lia.
    rewrite (Z.div_small (0 + n - 1) n) by lia.
    symmetry. apply Z.div_unique with (r := m - 1); lia.
Qed.

Lemma ceil_div_zero (n : Z) : 0 < n → ceil_div 0 n = 0.
Proof. intros Hn. unfold ceil_div. apply Z.div_small. lia. Qed.

(** The chunks from index [i] on, when the loop may run long enough. *)
Lemma chunks_from_spec (fuel : nat) lst i n :
  0 < n → 0 ≤ i → Z.of_nat (length lst) - i ≤ Z.of_nat fuel →
  concat (chunks_from fuel lst i n) = drop (Z.to_nat i) lst
  ∧ Forall (λ b, (0 < length b)%nat ∧ Z.of_nat (length b) ≤ n)
           (chunks_from fuel lst i n)
  ∧ Z.of_nat (length (chunks_from fuel lst i n))
    = ceil_div (Z.max 0 (Z.of_nat (length lst) - i)) n.
Proof.
  intros Hn. revert i. induction fuel as [|fuel IH]; intros i Hi Hfuel.
  - simpl. rewrite drop_ge by lia.
    rewrite Z.max_l by lia. rewrite ceil_div_zero by lia. auto.
  - cbn [chunks_from]. destruct (Z.ltb_spec i (Z.of_nat (length lst))) as [Hlt|Hge].
    + destruct (IH (i + n)) as (Hc & Hf & Hl); [lia | lia |].
      cbn [concat length]. rewrite Hc. unfold slice.
      repeat split.
      * replace (Z.to_nat (i + n)) with (Z.to_nat i + Z.to_nat n)%nat by lia.
        rewrite <- drop_drop. apply take_drop.
      * constructor; [|exact Hf].
        rewrite length_take, length_drop. lia.
      * rewrite Nat2Z.inj_succ, Hl.
        rewrite (ceil_div_step (Z.max 0 (Z.of_nat (length lst) - i)) n) by lia.
        replace (Z.max 0 (Z.of_nat (length lst) - i) - n)
          with (Z.of_nat (length lst) - (i + n)) by lia.
        lia.
    + simpl. rewrite drop_ge by lia.
      rewrite Z.max_l by lia. rewrite ceil_div_zero by lia. auto.
Qed.

(** Chunking: [ceil(N/B)] consecutive chunks of at most [B] elements each,
    none empty, that make up the list. *)
Lemma chunks_spec lst n :
  0 < n →
  ∃ batches, chunks lst n = Ok batches
    ∧ concat batches = lst
    ∧ Forall (λ b, (0 < length b)%nat ∧ Z.of_nat (length b) ≤ n) batches
    ∧ Z.of_nat (length batches) = ceil_div (Z.of_nat (length lst)) n.
Proof.
  intros Hn. unfold chunks.
  destruct (Z.eqb_spec n 0); [lia|]. destruct (Z.ltb_spec n 0); [lia|].
  eexists; split; [reflexivity|].
  destruct (chunks_from_spec (length lst) lst 0 n) as (Hc & Hf & Hl); try lia.
  rewrite Z.sub_0_r, Z.max_r in Hl by lia. auto.
Qed.

End Batches.

Section LoadLogs.
Import Gcs.

Variable wh : warehouse.
Hypothesis no_failure : ∀ job, job_fails wh job = false.

Lemma load_batches_log batches done w :
  ∃ done', load_batches wh batches done w
    = (Ok done', {| bq_log := bq_log w ++ batch_log (bq_jobs w) batches;
                    bq_jobs := (bq_jobs w + length batches)%nat |}).
Proof.
  revert done w. induction batches as [|b rest IH]; intros done w.
  - exists done. destruct w as [l k]. simpl. unfold ret.
    rewrite app_nil_r, Nat.add_0_r. reflexivity.
  - cbn [load_batches]. unfold bind at 1. unfold load_table_from_uri.
    unfold bind at 1. unfold job_result, bind at 1. unfold bq_emit.
    rewrite no_failure. unfold ret at 1. cbn [bq_log bq_jobs].
    destruct (IH (done + Z.of_nat (length b))
                {| bq_log := (bq_log w ++ [LoadFromUri b]) ++ [JobResult (bq_jobs w)];
                   bq_jobs := S (bq_jobs w) |}) as [done' E].
    exists done'. rewrite E. cbn [bq_log bq_jobs batch_log length].
    rewrite <- !app_assoc. simpl. do 2 f_equal. f_equal. lia.
Qed.

Lemma load_files_log files w :
  LocalV2.load_parquet_to_bq wh files w
  = (Ok tt, {| bq_log := bq_log w ++ file_log (bq_jobs w) files;
               bq_jobs := (bq_jobs w + length files)%nat |}).
Proof.
  revert w. induction files as [|f rest IH]; intros w.
  - destruct w as [l k]. simpl. unfold ret.
    rewrite app_nil_r, Nat.add_0_r. reflexivity.
  - cbn [LocalV2.load_parquet_to_bq]. unfold bind at 1.
    unfold LocalV2.load_table_from_file.
    unfold bind at 1. unfold job_result, bind at 1. unfold bq_emit.
    rewrite no_failure. unfold ret at 1. cbn [bq_log bq_jobs].
    rewrite IH. cbn [bq_log bq_jobs file_log length].
    rewrite <- !app_assoc. simpl. do 2 f_equal. f_equal. lia.
Qed.

Lemma file_log_app k a b :
  file_log k (a ++ b) = file_log k a ++ file_log (k + length a) b.
Proof.
  revert k. induction a as [|x a IH]; intros k; simpl.
  - rewrite Nat.add_0_r. reflexivity.
  - rewrite IH. replace (k + S (length a))%nat with (S k + length a)%nat by lia.
    reflexivity.
Qed.

Lemma load_each_log batches w :
  LocalV2.load_each wh batches w
  = (Ok tt, {| bq_log := bq_log w ++ file_log (bq_jobs w) (concat batches);
               bq_jobs := (bq_jobs w + length (concat batches))%nat |}).
Proof.
  revert w. induction batches as [|b rest IH]; intros w.
  - destruct w as [l k]. simpl. unfold ret.
    rewrite app_nil_r, Nat.add_0_r. reflexivity.
  - cbn [LocalV2.load_each]. unfold bind at 1. rewrite load_files_log.
    rewrite IH. cbn [bq_log bq_jobs concat].
    rewrite file_log_app, length_app, <- app_assoc. do 2 f_equal. lia.
Qed.

Lemma load_jobs_batch_log k batches : load_jobs (batch_log k batches) = length batches.
Proof.
  revert k. induction batches as [|b rest IH]; intros k; [reflexivity|].
  unfold load_jobs in *. simpl. rewrite IH. reflexivity.
Qed.

Lemma load_jobs_file_log k files : load_jobs (file_log k files) = length files.
Proof.
  revert k. induction files as [|b rest IH]; intros k; [reflexivity|].
  unfold load_jobs in *. simpl. rewrite IH. reflexivity.
Qed.

End LoadLogs.

(** C4, as the scripts have it.  For a batch size [B > 0] and a warehouse in
    which no load job fails, the list of [N] references is cut into
    [ceil(N/B)] consecutive batches of at most [B] references that make up
    the list.  [stage_and_load_to_bq_gcs.py] submits one load job per batch
    and waits for it before it submits the next one, [ceil(N/B)] jobs in
    all; [stage_and_load_to_bq_local_v2.py] goes through the same batches
    but submits one load job per file, [N] jobs in all, each waited for
    before the next. *)
Theorem batch_loader_jobs (B : Z) (wh : Gcs.warehouse) (uris : list string) :
  0 < B →
  (∀ job, Gcs.job_fails wh job = false) →
  ∃ batches,
    Gcs.chunks uris B = Ok batches
    ∧ Z.of_nat (length batches) = ceil_div (Z.of_nat (length uris)) B
    ∧ Forall (λ b, Z.of_nat (length b) ≤ B) batches
    ∧ concat batches = uris
    ∧ Gcs.load_parquet_to_bq_at B wh uris bq_start
      = (Ok tt, {| Gcs.bq_log := batch_log 0 batches ++ [Gcs.GetTable];
                   Gcs.bq_jobs := length batches |})
    ∧ load_jobs (batch_log 0 batches ++ [Gcs.GetTable]) = length batches
    ∧ LocalV2.main B wh uris bq_start
      = (Ok tt, {| Gcs.bq_log := file_log 0 uris; Gcs.bq_jobs := length uris |})
    ∧ load_jobs (file_log 0 uris) = length uris.
Proof.
  intros HB Hok.
  destruct (chunks_spec uris B HB) as (batches & Hch & Hcat & Hall & Hlen).
  exists batches. repeat split; auto.
  - eapply Forall_impl; [exact Hall|]. simpl. intros b [_ H]. exact H.
  - unfold Gcs.load_parquet_to_bq_at, bind, lift_result. rewrite Hch.
    destruct (load_batches_log wh Hok batches 0 bq_start) as [done' E].
    rewrite E. reflexivity.
  - unfold load_jobs. rewrite List.filter_app, length_app.
    fold (load_jobs (batch_log 0 batches)). rewrite load_jobs_batch_log.
    simpl. lia.
  - unfold LocalV2.main, bind, lift_result. rewrite Hch.
    rewrite (load_each_log wh Hok). rewrite Hcat. reflexivity.
  - apply load_jobs_file_log.
Qed.

Lemma batch_loader_jobs_witness :
  0 < 2 ∧ (∀ job, Gcs.job_fails all_jobs_succeed job = false)
  ∧ ∃ batches,
    Gcs.chunks ["a"; "b"; "c"] 2 = Ok batches
    ∧ Z.of_nat (length batches) = ceil_div (Z.of_nat (length ["a"; "b"; "c"])) 2
    ∧ Forall (λ b, Z.of_nat (length b) ≤ 2) batches
    ∧ concat batches = ["a"; "b"; "c"]
    ∧ Gcs.load_parquet_to_bq_at 2 all_jobs_succeed ["a"; "b"; "c"] bq_start
      = (Ok tt, {| Gcs.bq_log := batch_log 0 batches ++ [Gcs.GetTable];
                   Gcs.bq_jobs := length batches |})
    ∧ load_jobs (batch_log 0 batches ++ [Gcs.GetTable]) = length batches
    ∧ LocalV2.main 2 all_jobs_succeed ["a"; "b"; "c"] bq_start
      = (Ok tt, {| Gcs.bq_log := file_log 0 ["a"; "b"; "c"];
                   Gcs.bq_jobs := length ["a"; "b"; "c"] |})
    ∧ load_jobs (file_log 0 ["a"; "b"; "c"]) = length ["a"; "b"; "c"].
Proof.
  split; [lia|]. split; [reflexivity|].
  apply (batch_loader_jobs 2 all_jobs_succeed ["a"; "b"; "c"]); [lia | reflexivity].
Defined.

(** The claim as it is worded fails on [stage_and_load_to_bq_local_v2.py]:
    two files with a batch size of two are one batch, [ceil(2/2) = 1], but
    two load jobs. *)
Lemma local_v2_one_job_per_file :
  let w := snd (LocalV2.main 2 all_jobs_succeed ["a.parquet"; "b.parquet"] bq_start) in
  Gcs.bq_log w = [Gcs.LoadFromFile "a.parquet"; Gcs.JobResult 0;
                  Gcs.LoadFromFile "b.parquet"; Gcs.JobResult 1]
  ∧ load_jobs (Gcs.bq_log w) = 2%nat
  ∧ ceil_div 2 2 = 1
  ∧ Z.of_nat (load_jobs (Gcs.bq_log w)) ≠ ceil_div 2 2.
Proof. vm_compute. repeat split; congruence. Qed.

(** ** Transfer Executor *)

Section FileSystem.

Implicit Types (f : gmap (list string) node) (pre rest q : list string).

Lemma mkdirs_ok pre rest f f' :
  mkdirs pre rest f = Ok f' →
  (∀ q, q ≠ [] → q `prefix_of` rest → f' !! (pre ++ q) = Some Dir)
  ∧ (∀ p x, f !! p = Some x → f' !! p = Some x)
  ∧ (∀ p n, f' !! p = Some (File n) → f !! p = Some (File n)).
Proof.
  revert pre f. induction rest as [|c rest IH]; intros pre f H.
  - injection H as <-. repeat split; auto.
    intros q Hq Hp. apply prefix_nil_inv in Hp. contradiction.
  - cbn [mkdirs] in H.
    destruct (f !! (pre ++ [c])) as [[n|]|] eqn:E; [discriminate| |].
    + destruct (IH _ _ H) as (T & K & N). repeat split; auto.
      intros q Hq [k Hk]. destruct q as [|c' q]; [contradiction|].
      injection Hk as <- ->.
      destruct q as [|c2 q].
      * apply K. exact E.
      * replace (pre ++ c :: c2 :: q) with ((pre ++ [c]) ++ c2 :: q)
          by (rewrite <- app_assoc; reflexivity).
        apply T; [discriminate | eexists; reflexivity].
    + destruct (IH _ _ H) as (T & K & N). repeat split.
      * intros q Hq [k Hk]. destruct q as [|c' q]; [contradiction|].
        injection Hk as <- ->.
        destruct q as [|c2 q].
        -- apply K. apply lookup_insert_eq.
        -- replace (pre ++ c :: c2 :: q) with ((pre ++ [c]) ++ c2 :: q)
             by (rewrite <- app_assoc; reflexivity).
           apply T; [discriminate | eexists; reflexivity].
      * intros p x Hp. apply K. rewrite lookup_insert_ne; [exact Hp|].
        intros <-. congruence.
      * intros p n Hp. specialize (N p n Hp).
        rewrite lookup_insert in N. destruct (decide (pre ++ [c] = p)); [discriminate | exact N].
Qed.









End FileSystem.

Section Step.

Variables (env : environment) (passes_over : string → bool).
Variables (human_size : Z → result unit).
Variables (bucket out_dir : string) (dry_run : bool).

Let step := transfer_one env passes_over human_size bucket out_dir dry_run.

Lemma write_file_cases p n w r w' :
  write_file p n w = (r, w') →
  (∃ e, r = Raise e ∧ is_Exception e = true ∧ w' = w)
  ∨ (r = Ok tt ∧ resolve p ≠ [] ∧ fs w !! resolve p ≠ Some Dir
     ∧ w' = mk_world (<[resolve p := File n]> (fs w)) (net_log w)).
Proof.
  unfold write_file. intros H.
  destruct (resolve p) as [|c t] eqn:Et.
  { injection H as <- <-. left. eexists. repeat split. }
  destruct (fs w !! (c :: t)) as [[m|]|] eqn:El.
  2: { injection H as <- <-. left. eexists. repeat split. }
  all: destruct (removelast (c :: t)) as [|c' t'];
    [ injection H as <- <-; right; repeat split; congruence |].
  all: destruct (fs w !! (c' :: t')) as [[m'|]|];
    injection H as <- <-;
    first [ right; repeat split; congruence | left; eexists; repeat split ].
Qed.

Lemma skip_test_eq {B} p size (k : bool → M world B) w :
  (do there <- path_exists p;
   do same <- (if there then do n <- getsize env p; ret (n =? size)
               else ret false);
   k same) w
  = k (settled_b env (fs w) p size) w.
Proof.
  unfold bind, path_exists, getsize, ret, settled_b.
  destruct (node_at (fs w) p) as [[n|]|] eqn:E.
  - rewrite bool_decide_eq_true_2 by eauto. rewrite E. reflexivity.
  - rewrite bool_decide_eq_true_2 by eauto. rewrite E. reflexivity.
  - rewrite bool_decide_eq_false_2 by (intros [? ?]; discriminate). reflexivity.
Qed.

Lemma ensure_local_path_eq {B} key (k : string → M world B) w :
  (do local_path <- ensure_local_path out_dir key; k local_path) w
  = let p := local_path_of out_dir key in
    if String.eqb (dirname p) "" then (Raise FileNotFoundError, w)
    else match mkdirs [] (resolve (dirname p)) (fs w) with
         | Ok f' => k p (mk_world f' (net_log w))
         | Raise e => (Raise e, w)
         end.
Proof.
  unfold ensure_local_path, makedirs, bind, ret. cbv zeta.
  destruct (String.eqb (dirname (local_path_of out_dir key)) ""); [reflexivity|].
  destruct (mkdirs [] (resolve (dirname (local_path_of out_dir key))) (fs w));
    reflexivity.
Qed.

Lemma print_eq {B} size (k : M world B) w :
  (lift_result (human_size size) ;; k) w
  = match human_size size with
    | Ok _ => k w
    | Raise e => (Raise e, w)
    end.
Proof. unfold bind, lift_result. destruct (human_size size); reflexivity. Qed.

Lemma download_eq key p (c1 c2 : counts) w :
  try_except (download_file env bucket key p ;; ret c1) (λ _, ret c2) w
  = let w2 := mk_world (fs w) (net_log w ++ [DownloadFile bucket key p]) in
    match net_fault env (length (net_log w)), remote_size env bucket key with
    | None, Some n =>
        match write_file p n w2 with
        | (Ok _, w3) => (Ok c1, w3)
        | (Raise _, w3) => (Ok c2, w3)
        end
    | _, _ => (Ok c2, w2)
    end.
Proof.
  unfold try_except, download_file, bind, request, raise, ret. cbv zeta.
  destruct (net_fault env (length (net_log w))) as [x|].
  { rewrite fault_is_Exception. destruct (remote_size env bucket key); reflexivity. }
  destruct (remote_size env bucket key) as [n|]; [|reflexivity].
  destruct (write_file p n _) as [r w3] eqn:Hw.
  destruct (write_file_cases _ _ _ _ _ Hw) as [(e & -> & Hex & ->)|(-> & _ & _ & ->)].
  - rewrite Hex. reflexivity.
  - reflexivity.
Qed.

Lemma step_cases obj c w :
  step_outcome env passes_over human_size bucket out_dir dry_run obj c w
    (fst (step obj c w)) (snd (step obj c w)).
Proof.
  destruct c as [[ok sk] fl]. unfold step, transfer_one.
  destruct (passes_over (Key obj)) eqn:Hp.
  { apply passed_over. exact Hp. }
  rewrite ensure_local_path_eq. cbv zeta.
  set (p := local_path_of out_dir (Key obj)).
  destruct (String.eqb_spec (dirname p) "") as [He|Hne].
  { apply mkdir_failed; auto. }
  destruct (mkdirs [] (resolve (dirname p)) (fs w)) as [f'|e] eqn:Hm.
  2: { apply mkdir_failed; auto. }
  rewrite skip_test_eq. cbn [fs net_log].
  destruct (settled_b env f' p (Size obj)) eqn:Hset;
    rewrite print_eq;
    (destruct (human_size (Size obj)) as [[]|e] eqn:Hh;
       [|apply print_failed; auto]).
  { apply skipped_one; auto. }
  destruct dry_run eqn:Hdry.
  { apply planned_one; auto. }
  rewrite download_eq. cbv zeta. cbn [fs net_log].
  destruct (net_fault env (length (net_log w))) as [x|].
  { apply failed_one; auto. }
  destruct (remote_size env bucket (Key obj)) as [n|] eqn:Hr.
  2: { apply failed_one; auto. }
  destruct (write_file p n _) as [r w3] eqn:Hw.
  destruct (write_file_cases _ _ _ _ _ Hw) as [(e & -> & Hex & ->)|(-> & Ht & Hl & ->)].
  - apply failed_one; auto.
  - apply fetched_one; auto.
Qed.

Lemma step_inv obj c w r w' :
  step obj c w = (r, w') → step_outcome env passes_over human_size bucket out_dir dry_run obj c w r w'.
Proof.
  intros H. pose proof (step_cases obj c w) as S. rewrite H in S. exact S.
Qed.

(** The loop as a whole, from a property of each round. *)
Lemma loop_inv (I : list s3obj → counts → world → Prop) :
  (∀ obj rest c w c' w',
      I (obj :: rest) c w →
      step_outcome env passes_over human_size bucket out_dir dry_run obj c w (Ok c') w' →
      I rest c' w') →
  ∀ objects c w c' w',
    I objects c w → for_each objects step c w = (Ok c', w') → I [] c' w'.
Proof.
  intros Hstep objects. induction objects as [|obj rest IH]; intros c w c' w' HI H.
  - injection H as <- <-. exact HI.
  - cbn [for_each] in H. unfold bind in H.
    destruct (step obj c w) as [[c1|e] w1] eqn:E; [|discriminate].
    apply step_inv in E. eapply IH; [|exact H]. eapply Hstep; eauto.
Qed.

End Step.

Section TransferLoop.

Variables (env : environment) (passes_over : string → bool).
Variables (human_size : Z → result unit).
Variables (bucket out_dir : string).

Abbreviation lp o := (local_path_of out_dir (Key o)).

Lemma handled_cons obj rest :
  handled passes_over (obj :: rest)
  = (if passes_over (Key obj) then 0 else 1) + handled passes_over rest.
Proof.
  unfold handled. simpl. destruct (passes_over (Key obj)); simpl; lia.
Qed.

(** Every object that is not passed over moves exactly one counter. *)
Lemma transfer_total dry_run objects w c w' :
  transfer env passes_over human_size bucket objects out_dir dry_run w = (Ok c, w') →
  total c = handled passes_over objects
  ∧ 0 ≤ downloaded c ∧ 0 ≤ skipped c ∧ 0 ≤ failed c.
Proof.
  intros H.
  pose (I := λ (rest : list s3obj) (c : counts) (_ : world),
          total c + handled passes_over rest = handled passes_over objects
          ∧ 0 ≤ downloaded c ∧ 0 ≤ skipped c ∧ 0 ≤ failed c).
  assert (HI : I [] c w').
  { eapply (loop_inv env passes_over human_size bucket out_dir dry_run I); [| |exact H].
    - clear. intros obj rest [[ok sk] fl] w c' w' (Ht & ? & ? & ?) S.
      rewrite handled_cons in Ht. unfold I.
      inversion S; subst; cbn [total downloaded skipped failed] in *;
        match goal with Hp : passes_over _ = _ |- _ => rewrite Hp in Ht end; lia.
    - unfold I. simpl. lia. }
  destruct HI as (Ht & ? & ? & ?). unfold handled in Ht at 1. simpl in Ht.
  repeat split; lia.
Qed.

(** *** Dry run *)



(** *** Second run *)











End TransferLoop.

Section SecondRun.

Variables (env : environment) (passes_over : string → bool).
Variables (human_size : Z → result unit).
Variables (bucket out_dir : string) (dry_run : bool).


End SecondRun.



(** *** The three transfer loops *)

Lemma handled_nothing_passed objects :
  handled (λ _, false) objects = Z.of_nat (length objects).
Proof.
  unfold handled. f_equal. f_equal.
  induction objects as [|o rest IH]; simpl in *; congruence.
Qed.

(** When a transfer loop returns, the three counters add up to the number
    of objects it did not pass over: in [load_optimizely_decisions.py] the
    objects whose key does not end with the separator; in the loop of
    [load_optimizely_decisions_v2.py] those whose key, moreover, is not
    empty; in [extract_optimizely_s3.py], which has no test for directory
    markers, all the objects of the list. *)
Lemma transfer_counts (env : environment) (bucket : string)
    (objects : list s3obj) (out_dir : string) (dry_run : bool)
    (w : world) (c : counts) (w' : world) :
  (V1.download_objects env bucket objects out_dir dry_run w = (Ok c, w') →
   downloaded c + skipped c + failed c = eligible_count objects)
  ∧ (V2.transfer_inline env bucket objects out_dir dry_run w = (Ok c, w') →
     downloaded c + skipped c + failed c
     = Z.of_nat (length (List.filter (λ o, eligible o && truthy (Key o)) objects)))
  ∧ (Extract.download_objects env bucket objects out_dir dry_run w = (Ok c, w') →
     downloaded c + skipped c + failed c = Z.of_nat (length objects)).
Proof.
  assert (T : ∀ c : counts, downloaded c + skipped c + failed c = total c)
    by (intros [[? ?] ?]; reflexivity).
  rewrite T. repeat split; intros H.
  - apply transfer_total in H as [H _]. rewrite H. unfold handled, eligible_count.
    reflexivity.
  - apply transfer_total in H as [H _]. rewrite H. unfold handled.
    do 2 f_equal. clear. induction objects as [|o rest IH]; [reflexivity|].
    simpl. rewrite IH. unfold eligible. rewrite negb_orb, negb_involutive. reflexivity.
  - apply transfer_total in H as [H _]. rewrite H. apply handled_nothing_passed.
Qed.

(** On keys that are not empty, as the keys of a store are, the two loops
    that test for directory markers count the eligible objects. *)
Lemma guarded_loops_count_eligible (env : environment) (bucket : string)
    (objects : list s3obj) (out_dir : string) (dry_run : bool)
    (w : world) (c : counts) (w' : world) :
  (∀ o, o ∈ objects → Key o ≠ "") →
  (V1.download_objects env bucket objects out_dir dry_run w = (Ok c, w') →
   downloaded c + skipped c + failed c = eligible_count objects)
  ∧ (V2.transfer_inline env bucket objects out_dir dry_run w = (Ok c, w') →
     downloaded c + skipped c + failed c = eligible_count objects).
Proof.
  intros Hk.
  destruct (transfer_counts env bucket objects out_dir dry_run w c w') as (H1 & H2 & _).
  split; [exact H1|]. intros H. rewrite (H2 H). unfold eligible_count. do 2 f_equal.
  clear -Hk. induction objects as [|o rest IH]; [reflexivity|].
  assert (Ht : truthy (Key o) = true).
  { pose proof (Hk o ltac:(left)) as Hne. destruct (Key o); [congruence | reflexivity]. }
  simpl. rewrite Ht, andb_true_r, IH; [reflexivity|].
  intros x Hx. apply Hk. right. exact Hx.
Qed.

(** C1.  [download_objects] of [extract_optimizely_s3.py] has no test for
    directory markers.  On a list that holds the marker [logs/] alone no
    object is eligible, and yet the loop counts one object: downloaded in a
    dry run, failed in a live run, where the download to the directory that
    [ensure_local_path] has made fails.  The loops of
    [load_optimizely_decisions.py] and [load_optimizely_decisions_v2.py]
    pass over the marker and count nothing. *)
Theorem extract_counts_directory_marker :
  let objects := [mk_obj "logs/" 0] in
  let env := quiet_env objects in
  eligible_count objects = 0
  ∧ fst (Extract.download_objects env "bucket" objects "downloads" true empty_world)
    = Ok (1, 0, 0)
  ∧ fst (Extract.download_objects env "bucket" objects "downloads" false empty_world)
    = Ok (0, 0, 1)
  ∧ fst (V1.download_objects env "bucket" objects "downloads" false empty_world)
    = Ok (0, 0, 0)
  ∧ fst (V2.transfer_inline env "bucket" objects "downloads" false empty_world)
    = Ok (0, 0, 0).
Proof. vm_compute. repeat split; reflexivity. Qed.







(** ** Dates and the day loop *)

Section Calendar.

Implicit Types (a b d x : date).

Lemma days_in_month_bounds y m : 28 ≤ days_in_month y m ≤ 31.
Proof.
  unfold days_in_month.
  destruct (m =? 2); [destruct (is_leap y); lia|].
  destruct ((m =? 4) || (m =? 6) || (m =? 9) || (m =? 11)); lia.
Qed.

Lemma valid_date_spec d :
  valid_date d = true ↔
  1 ≤ year d ≤ 9999 ∧ 1 ≤ month d ≤ 12
  ∧ 1 ≤ day d ≤ days_in_month (year d) (month d).
Proof.
  unfold valid_date, MINYEAR, MAXYEAR.
  rewrite !andb_true_iff, !Z.leb_le. tauto.
Qed.

Lemma date_le_spec a b :
  date_le a b = true ↔
  year a < year b
  ∨ (year a = year b
     ∧ (month a < month b ∨ (month a = month b ∧ day a ≤ day b))).
Proof.
  unfold date_le.
  rewrite !orb_true_iff, !andb_true_iff, !orb_true_iff, !andb_true_iff.
  rewrite !Z.ltb_lt, !Z.eqb_eq, Z.leb_le. tauto.
Qed.

(** On dates, the order is the order of the ranks. *)
Lemma date_le_rank a b :
  valid_date a = true → valid_date b = true →
  (date_le a b = true ↔ day_rank a ≤ day_rank b).
Proof.
  rewrite !valid_date_spec, date_le_spec. unfold day_rank.
  pose proof (days_in_month_bounds (year a) (month a)).
  pose proof (days_in_month_bounds (year b) (month b)).
  intros Ha Hb. split; [lia|]. intros Hr.
  destruct (Z.lt_trichotomy (year a) (year b)) as [?|[?|?]]; [lia| |lia].
  destruct (Z.lt_trichotomy (month a) (month b)) as [?|[?|?]]; lia.
Qed.

Lemma date_lt_rank a b :
  valid_date a = true → valid_date b = true →
  (date_lt a b = true ↔ day_rank a < day_rank b).
Proof.
  intros Ha Hb. unfold date_lt. rewrite negb_true_iff.
  pose proof (date_le_rank b a Hb Ha) as E. split.
  - intros H. destruct (Z.le_gt_cases (day_rank b) (day_rank a)) as [L|L]; [|lia].
    apply E in L. congruence.
  - intros H. destruct (date_le b a) eqn:X; [|reflexivity].
    pose proof (proj1 E eq_refl). lia.
Qed.

Lemma rank_inj a b :
  valid_date a = true → valid_date b = true → day_rank a = day_rank b → a = b.
Proof.
  rewrite !valid_date_spec. unfold day_rank.
  pose proof (days_in_month_bounds (year a) (month a)).
  pose proof (days_in_month_bounds (year b) (month b)).
  destruct a as [ya ma da], b as [yb mb db]. cbn [year month day] in *.
  intros Ha Hb Hr.
  assert (ya = yb) by lia. subst. assert (ma = mb) by lia. subst.
  f_equal. lia.
Qed.

(** The next day of a date is the least date above it. *)
Lemma add_day_ok d d' :
  valid_date d = true → add_day d = Ok d' →
  valid_date d' = true
  ∧ day_rank d < day_rank d'
  ∧ ∀ x, valid_date x = true → day_rank d < day_rank x → day_rank d' ≤ day_rank x.
Proof.
  rewrite !valid_date_spec. unfold add_day, day_rank, MAXYEAR.
  pose proof (days_in_month_bounds (year d) (month d)).
  pose proof (days_in_month_bounds (year d) (month d + 1)).
  pose proof (days_in_month_bounds (year d + 1) 1).
  intros Hd.
  destruct (Z.ltb_spec (day d) (days_in_month (year d) (month d))).
  { intros E. injection E as <-. cbn [year month day]. rewrite ?valid_date_spec.
    cbn [year month day]. repeat split; try lia. }
  destruct (Z.ltb_spec (month d) 12).
  { intros E. injection E as <-. cbn [year month day]. rewrite ?valid_date_spec.
    cbn [year month day]. repeat split; try lia.
    intros x. rewrite valid_date_spec. intros Hx Hr.
    pose proof (days_in_month_bounds (year x) (month x)).
    destruct (Z.eq_dec (year x) (year d)) as [Ey|Ey]; [|lia].
    destruct (Z.eq_dec (month x) (month d)) as [Em|Em]; [|lia].
    rewrite Ey, Em in Hx. lia. }
  destruct (Z.ltb_spec (year d) 9999); [|discriminate].
  intros E. injection E as <-. cbn [year month day]. rewrite ?valid_date_spec.
  cbn [year month day]. repeat split; try lia.
  intros x. rewrite valid_date_spec. intros Hx Hr.
  pose proof (days_in_month_bounds (year x) (month x)).
  destruct (Z.eq_dec (year x) (year d)) as [Ey|Ey]; [|lia].
  destruct (Z.eq_dec (month x) (month d)) as [Em|Em]; [|lia].
  rewrite Ey, Em in Hx. lia.
Qed.

(** The addition overflows on the last date only. *)
Lemma add_day_raise d e :
  valid_date d = true → add_day d = Raise e → e = OverflowError ∧ d = date_max.
Proof.
  rewrite valid_date_spec. unfold add_day, MAXYEAR. intros Hd.
  destruct (Z.ltb_spec (day d) (days_in_month (year d) (month d))); [discriminate|].
  destruct (Z.ltb_spec (month d) 12); [discriminate|].
  destruct (Z.ltb_spec (year d) 9999); [discriminate|].
  intros E. injection E as <-. split; [reflexivity|].
  destruct d as [y m dd]. cbn [year month day] in *.
  assert (y = 9999) by lia. assert (m = 12) by lia. subst.
  change (days_in_month 9999 12) with 31 in *. unfold date_max. f_equal. lia.
Qed.

Lemma rank_le_max x : valid_date x = true → day_rank x ≤ day_rank date_max.
Proof.
  rewrite valid_date_spec. unfold day_rank.
  pose proof (days_in_month_bounds (year x) (month x)). cbn. lia.
Qed.

(** The day loop, run long enough, yields the dates from [d] to [end_] in
    ascending order, and ends by an overflow exactly when it has gone
    through the last date. *)
Lemma daterange_loop_spec (fuel : nat) d end_ :
  valid_date d = true → valid_date end_ = true →
  day_rank end_ + 1 - day_rank d ≤ Z.of_nat fuel →
  let '(l, e) := daterange_loop fuel d end_ in
  Forall (λ x, valid_date x = true) l
  ∧ (∀ x, valid_date x = true →
          (x ∈ l ↔ day_rank d ≤ day_rank x ≤ day_rank end_))
  ∧ StronglySorted (λ a b, day_rank a < day_rank b) l
  ∧ (e = None ∨ (e = Some OverflowError ∧ end_ = date_max ∧ l ≠ [])).
Proof.
  intros Hd He. revert d Hd. induction fuel as [|fuel IH]; intros d Hd Hf.
  - cbn [daterange_loop]. split; [constructor|].
    split; [|split; [constructor | left; reflexivity]].
    intros x Hx. split; [intros Hin; inversion Hin | lia].
  - cbn [daterange_loop].
    destruct (date_le d end_) eqn:Hle.
    2: { assert (day_rank end_ < day_rank d).
         { destruct (Z.le_gt_cases (day_rank d) (day_rank end_)) as [L|L]; [|lia].
           apply (date_le_rank d end_ Hd He) in L. congruence. }
         split; [constructor|].
         split; [|split; [constructor | left; reflexivity]].
         intros x Hx. split; [intros Hin; inversion Hin | lia]. }
    apply (date_le_rank d end_ Hd He) in Hle.
    destruct (add_day d) as [d'|e] eqn:Ha.
    + destruct (add_day_ok d d' Hd Ha) as (Hv & Hlt & Hnext).
      specialize (IH d' Hv ltac:(lia)).
      destruct (daterange_loop fuel d' end_) as [l e].
      destruct IH as (Hall & Hmem & Hsort & Hend).
      split; [constructor; assumption|]. split; [|split].
      * intros x Hx. rewrite elem_of_cons, (Hmem x Hx). split.
        -- intros [->|Hin]; lia.
        -- intros [Hlo Hhi].
           destruct (Z.eq_dec (day_rank x) (day_rank d)) as [E|E].
           ++ left. apply rank_inj; assumption.
           ++ right. split; [apply Hnext; [assumption|lia] | lia].
      * constructor; [exact Hsort|].
        apply Forall_forall. intros y Hy.
        assert (Hvy : valid_date y = true)
          by (rewrite Forall_forall in Hall; apply Hall; exact Hy).
        apply (Hmem y Hvy) in Hy. lia.
      * destruct Hend as [->|(-> & -> & _)]; [left; reflexivity|].
        right. split; [reflexivity|]. split; [reflexivity|discriminate].
    + destruct (add_day_raise d e Hd Ha) as [-> ->].
      pose proof (rank_le_max end_ He).
      assert (end_ = date_max) by (apply rank_inj; [assumption|reflexivity|lia]).
      subst end_. split; [constructor; [reflexivity | constructor]|].
      split; [|split].
      * intros x Hx. rewrite list_elem_of_singleton. split.
        -- intros ->. lia.
        -- intros [Hlo Hhi]. apply rank_inj; [assumption | reflexivity | lia].
      * repeat constructor.
      * right. split; [reflexivity|]. split; [reflexivity|discriminate].
Qed.

(** [daterange(start, end)] visits the dates from [start] to [end], these
    only, each once, in ascending order. *)
Lemma daterange_exact start end_ :
  valid_date start = true → valid_date end_ = true →
  let visited := fst (daterange start end_) in
  (∀ x, x ∈ visited →
        valid_date x = true ∧ date_le start x = true ∧ date_le x end_ = true)
  ∧ (∀ x, valid_date x = true → date_le start x = true → date_le x end_ = true →
          x ∈ visited)
  ∧ StronglySorted (λ a b, date_lt a b = true) visited
  ∧ (snd (daterange start end_) = None
     ∨ (snd (daterange start end_) = Some OverflowError ∧ end_ = date_max)).
Proof.
  intros Hs He. unfold daterange.
  pose proof (daterange_loop_spec
                (Z.to_nat (day_rank end_ + 1 - day_rank start)) start end_
                Hs He ltac:(lia)) as H.
  destruct (daterange_loop _ start end_) as [l e].
  destruct H as (Hall & Hmem & Hsort & Hend). cbn [fst snd].
  rewrite Forall_forall in Hall.
  split; [|split; [|split]].
  - intros x Hin. pose proof (Hall x Hin) as Hx.
    apply (Hmem x Hx) in Hin.
    split; [exact Hx|]. split; apply date_le_rank; auto; lia.
  - intros x Hx H1 H2. apply (Hmem x Hx).
    apply date_le_rank in H1, H2; auto.
  - clear Hmem Hend. induction Hsort as [|a l Hs' IH' Hfa]; constructor.
    + apply IH'. intros x Hx. apply Hall. right. exact Hx.
    + rewrite Forall_forall in *. intros y Hy.
      apply date_lt_rank; [apply Hall; left | apply Hall; right; exact Hy | apply Hfa, Hy].
  - destruct Hend as [->|(-> & -> & _)]; auto.
Qed.

End Calendar.

(** ** What a run collects for a range of dates *)

Section Isoformat.

Lemma digit_val_char k : 0 ≤ k ≤ 9 → digit_val (digit_char k) = k.
Proof.
  intros H.
  assert (k = 0 ∨ k = 1 ∨ k = 2 ∨ k = 3 ∨ k = 4 ∨ k = 5 ∨ k = 6 ∨ k = 7
          ∨ k = 8 ∨ k = 9) as C by lia.
  repeat (destruct C as [->|C]; [reflexivity|]). subst k. reflexivity.
Qed.

Lemma digit_bound k : 0 ≤ k mod 10 ≤ 9.
Proof. pose proof (Z.mod_pos_bound k 10). lia. Qed.

Lemma digit_char_inj a b : digit_char (a mod 10) = digit_char (b mod 10) → a mod 10 = b mod 10.
Proof.
  intros E. apply (f_equal digit_val) in E.
  rewrite !digit_val_char in E by apply digit_bound. exact E.
Qed.

Lemma fmt02_inj n m : 0 ≤ n < 100 → 0 ≤ m < 100 → fmt02 n = fmt02 m → n = m.
Proof.
  intros Hn Hm E. unfold fmt02 in E. injection E as E1 E2.
  apply digit_char_inj in E1, E2.
  Z.div_mod_to_equations. lia.
Qed.

Lemma fmt04_inj n m : 0 ≤ n < 10000 → 0 ≤ m < 10000 → fmt04 n = fmt04 m → n = m.
Proof.
  intros Hn Hm E. unfold fmt04, fmt02 in E. injection E as E1 E2 E3 E4.
  apply digit_char_inj in E1, E2, E3, E4.
  assert (D : ∀ k, 0 ≤ k < 10000 →
              k = 1000 * (k / 1000 mod 10) + 100 * (k / 100 mod 10)
                  + 10 * (k / 10 mod 10) + k mod 10).
  { clear. intros k Hk. Z.div_mod_to_equations. lia. }
  rewrite (D n Hn), (D m Hm). congruence.
Qed.

(** Two texts cut at the same place are equal piece by piece. *)
Lemma append_split (a b x y : string) :
  a +:+ x = b +:+ y → String.length a = String.length b → a = b ∧ x = y.
Proof.
  intros E L. pose proof (append_same_length a b x y E L) as ->.
  split; [reflexivity | exact (append_inj_l _ _ _ E)].
Qed.

Lemma fmt02_length n : String.length (fmt02 n) = 2%nat.
Proof. reflexivity. Qed.

Lemma fmt04_length n : String.length (fmt04 n) = 4%nat.
Proof. reflexivity. Qed.

Lemma valid_date_fields d :
  valid_date d = true →
  0 ≤ year d < 10000 ∧ 0 ≤ month d < 100 ∧ 0 ≤ day d < 100.
Proof.
  rewrite valid_date_spec. pose proof (days_in_month_bounds (year d) (month d)). lia.
Qed.

Lemma ymd_tag_length d : String.length (ymd_tag d) = 11%nat.
Proof. reflexivity. Qed.

Lemma date_tag_length d : String.length (date_tag d) = 16%nat.
Proof. reflexivity. Qed.

Lemma ymd_tag_inj a b :
  valid_date a = true → valid_date b = true → ymd_tag a = ymd_tag b → a = b.
Proof.
  intros Ha Hb E.
  destruct (valid_date_fields a Ha) as (Ya & Ma & Da).
  destruct (valid_date_fields b Hb) as (Yb & Mb & Db).
  unfold ymd_tag in E.
  apply append_split in E as [Ey E]; [|reflexivity].
  apply append_inj_l in E.
  apply append_split in E as [Em E]; [|reflexivity].
  apply append_inj_l in E.
  apply append_split in E as [Ed _]; [|reflexivity].
  apply fmt04_inj in Ey; [|assumption..].
  apply fmt02_inj in Em; [|assumption..].
  apply fmt02_inj in Ed; [|assumption..].
  destruct a as [ya ma da], b as [yb mb db]. cbn [year month day] in *. congruence.
Qed.

Lemma isoformat_inj a b :
  valid_date a = true → valid_date b = true → isoformat a = isoformat b → a = b.
Proof.
  intros Ha Hb E.
  destruct (valid_date_fields a Ha) as (Ya & Ma & Da).
  destruct (valid_date_fields b Hb) as (Yb & Mb & Db).
  unfold isoformat in E.
  apply append_split in E as [Ey E]; [|reflexivity].
  apply append_inj_l in E.
  apply append_split in E as [Em E]; [|reflexivity].
  apply append_inj_l in E.
  apply fmt04_inj in Ey; [|assumption..].
  apply fmt02_inj in Em; [|assumption..].
  apply fmt02_inj in E; [|assumption..].
  destruct a as [ya ma da], b as [yb mb db]. cbn [year month day] in *. congruence.
Qed.

Lemma date_tag_inj a b :
  valid_date a = true → valid_date b = true → date_tag a = date_tag b → a = b.
Proof.
  intros Ha Hb E. unfold date_tag in E. apply append_inj_l in E.
  apply append_split in E as [E _]; [|reflexivity].
  apply isoformat_inj; assumption.
Qed.

(** No key lies under the day prefixes of two dates. *)
Lemma day_prefixes_apart (tag : date → string) (n : nat) (base key : string) a b :
  (∀ d, String.length (tag d) = n) →
  startswith key (base +:+ tag a) = true →
  startswith key (base +:+ tag b) = true →
  tag a = tag b.
Proof.
  intros L Ha Hb. apply startswith_spec in Ha as [ra Ea], Hb as [rb Eb].
  rewrite Ea, !append_assoc in Eb. apply append_inj_l in Eb.
  apply append_split in Eb as [E _]; [exact E | rewrite !L; reflexivity].
Qed.

End Isoformat.

Section Loops.

Context {S A B : Type}.

(** A property of the accumulator kept by every round is kept by the loop. *)
Lemma for_each_acc (P : B → Prop) (items : list A) (body : A → B → M S B) :
  (∀ x acc s acc' s',
      x ∈ items → P acc → body x acc s = (Ok acc', s') → P acc') →
  ∀ acc s acc' s',
    P acc → for_each items body acc s = (Ok acc', s') → P acc'.
Proof.
  induction items as [|x rest IH]; intros Hb acc s acc' s' HP H.
  - injection H as <- <-. exact HP.
  - cbn [for_each] in H. unfold bind in H.
    destruct (body x acc s) as [[acc1|e] s1] eqn:E; [|discriminate].
    apply (IH (λ y a0 t a1 t1 Hy, Hb y a0 t a1 t1 (list_elem_of_further _ _ _ Hy))
              acc1 s1 acc' s'); [|exact H].
    apply (Hb x acc s acc1 s1); [left | exact HP | exact E].
Qed.

(** A loop whose rounds return returns. *)
Lemma for_each_returns (items : list A) (body : A → B → M S B) :
  (∀ x acc s, x ∈ items → is_ok (fst (body x acc s)) = true) →
  ∀ acc s, is_ok (fst (for_each items body acc s)) = true.
Proof.
  induction items as [|x rest IH]; intros Hb acc s; [reflexivity|].
  cbn [for_each]. unfold bind.
  pose proof (Hb x acc s ltac:(left)) as E.
  destruct (body x acc s) as [[acc1|e] s1]; [|discriminate].
  apply IH. intros y a0 t Hy. apply Hb. right. exact Hy.
Qed.

Lemma for_generated_ok (gen : list A * option exn) (body : A → B → M S B)
    acc s acc' s' :
  for_generated gen body acc s = (Ok acc', s') →
  snd gen = None ∧ for_each (fst gen) body acc s = (Ok acc', s').
Proof.
  unfold for_generated, bind. destruct (for_each (fst gen) body acc s) as [[a1|e] s1];
    [|discriminate].
  destruct (snd gen); [discriminate|]. intros E. injection E as <- <-. auto.
Qed.

End Loops.

Lemma elem_of_List_filter {A} (f : A → bool) (l : list A) (x : A) :
  x ∈ List.filter f l ↔ x ∈ l ∧ f x = true.
Proof. rewrite !list_elem_of_In. apply filter_In. Qed.

Section Collection.

Variable env : environment.

Lemma list_objects_ok bucket prefix w objs w' :
  list_objects env bucket prefix w = (Ok objs, w') →
  ∀ o, o ∈ objs → startswith (Key o) prefix = true ∧ o ∈ bucket_contents env bucket.
Proof.
  unfold list_objects, bind, request, ret.
  destruct (net_fault env (length (net_log w))); [discriminate|].
  intros E. injection E as <- _. intros o Ho.
  apply elem_of_List_filter in Ho. tauto.
Qed.

Lemma request_returns (Hq : no_fault env) e w : request env e w = (Ok tt, mk_world (fs w) (net_log w ++ [e])).
Proof. unfold request. rewrite Hq. reflexivity. Qed.

Lemma list_objects_returns (Hq : no_fault env) bucket prefix w :
  is_ok (fst (list_objects env bucket prefix w)) = true.
Proof. unfold list_objects, bind. rewrite request_returns by exact Hq. reflexivity. Qed.

(** One day of [load_optimizely_decisions_v2.py]: what is added lies under
    the prefix of the day and is a Parquet file. *)
Lemma collect_day_ok bucket prefix rs d acc w acc' w' :
  V2.collect_day env bucket prefix rs d acc w = (Ok acc', w') →
  ∀ o, o ∈ acc' →
       o ∈ acc ∨ (startswith (Key o) (V2.date_prefix_of prefix d) = true
                  ∧ endswith (Key o) ".parquet" = true).
Proof.
  unfold V2.collect_day, bind.
  destruct (success_marker_exists env bucket _ w) as [[has|e] w1]; [|discriminate].
  destruct (negb has && rs).
  { intros E. injection E as <- _. auto. }
  destruct (list_objects env bucket _ w1) as [[listed|e] w2] eqn:L; [|discriminate].
  pose proof (list_objects_ok _ _ _ _ _ L) as Hl.
  destruct (is_nil _).
  { intros E. injection E as <- _. auto. }
  intros E. injection E as <- _. intros o Ho.
  apply elem_of_app in Ho as [Ho|Ho]; [left; exact Ho|right].
  apply elem_of_List_filter in Ho as [Ho Hp]. split; [|exact Hp].
  apply (Hl o Ho).
Qed.

Lemma success_marker_returns bucket date_prefix w :
  is_ok (fst (success_marker_exists env bucket date_prefix w)) = true.
Proof.
  unfold success_marker_exists, try_except, head_object, bind, request, raise, ret.
  destruct (net_fault env (length (net_log w))) as [x|];
    [rewrite fault_is_Exception; reflexivity|].
  destruct (remote_size env bucket _); reflexivity.
Qed.

Lemma collect_day_returns (Hq : no_fault env) bucket prefix rs d acc w :
  is_ok (fst (V2.collect_day env bucket prefix rs d acc w)) = true.
Proof.
  unfold V2.collect_day, bind.
  pose proof (success_marker_returns bucket (V2.date_prefix_of prefix d) w) as Hs.
  destruct (success_marker_exists env bucket _ w) as [[has|e] w1]; [|discriminate].
  destruct (negb has && rs); [reflexivity|].
  pose proof (list_objects_returns Hq bucket (V2.date_prefix_of prefix d) w1) as Hl.
  destruct (list_objects env bucket _ w1) as [[listed|e] w2]; [|discriminate].
  destruct (is_nil _); reflexivity.
Qed.

(** The collection of [load_optimizely_decisions_v2.py]: every object lies
    under the prefix of a visited day. *)
Lemma collect_ok bucket prefix rs start end_ w objs w' :
  V2.collect env bucket prefix rs start end_ w = (Ok objs, w') →
  ∀ o, o ∈ objs →
       ∃ x, x ∈ fst (daterange start end_)
            ∧ startswith (Key o) (V2.date_prefix_of prefix x) = true
            ∧ endswith (Key o) ".parquet" = true.
Proof.
  unfold V2.collect. intros H. apply for_generated_ok in H as [_ H].
  refine (for_each_acc
            (λ acc, ∀ o, o ∈ acc →
                         ∃ x, x ∈ fst (daterange start end_)
                              ∧ startswith (Key o) (V2.date_prefix_of prefix x) = true
                              ∧ endswith (Key o) ".parquet" = true)
            _ _ _ [] w objs w' _ H).
  - intros x acc s acc' s' Hx IH E o Ho.
    destruct (collect_day_ok _ _ _ _ _ _ _ _ E o Ho) as [Hin|Hnew]; [auto|].
    exists x. tauto.
  - intros o Ho. inversion Ho.
Qed.

(** The day folders of [extract_optimizely_s3.py]. *)
Lemma list_by_day_ok bucket base_prefix start end_ w objs w' :
  Extract.list_by_day_if_partitioned env bucket base_prefix start end_ w = (Ok objs, w') →
  ∀ o, o ∈ objs →
       ∃ x, x ∈ fst (daterange start end_)
            ∧ startswith (Key o) (Extract.ymd_path_for base_prefix x) = true.
Proof.
  unfold Extract.list_by_day_if_partitioned. intros H.
  apply for_generated_ok in H as [_ H].
  refine (for_each_acc
            (λ acc, ∀ o, o ∈ acc →
                         ∃ x, x ∈ fst (daterange start end_)
                              ∧ startswith (Key o) (Extract.ymd_path_for base_prefix x) = true)
            _ _ _ [] w objs w' _ H).
  - intros x acc s acc' s' Hx IH E o Ho. unfold bind in E.
    destruct (Extract.list_s3_objects env bucket _ s) as [[listed|e] s1] eqn:L;
      [|discriminate].
    injection E as <- _. apply elem_of_app in Ho as [Ho|Ho]; [auto|].
    exists x. split; [exact Hx|]. apply (list_objects_ok _ _ _ _ _ L o Ho).
  - intros o Ho. inversion Ho.
Qed.

End Collection.

Section Heuristic.

(** The test of the heuristic is: one of the dates of the key is in range. *)
Lemma any_in_range_spec ms start end_ :
  any_in_range ms start end_ = true ↔
  ∃ x, x ∈ extracted_dates ms ∧ in_range start end_ x.
Proof.
  unfold in_range. induction ms as [|[y [mth d]] rest IH]; cbn [any_in_range extracted_dates].
  - split; [discriminate | intros (x & Hx & _); inversion Hx].
  - destruct (new_date y mth d) as [found|e].
    + destruct (date_le start found && date_le found end_) eqn:E.
      * apply andb_true_iff in E. split; [intros _|reflexivity].
        exists found. split; [left | exact E].
      * rewrite IH. split.
        -- intros (x & Hx & Hr). exists x. split; [right; exact Hx | exact Hr].
        -- intros (x & Hx & Hr). apply elem_of_cons in Hx as [->|Hx].
           ++ rewrite (proj2 (andb_true_iff _ _) Hr) in E. discriminate.
           ++ exists x. auto.
    + exact IH.
Qed.

Lemma extracted_dates_valid ms x : x ∈ extracted_dates ms → valid_date x = true.
Proof.
  induction ms as [|[y [mth d]] rest IH]; cbn [extracted_dates]; [intros H; inversion H|].
  unfold new_date. destruct (valid_date (mk_date y mth d)) eqn:V; [|exact IH].
  intros H. apply elem_of_cons in H as [->|H]; [exact V | exact (IH H)].
Qed.

End Heuristic.

(** The list that [main] of [extract_optimizely_s3.py] builds: every object
    lies under the day folder of a visited date, or has passed the
    heuristic. *)
Lemma extract_collect_ok env (a : Extract.args) start end_ w objs w' :
  Extract.collect env a start end_ w = (Ok objs, w') →
  ∀ o, o ∈ objs →
       (∃ x, x ∈ fst (daterange start end_)
             ∧ startswith (Key o)
                 (Extract.ymd_path_for
                    (if truthy (Extract.prefix a) then Extract.prefix a else "") x)
               = true)
       ∨ key_has_date_in_range (Key o) start end_ = true.
Proof.
  unfold Extract.collect, bind. cbv zeta.
  match goal with |- context [(if Extract.force_scan a then ?x else ?y) w] =>
    destruct ((if Extract.force_scan a then x else y) w) as [[[|]|e] w1]
  end; [| |discriminate].
  - intros H o Ho. left. exact (list_by_day_ok env _ _ _ _ _ _ _ H o Ho).
  - destruct (Extract.list_s3_objects env (Extract.bucket a) _ w1)
      as [[listed|e] w2]; [|discriminate].
    unfold ret. intros H. injection H as <- _. intros o Ho. right.
    apply elem_of_List_filter in Ho. tauto.
Qed.

Lemma outside_not_in_range start end_ d :
  valid_date start = true → valid_date end_ = true → valid_date d = true →
  outside start end_ d → ¬ in_range start end_ d.
Proof.
  intros Hs He Hd [H|H] [H1 H2].
  - apply date_lt_rank in H; [|assumption..]. apply date_le_rank in H1; [lia|assumption..].
  - apply date_lt_rank in H; [|assumption..]. apply date_le_rank in H2; [lia|assumption..].
Qed.

(** C3, as the scripts have it.  Let [start] and [end_] be dates.  The day loop visits the dates of
    [start, end_], these only, in ascending order.  Whatever the store holds
    and whatever the network does, no object of the collection that
    [load_optimizely_decisions_v2.py] sorts and transfers, and no object that
    [extract_optimizely_s3.py] lists by day folder, lies under the day prefix
    of a date outside [start, end_]; the key of every object that passes the
    heuristic of [extract_optimizely_s3.py] carries a date of [start, end_],
    and a key passes it if it carries one; every object of the list that
    [extract_optimizely_s3.py] builds lies under the day folder of a date of
    [start, end_] or has passed the heuristic.  The collection of
    [load_optimizely_decisions_v2.py] is returned when no request fails and
    [end_] is not the last date of the calendar. *)
Theorem collection_stays_in_range (env : environment) (bucket prefix : string)
    (require_success : bool) (start end_ : date) :
  valid_date start = true → valid_date end_ = true →
  (∀ x, valid_date x = true →
        (x ∈ fst (daterange start end_) ↔ in_range start end_ x))
  ∧ StronglySorted (λ a b, date_lt a b = true) (fst (daterange start end_))
  ∧ (∀ w objs w' o d,
       V2.collect env bucket prefix require_success start end_ w = (Ok objs, w') →
       o ∈ sort_by_key objs →
       valid_date d = true → outside start end_ d →
       startswith (Key o) (V2.date_prefix_of prefix d) = false)
  ∧ (∀ w objs w' o d,
       Extract.list_by_day_if_partitioned env bucket prefix start end_ w = (Ok objs, w') →
       o ∈ sort_by_key objs →
       valid_date d = true → outside start end_ d →
       startswith (Key o) (Extract.ymd_path_for prefix d) = false)
  ∧ (∀ key, key_has_date_in_range key start end_ = true ↔
            ∃ x, x ∈ dates_in_key key ∧ in_range start end_ x)
  ∧ (∀ (a : Extract.args) w objs w' o,
       Extract.collect env a start end_ w = (Ok objs, w') →
       o ∈ sort_by_key objs →
       (∃ x, in_range start end_ x
             ∧ startswith (Key o)
                 (Extract.ymd_path_for
                    (if truthy (Extract.prefix a) then Extract.prefix a else "") x)
               = true)
       ∨ (∃ x, x ∈ dates_in_key (Key o) ∧ in_range start end_ x))
  ∧ (no_fault env → end_ ≠ date_max →
     ∀ w, is_ok (fst (V2.collect env bucket prefix require_success start end_ w)) = true).
Proof.
  intros Hs He.
  destruct (daterange_exact start end_ Hs He) as (Hin & Hall & Hsort & Hend).
  split; [|split; [exact Hsort|]]; [|split; [|split; [|split; [|split]]]].
  - intros x Hx. split; [intros H; apply (Hin x H) | intros [H1 H2]; auto].
  - intros w objs w' o d H Ho Hd Hout.
    unfold sort_by_key in Ho. rewrite merge_sort_Permutation in Ho.
    destruct (collect_ok env _ _ _ _ _ _ _ _ H o Ho) as (x & Hx & Hp & _).
    destruct (Hin x Hx) as (Hvx & Hr).
    destruct (startswith (Key o) (V2.date_prefix_of prefix d)) eqn:E; [|reflexivity].
    exfalso. apply (outside_not_in_range start end_ d Hs He Hd Hout).
    assert (x = d) as <-; [|exact Hr].
    apply date_tag_inj; [assumption..|].
    exact (day_prefixes_apart date_tag 16 prefix (Key o) x d date_tag_length Hp E).
  - intros w objs w' o d H Ho Hd Hout.
    unfold sort_by_key in Ho. rewrite merge_sort_Permutation in Ho.
    destruct (list_by_day_ok env _ _ _ _ _ _ _ H o Ho) as (x & Hx & Hp).
    destruct (Hin x Hx) as (Hvx & Hr).
    destruct (startswith (Key o) (Extract.ymd_path_for prefix d)) eqn:E; [|reflexivity].
    exfalso. apply (outside_not_in_range start end_ d Hs He Hd Hout).
    assert (x = d) as <-; [|exact Hr].
    apply ymd_tag_inj; [assumption..|].
    exact (day_prefixes_apart ymd_tag 11
             (if endswith prefix "/" then prefix else prefix +:+ "/")
             (Key o) x d ymd_tag_length Hp E).
  - intros key. apply any_in_range_spec.
  - intros a w objs w' o H Ho.
    unfold sort_by_key in Ho. rewrite merge_sort_Permutation in Ho.
    destruct (extract_collect_ok env a start end_ w objs w' H o Ho) as [(x & Hx & Hp)|Hk].
    + left. exists x. split; [apply (Hin x Hx) | exact Hp].
    + right. apply any_in_range_spec. exact Hk.
  - intros Hq Hmax w. unfold V2.collect, for_generated, bind.
    pose proof (for_each_returns (fst (daterange start end_))
                  (V2.collect_day env bucket prefix require_success)
                  (λ x acc s _, collect_day_returns env Hq bucket prefix require_success x acc s)
                  [] w) as R.
    destruct (for_each _ _ _ w) as [[acc|e] w1]; [|discriminate].
    destruct Hend as [->|[_ ?]]; [reflexivity | contradiction].
Qed.

(** Three days of October 2024 against a store that holds a day before, a
    day of the range and a day after. *)
Lemma collection_stays_in_range_witness :
  let contents :=
    [mk_obj "v1/account_id=1/type=decisions/date=2024-10-29/part-0.parquet" 10;
     mk_obj "v1/account_id=1/type=decisions/date=2024-10-31/part-0.parquet" 20;
     mk_obj "v1/account_id=1/type=decisions/date=2024-11-02/part-0.parquet" 30] in
  let start := mk_date 2024 10 30 in
  let end_ := mk_date 2024 11 1 in
  fst (daterange start end_)
  = [mk_date 2024 10 30; mk_date 2024 10 31; mk_date 2024 11 1]
  ∧ fst (V2.collect (quiet_env contents) "bucket" "v1/account_id=1/type=decisions/"
           false start end_ empty_world)
    = Ok [mk_obj "v1/account_id=1/type=decisions/date=2024-10-31/part-0.parquet" 20]
  ∧ (mk_date 2024 10 31 ∈ fst (daterange start end_)
     ↔ in_range start end_ (mk_date 2024 10 31)).
Proof.
  intros contents start end_.
  split; [vm_compute; reflexivity|]. split; [vm_compute; reflexivity|].
  refine (proj1 (collection_stays_in_range (quiet_env contents) "bucket"
                   "v1/account_id=1/type=decisions/" false start end_ _ _)
            (mk_date 2024 10 31) _); vm_compute; reflexivity.
Defined.

(** The claim as it is worded fails for the scan of
    [extract_optimizely_s3.py], which looks at the dates in the key and not
    at the folder: asked for the 30th and the 31st of October 2024, it takes
    an object that lies in the day folder of the 29th, outside the range,
    since its name carries the 30th.  So it is under [--force-scan], and
    without it when nothing lies under the day folder of the first day. *)
Lemma scan_takes_object_of_other_day :
  let start := mk_date 2024 10 30 in
  let end_ := mk_date 2024 10 31 in
  let d := mk_date 2024 10 29 in
  let o := mk_obj "events/2024/10/29/export_2024-10-30.parquet" 10 in
  let a force :=
    {| Extract.bucket := "bucket"; Extract.prefix := "events/";
       Extract.out_dir := "downloads";
       Extract.start_date := "2024-10-30"; Extract.end_date := "2024-10-31";
       Extract.dry_run := false; Extract.force_scan := force |} in
  fromisoformat "2024-10-30" = Ok start ∧ fromisoformat "2024-10-31" = Ok end_
  ∧ date_le start end_ = true
  ∧ valid_date d = true ∧ outside start end_ d
  ∧ startswith (Key o) (Extract.ymd_path_for "events/" d) = true
  ∧ fst (Extract.collect (quiet_env [o]) (a true) start end_ empty_world) = Ok [o]
  ∧ fst (Extract.collect (quiet_env [o]) (a false) start end_ empty_world) = Ok [o]
  ∧ net_log (snd (Extract.main (quiet_env [o]) (a true) empty_world))
    = [ListObjectsV2 "bucket" "events/";
       DownloadFile "bucket" (Key o)
         "downloads/events/2024/10/29/export_2024-10-30.parquet"].
Proof. vm_compute. repeat split; auto. Qed.

(** ** The configuration error and the network *)

Section ConfigError.

Variable env : environment.

Lemma fromisoformat_raises s e : fromisoformat s = Raise e → is_Exception e = true.
Proof.
  unfold fromisoformat, new_date.
  repeat match goal with
         | |- context [match ?x with _ => _ end] => destruct x
         end; intros E; inversion E; reflexivity.
Qed.


(** The credentials exchange makes one request, and ends by its result or by
    a [RuntimeError]. *)
Lemma s3_client_via_optimizely_cases w :
  let r := V2.s3_client_via_optimizely env w in
  snd r = mk_world (fs w) (net_log w ++ [credentials_request])
  ∧ ((∃ hint, fst r = Ok hint) ∨ (∃ msg, fst r = Raise (RuntimeError msg))).
Proof.
  unfold V2.s3_client_via_optimizely, V2.fetch_optimizely_temp_creds, bind,
    try_except, request, raise, ret, credentials_request.
  destruct (net_fault env (length (net_log w))) as [x|].
  { rewrite fault_is_Exception. cbn. eauto. }
  destruct (cred_reply env) as [|status [b|]]; cbn; eauto.
  - destruct (negb (status =? 200)); cbn; eauto.
    destruct (has_all_fields b); cbn; eauto.
  - destruct (negb (status =? 200)); cbn; eauto.
Qed.

End ConfigError.




(** * Further properties of the scripts *)

(** ** Local paths *)

Section LocalPaths.

Lemma split_no_slash sep s :
  Forall (λ c, startswith c (String sep "") = false) (split sep s).
Proof.
  induction s as [|ch r IH]; cbn [split].
  - constructor; [reflexivity | constructor].
  - destruct (Ascii.eqb ch sep) eqn:E.
    + constructor; [reflexivity | exact IH].
    + destruct (split sep r) as [|h t].
      * constructor; [|constructor]. cbn. rewrite Ascii.eqb_sym, E. reflexivity.
      * inversion IH; subst. constructor; [|assumption].
        cbn. rewrite Ascii.eqb_sym, E. reflexivity.
Qed.

Lemma split_holds_no_sep sep s :
  Forall (λ c, contains c (String sep "") = false) (split sep s).
Proof.
  induction s as [|ch r IH]; cbn [split].
  - constructor; [reflexivity | constructor].
  - destruct (Ascii.eqb ch sep) eqn:E.
    + constructor; [reflexivity | exact IH].
    + destruct (split sep r) as [|h t].
      * constructor; [|constructor]. cbn. rewrite Ascii.eqb_sym, E. reflexivity.
      * inversion IH; subst. constructor; [|assumption].
        cbn [contains startswith]. rewrite Ascii.eqb_sym, E. cbn. assumption.
Qed.

Lemma join_step_extends path b :
  startswith b "/" = false → ∃ rest, join_step path b = path +:+ rest.
Proof.
  intros H. unfold join_step. rewrite H.
  destruct (negb (truthy path) || endswith path "/"); eexists; reflexivity.
Qed.

Lemma path_join_extends a p :
  Forall (λ c, startswith c "/" = false) p →
  ∃ rest, path_join a p = a +:+ rest.
Proof.
  unfold path_join. revert a. induction p as [|b p IH]; intros a H; cbn [fold_left].
  - exists "". symmetry. apply append_nil_r.
  - inversion H; subst.
    destruct (join_step_extends a b) as [r1 E1]; [assumption|].
    destruct (IH (join_step a b)) as [r2 E2]; [assumption|].
    exists (r1 +:+ r2). rewrite E2, E1. apply append_assoc.
Qed.

End LocalPaths.

(** X1.  The text of the local path that [ensure_local_path] computes for a
    key, with [posixpath], starts with the text of the root directory,
    whatever the key: the components of [key.split("/")] hold no separator,
    so that none of them makes [os.path.join] start over from an absolute
    path.  (Components [..] are joined like any other.) *)
Theorem local_path_extends_root (root_dir key : string) :
  startswith (local_path_of root_dir key) root_dir = true
  ∧ Forall (λ c, contains c "/" = false) (split slash key).
Proof.
  split.
  - apply startswith_spec. unfold local_path_of.
    apply path_join_extends. apply (split_no_slash slash).
  - apply (split_holds_no_sep slash).
Qed.

Section EnsureLocalPath.

Implicit Types (f : gmap (list string) node) (pre rest q : list string).


End EnsureLocalPath.



(** ** The transfer loop *)

Section Runs.

Variables (env : environment) (passes_over : string → bool).
Variables (human_size : Z → result unit).
Variables (bucket out_dir : string) (dry_run : bool).

(** A property of the world kept by every round holds when the loop ends,
    however it ends. *)
Lemma run_world_inv (J : world → Prop) (objects : list s3obj) :
  (∀ obj c w r w',
      obj ∈ objects → J w →
      step_outcome env passes_over human_size bucket out_dir dry_run obj c w r w' →
      J w') →
  ∀ items c w r w',
    (∀ x, x ∈ items → x ∈ objects) → J w →
    for_each items (transfer_one env passes_over human_size bucket out_dir dry_run) c w
    = (r, w') →
    J w'.
Proof.
  intros Hstep items. induction items as [|obj rest IH]; intros c w r w' Hsub HJ H.
  - injection H as _ <-. exact HJ.
  - cbn [for_each] in H. unfold bind in H.
    destruct (transfer_one env passes_over human_size bucket out_dir dry_run obj c w)
      as [[c1|e] w1] eqn:E; apply step_inv in E.
    + apply (IH c1 w1 r w'); [intros x Hx; apply Hsub; right; exact Hx | | exact H].
      apply (Hstep obj c w (Ok c1) w1); [apply Hsub; left | exact HJ | exact E].
    + injection H as _ <-.
      apply (Hstep obj c w (Raise e) w1); [apply Hsub; left | exact HJ | exact E].
Qed.

Lemma wrote_only_refl objects w :
  wrote_only env passes_over bucket out_dir objects w w.
Proof. repeat split; eauto. Qed.

Lemma wrote_only_mkdirs objects w comps f' l :
  mkdirs [] comps (fs w) = Ok f' →
  wrote_only env passes_over bucket out_dir objects w (mk_world f' l).
Proof.
  intros Hm. destruct (mkdirs_ok _ _ _ _ Hm) as (_ & K & N).
  repeat split; cbn [fs]; eauto.
Qed.

Lemma wrote_only_trans objects w w1 w2 :
  wrote_only env passes_over bucket out_dir objects w w1 →
  wrote_only env passes_over bucket out_dir objects w1 w2 →
  wrote_only env passes_over bucket out_dir objects w w2.
Proof.
  intros (D1 & F1 & U1 & N1) (D2 & F2 & U2 & N2). repeat split.
  - auto.
  - intros p n H. destruct (F1 p n H) as [m Hm]. eauto.
  - intros p n H Hno. apply U2; [apply U1; assumption | exact Hno].
  - intros p n H. destruct (N2 p n H) as [H1|H1]; [apply N1; exact H1 | right; exact H1].
Qed.

(** One round of the loop writes at most the local file of its object. *)
Lemma step_wrote_only objects obj c w r w' :
  obj ∈ objects →
  step_outcome env passes_over human_size bucket out_dir dry_run obj c w r w' →
  wrote_only env passes_over bucket out_dir objects w w'.
Proof.
  intros Hin S. inversion S; subst;
    try apply wrote_only_refl;
    try (eapply wrote_only_mkdirs; eassumption).
  eapply wrote_only_trans; [eapply (wrote_only_mkdirs objects w _ f' (net_log w)); eassumption|].
  set (t := resolve (local_path_of out_dir (Key obj))) in *.
  repeat split; cbn [fs].
  - intros p Hp. rewrite lookup_insert_ne; [exact Hp|]. intros <-. contradiction.
  - intros p m Hp. destruct (decide (t = p)) as [<-|Hne].
    + exists n. apply lookup_insert_eq.
    + exists m. rewrite lookup_insert_ne; assumption.
  - intros p m Hp Hno. rewrite lookup_insert_ne; [exact Hp|].
    apply Hno; assumption.
  - intros p m Hp. destruct (decide (t = p)) as [<-|Hne].
    + rewrite lookup_insert_eq in Hp. injection Hp as <-.
      right. exists obj. repeat split; assumption.
    + rewrite lookup_insert_ne in Hp by exact Hne. left. exact Hp.
Qed.

End Runs.

(** X3.  However a run of the transfer loop ends, by its counters or by an
    exception, it has removed nothing: every directory is still there and
    every file is still a file.  A file that is not the local file of an
    object the loop handles has the size it had, and a file that is new or
    has changed is the local file of a handled object, with the size the
    object has in the store.  The output directory and the keys are taken
    without [.] and [..] components, so that a local path names the file of
    its components. *)
Theorem transfer_writes_only_its_files (env : environment)
    (passes_over : string → bool) (human_size : Z → result unit)
    (bucket : string) (objects : list s3obj) (out_dir : string) (dry_run : bool)
    (w : world) :
  plain_run passes_over out_dir objects →
  wrote_only env passes_over bucket out_dir objects w
    (snd (transfer env passes_over human_size bucket objects out_dir dry_run w)).
Proof.
  intros _. unfold transfer.
  destruct (for_each objects
              (transfer_one env passes_over human_size bucket out_dir dry_run)
              (0, 0, 0) w) as [r w'] eqn:H. cbn [snd].
  refine (run_world_inv env passes_over human_size bucket out_dir dry_run
            (wrote_only env passes_over bucket out_dir objects w) objects
            _ objects (0, 0, 0) w r w' (λ x Hx, Hx)
            (wrote_only_refl env passes_over bucket out_dir objects w) H).
  intros obj c w0 r0 w1 Hin HJ S.
  eapply wrote_only_trans; [exact HJ|].
  eapply step_wrote_only; eassumption.
Qed.

(** A live run of the loop of [load_optimizely_decisions_v2.py] next to a
    file that is none of its own. *)
Lemma transfer_writes_only_its_files_witness :
  let objects := [mk_obj "a/x.parquet" 100; mk_obj "a/" 0] in
  let env := quiet_env objects in
  let w := mk_world (list_to_map [(["notes.txt"], File 7)]) [] in
  let w' := snd (V2.transfer_inline env "bucket" objects "downloads" false w) in
  wrote_only env passed_inline "bucket" "downloads" objects w w'
  ∧ fs w' !! ["notes.txt"] = Some (File 7)
  ∧ fs w' !! ["downloads"; "a"; "x.parquet"] = Some (File 100).
Proof.
  intros objects env w w'. split; [|split; vm_compute; reflexivity].
  apply (transfer_writes_only_its_files env passed_inline (V2.human_size env)
           "bucket" objects "downloads" false w).
  split; [reflexivity|]. intros o Hin _. unfold objects in Hin.
  repeat (apply elem_of_cons in Hin as [->|Hin]); try reflexivity. inversion Hin.
Defined.

Section Requests.

Variables (env : environment) (passes_over : string → bool).
Variables (human_size : Z → result unit).
Variables (bucket out_dir : string).

(** In a live run every round that neither passes over its object nor skips
    it makes one request. *)
Lemma live_run_counts_requests objects w c w' :
  transfer env passes_over human_size bucket objects out_dir false w = (Ok c, w') →
  Z.of_nat (length (net_log w'))
  = Z.of_nat (length (net_log w)) + downloaded c + failed c.
Proof.
  intros H.
  refine (loop_inv env passes_over human_size bucket out_dir false
            (λ _ c1 w1, Z.of_nat (length (net_log w1))
                        = Z.of_nat (length (net_log w)) + downloaded c1 + failed c1)
            _ objects (0, 0, 0) w c w' _ H).
  - intros obj rest [[ok sk] fl] w0 c1 w1 HI S.
    inversion S; subst; cbn [downloaded failed net_log] in *;
      try discriminate; try rewrite length_app; cbn [length]; lia.
  - cbn. lia.
Qed.

End Requests.

Section Logs.

Variables (env : environment) (passes_over : string → bool).
Variables (human_size : Z → result unit).
Variables (bucket out_dir : string) (dry_run : bool).

(** What the loop adds to the log of requests, however it ends. *)
Lemma transfer_log objects w :
  ∃ L, net_log (snd (transfer env passes_over human_size bucket objects out_dir
                       dry_run w))
       = net_log w ++ L
       ∧ Forall (download_of passes_over bucket out_dir objects) L
       ∧ (dry_run = true → L = []).
Proof.
  destruct (transfer env passes_over human_size bucket objects out_dir dry_run w)
    as [r w'] eqn:H. cbn [snd]. unfold transfer in H.
  refine (run_world_inv env passes_over human_size bucket out_dir dry_run
            (λ w1, ∃ L, net_log w1 = net_log w ++ L
                        ∧ Forall (download_of passes_over bucket out_dir objects) L
                        ∧ (dry_run = true → L = []))
            objects _ objects (0, 0, 0) w r w' (λ x Hx, Hx) _ H).
  - intros obj c w0 r0 w1 Hin (L & HL & HF & HD) S.
    inversion S; subst; cbn [net_log]; try (exists L; auto; fail).
    + exists (L ++ [DownloadFile bucket (Key obj) (local_path_of out_dir (Key obj))]).
      rewrite HL, app_assoc. split; [reflexivity|]. split; [|discriminate].
      apply Forall_app. split; [exact HF|]. repeat constructor.
      exists obj. auto.
    + exists (L ++ [DownloadFile bucket (Key obj) (local_path_of out_dir (Key obj))]).
      rewrite HL, app_assoc. split; [reflexivity|]. split; [|discriminate].
      apply Forall_app. split; [exact HF|]. repeat constructor.
      exists obj. auto.
  - exists []. rewrite app_nil_r. auto.
Qed.

End Logs.

(** X4.  However a run of the transfer loop ends, the requests it has made
    are requests to download a handled object to its local path, and
    nothing else.  A dry run makes none; a live run that returns has made
    as many as its counters of downloaded and failed objects add up to, so
    that a skipped object costs no request. *)
Theorem transfer_requests (env : environment) (passes_over : string → bool)
    (human_size : Z → result unit) (bucket : string) (objects : list s3obj)
    (out_dir : string) (dry_run : bool) (w : world) :
  ∃ L,
    net_log (snd (transfer env passes_over human_size bucket objects out_dir
                    dry_run w))
    = net_log w ++ L
    ∧ Forall (download_of passes_over bucket out_dir objects) L
    ∧ (dry_run = true → L = [])
    ∧ (∀ c, dry_run = false →
            fst (transfer env passes_over human_size bucket objects out_dir
                   dry_run w) = Ok c →
            Z.of_nat (length L) = downloaded c + failed c).
Proof.
  destruct (transfer_log env passes_over human_size bucket out_dir dry_run objects w)
    as (L & HL & HF & HD).
  destruct (transfer env passes_over human_size bucket objects out_dir dry_run w)
    as [r w'] eqn:H. cbn [fst snd] in *.
  exists L. repeat split; auto.
  intros c -> ->.
  pose proof (live_run_counts_requests env passes_over human_size bucket out_dir
                objects w c w' H) as Hn.
  rewrite HL, length_app in Hn. lia.
Qed.



(** ** Batches and load jobs *)

Section ChunkShape.
Import Gcs.

Context {A : Type}.
Implicit Types (lst : list A) (i n : Z).

(** The batch of index [k] is the slice that starts [k] steps after [i],
    and the list goes on at least that far. *)
Lemma chunks_from_lookup (fuel : nat) lst i n (k : nat) (b : list A) :
  0 < n → 0 ≤ i →
  chunks_from fuel lst i n !! k = Some b →
  b = slice lst (i + Z.of_nat k * n) n
  ∧ i + Z.of_nat k * n < Z.of_nat (length lst).
Proof.
  intros Hn. revert i k. induction fuel as [|fuel IH]; intros i k Hi H.
  - destruct k; discriminate.
  - cbn [chunks_from] in H.
    destruct (Z.ltb_spec i (Z.of_nat (length lst))) as [Hlt|Hge];
      [|destruct k; discriminate].
    destruct k as [|k].
    + injection H as <-. split; [f_equal; lia | lia].
    + cbn in H. apply IH in H; [|lia]. destruct H as [-> Hb].
      split; [f_equal; lia | lia].
Qed.

Lemma slice_length lst i n :
  0 < n → 0 ≤ i → i < Z.of_nat (length lst) →
  Z.of_nat (length (slice lst i n)) = Z.min n (Z.of_nat (length lst) - i).
Proof.
  intros Hn Hi Hlt. unfold slice. rewrite length_take, length_drop. lia.
Qed.

End ChunkShape.

Section FailingJobs.
Import Gcs.

Variable wh : warehouse.

(** The batches up to the first failing job are submitted, the later ones
    are not. *)
Lemma load_batches_fail (batches : list (list string)) (done : Z) (w : bq_world)
    (k : nat) :
  (k < length batches)%nat →
  job_fails wh (bq_jobs w + k) = true →
  (∀ j, (j < k)%nat → job_fails wh (bq_jobs w + j) = false) →
  load_batches wh batches done w
  = (Raise LoadJobError,
     {| bq_log := bq_log w ++ batch_log (bq_jobs w) (take (S k) batches);
        bq_jobs := bq_jobs w + S k |}).
Proof.
  revert done w k. induction batches as [|b rest IH]; intros done w k Hk Hf Hok.
  - simpl in Hk. lia.
  - cbn [load_batches]. unfold bind at 1. unfold load_table_from_uri.
    unfold bind at 1. unfold job_result, bind at 1. unfold bq_emit.
    cbn [bq_log bq_jobs]. destruct k as [|k].
    + rewrite Nat.add_0_r in Hf. rewrite Hf. unfold raise.
      cbn [take batch_log]. rewrite <- app_assoc. simpl.
      do 2 f_equal. lia.
    + pose proof (Hok 0%nat ltac:(lia)) as H0. rewrite Nat.add_0_r in H0.
      rewrite H0. unfold ret at 1.
      rewrite (IH _ _ k); cbn [bq_log bq_jobs length] in *; try lia.
      * cbn [take batch_log]. rewrite <- !app_assoc. simpl.
        do 2 f_equal. lia.
      * rewrite <- Hf. f_equal. lia.
      * intros j Hj. rewrite <- (Hok (S j)) by lia. f_equal. lia.
Qed.

Lemma load_files_run (files : list string) (w : bq_world) :
  (∀ j, (j < length files)%nat → job_fails wh (bq_jobs w + j) = false) →
  LocalV2.load_parquet_to_bq wh files w
  = (Ok tt, {| bq_log := bq_log w ++ file_log (bq_jobs w) files;
               bq_jobs := bq_jobs w + length files |}).
Proof.
  revert w. induction files as [|f rest IH]; intros w Hok.
  - destruct w as [l n]. simpl. unfold ret.
    rewrite app_nil_r, Nat.add_0_r. reflexivity.
  - cbn [LocalV2.load_parquet_to_bq]. unfold bind at 1.
    unfold LocalV2.load_table_from_file.
    unfold bind at 1. unfold job_result, bind at 1. unfold bq_emit.
    cbn [bq_log bq_jobs].
    pose proof (Hok 0%nat ltac:(simpl; lia)) as H0. rewrite Nat.add_0_r in H0.
    rewrite H0. unfold ret at 1.
    rewrite IH; cbn [bq_log bq_jobs length] in *.
    + cbn [file_log]. rewrite <- !app_assoc. simpl. do 2 f_equal. lia.
    + intros j Hj. rewrite <- (Hok (S j)) by lia. f_equal. lia.
Qed.

Lemma load_files_fail (files : list string) (w : bq_world) (k : nat) :
  (k < length files)%nat →
  job_fails wh (bq_jobs w + k) = true →
  (∀ j, (j < k)%nat → job_fails wh (bq_jobs w + j) = false) →
  LocalV2.load_parquet_to_bq wh files w
  = (Raise LoadJobError,
     {| bq_log := bq_log w ++ file_log (bq_jobs w) (take (S k) files);
        bq_jobs := bq_jobs w + S k |}).
Proof.
  revert w k. induction files as [|f rest IH]; intros w k Hk Hf Hok.
  - simpl in Hk. lia.
  - cbn [LocalV2.load_parquet_to_bq]. unfold bind at 1.
    unfold LocalV2.load_table_from_file.
    unfold bind at 1. unfold job_result, bind at 1. unfold bq_emit.
    cbn [bq_log bq_jobs]. destruct k as [|k].
    + rewrite Nat.add_0_r in Hf. rewrite Hf. unfold raise.
      cbn [take file_log]. rewrite <- app_assoc. simpl.
      do 2 f_equal. lia.
    + pose proof (Hok 0%nat ltac:(lia)) as H0. rewrite Nat.add_0_r in H0.
      rewrite H0. unfold ret at 1.
      rewrite (IH _ k); cbn [bq_log bq_jobs length] in *; try lia.
      * cbn [take file_log]. rewrite <- !app_assoc. simpl.
        do 2 f_equal. lia.
      * rewrite <- Hf. f_equal. lia.
      * intros j Hj. rewrite <- (Hok (S j)) by lia. f_equal. lia.
Qed.

Lemma file_log_split (k : nat) (a b : list string) :
  file_log k (a ++ b) = file_log k a ++ file_log (k + length a) b.
Proof.
  revert k. induction a as [|x a IH]; intros k; simpl.
  - rewrite Nat.add_0_r. reflexivity.
  - rewrite IH. replace (k + S (length a))%nat with (S k + length a)%nat by lia.
    reflexivity.
Qed.

Lemma load_each_fail (batches : list (list string)) (w : bq_world) (k : nat) :
  (k < length (concat batches))%nat →
  job_fails wh (bq_jobs w + k) = true →
  (∀ j, (j < k)%nat → job_fails wh (bq_jobs w + j) = false) →
  LocalV2.load_each wh batches w
  = (Raise LoadJobError,
     {| bq_log := bq_log w ++ file_log (bq_jobs w) (take (S k) (concat batches));
        bq_jobs := bq_jobs w + S k |}).
Proof.
  revert w k. induction batches as [|b rest IH]; intros w k Hk Hf Hok.
  - simpl in Hk. lia.
  - cbn [LocalV2.load_each concat] in *. unfold bind at 1.
    rewrite length_app in Hk.
    destruct (Nat.lt_ge_cases k (length b)) as [Hin|Hout].
    + rewrite (load_files_fail b w k Hin Hf Hok).
      rewrite take_app_le by lia. reflexivity.
    + rewrite load_files_run by (intros j Hj; apply Hok; lia).
      rewrite (IH _ (k - length b)%nat); cbn [bq_log bq_jobs].
      * rewrite take_app_ge by lia.
        rewrite file_log_split, <- app_assoc.
        replace (S k - length b)%nat with (S (k - length b)) by lia.
        do 2 f_equal. lia.
      * lia.
      * rewrite <- Hf. f_equal. lia.
      * intros j Hj. rewrite <- (Hok (length b + j)%nat) by lia. f_equal. lia.
Qed.

End FailingJobs.

(** X6.  For a positive batch size, the batch of index [k] is the slice of
    the list that starts at [k] times the batch size: no batch is empty, and
    every batch but the last has exactly the batch size. *)
Theorem chunks_are_full_slices (uris : list string) (n : Z) :
  0 < n →
  ∃ batches, Gcs.chunks uris n = Ok batches
    ∧ ∀ (k : nat) b, batches !! k = Some b →
        b = take (Z.to_nat n) (drop (k * Z.to_nat n) uris)
        ∧ (0 < length b)%nat
        ∧ ((S k < length batches)%nat → length b = Z.to_nat n).
Proof.
  intros Hn. unfold Gcs.chunks.
  destruct (Z.eqb_spec n 0); [lia|]. destruct (Z.ltb_spec n 0); [lia|].
  eexists; split; [reflexivity|]. intros k b Hb.
  destruct (chunks_from_lookup _ _ _ _ _ _ Hn (Z.le_refl 0) Hb) as [-> Hlt].
  pose proof (slice_length uris (0 + Z.of_nat k * n) n Hn ltac:(lia) Hlt) as Hlen.
  split; [|split].
  - unfold Gcs.slice. do 2 f_equal. lia.
  - lia.
  - intros Hnext. apply lookup_lt_is_Some_2 in Hnext as [b' Hb'].
    destruct (chunks_from_lookup _ _ _ _ _ _ Hn (Z.le_refl 0) Hb') as [_ Hlt'].
    lia.
Qed.

Lemma chunks_are_full_slices_witness :
  ∃ batches, Gcs.chunks ["a"; "b"; "c"; "d"; "e"] 2 = Ok batches
    ∧ ∀ (k : nat) b, batches !! k = Some b →
        b = take (Z.to_nat 2) (drop (k * Z.to_nat 2) ["a"; "b"; "c"; "d"; "e"])
        ∧ (0 < length b)%nat
        ∧ ((S k < length batches)%nat → length b = Z.to_nat 2).
Proof. apply (chunks_are_full_slices ["a"; "b"; "c"; "d"; "e"] 2). lia. Defined.

(** X7.  [load_parquet_to_bq] of [stage_and_load_to_bq_gcs.py] stops at the
    first load job that fails: the batches up to that one have been
    submitted and waited for, one after the other, the later batches are
    never submitted, the table is not looked up, and the exception of the
    job ends the function. *)
Theorem gcs_load_stops_at_first_failure (B : Z) (wh : Gcs.warehouse)
    (uris : list string) (batches : list (list string)) (k : nat) :
  Gcs.chunks uris B = Ok batches →
  (k < length batches)%nat →
  first_failure wh k →
  Gcs.load_parquet_to_bq_at B wh uris bq_start
  = (Raise LoadJobError,
     {| Gcs.bq_log := batch_log 0 (take (S k) batches); Gcs.bq_jobs := S k |})
  ∧ load_jobs (batch_log 0 (take (S k) batches)) = S k
  ∧ Gcs.GetTable ∉ batch_log 0 (take (S k) batches).
Proof.
  intros Hch Hk [Hf Hok]. split; [|split].
  - unfold Gcs.load_parquet_to_bq_at, bind, lift_result. rewrite Hch.
    rewrite (load_batches_fail wh batches 0 bq_start k Hk Hf Hok). reflexivity.
  - rewrite load_jobs_batch_log, length_take. lia.
  - generalize (take (S k) batches) 0%nat. intros l.
    induction l as [|b l IH]; intros j; cbn [batch_log].
    + apply not_elem_of_nil.
    + rewrite !not_elem_of_cons. repeat split; try discriminate. apply IH.
Qed.

Lemma gcs_load_stops_at_first_failure_witness :
  Gcs.load_parquet_to_bq_at 2 (fails_only 1) ["a"; "b"; "c"; "d"; "e"] bq_start
  = (Raise LoadJobError,
     {| Gcs.bq_log := [Gcs.LoadFromUri ["a"; "b"]; Gcs.JobResult 0;
                       Gcs.LoadFromUri ["c"; "d"]; Gcs.JobResult 1];
        Gcs.bq_jobs := 2 |}).
Proof.
  refine (proj1 (gcs_load_stops_at_first_failure 2 (fails_only 1)
                   ["a"; "b"; "c"; "d"; "e"] [["a"; "b"]; ["c"; "d"]; ["e"]] 1 _ _ _)).
  - reflexivity.
  - simpl. lia.
  - split; [reflexivity|]. intros j Hj. destruct j; [reflexivity | lia].
Defined.

(** X8.  [main] of [stage_and_load_to_bq_local_v2.py], for a positive batch
    size, stops at the first load job that fails: the files up to that one
    have been submitted, one job each, the later files are never submitted,
    and the exception of the job ends the run. *)
Theorem local_load_stops_at_first_failure (B : Z) (wh : Gcs.warehouse)
    (all_files : list string) (k : nat) :
  0 < B →
  (k < length all_files)%nat →
  first_failure wh k →
  LocalV2.main B wh all_files bq_start
  = (Raise LoadJobError,
     {| Gcs.bq_log := file_log 0 (take (S k) all_files); Gcs.bq_jobs := S k |})
  ∧ load_jobs (file_log 0 (take (S k) all_files)) = S k.
Proof.
  intros HB Hk [Hf Hok].
  destruct (chunks_spec all_files B HB) as (batches & Hch & Hcat & _).
  split.
  - unfold LocalV2.main, bind, lift_result. rewrite Hch.
    rewrite (load_each_fail wh batches bq_start k); rewrite ?Hcat; auto.
  - rewrite load_jobs_file_log, length_take. lia.
Qed.

Lemma local_load_stops_at_first_failure_witness :
  LocalV2.main 2 (fails_only 2) ["a"; "b"; "c"; "d"; "e"] bq_start
  = (Raise LoadJobError,
     {| Gcs.bq_log := [Gcs.LoadFromFile "a"; Gcs.JobResult 0;
                       Gcs.LoadFromFile "b"; Gcs.JobResult 1;
                       Gcs.LoadFromFile "c"; Gcs.JobResult 2];
        Gcs.bq_jobs := 3 |}).
Proof.
  refine (proj1 (local_load_stops_at_first_failure 2 (fails_only 2)
                   ["a"; "b"; "c"; "d"; "e"] 2 _ _ _)).
  - lia.
  - simpl. lia.
  - split; [reflexivity|]. intros j Hj.
    destruct j as [|[|j]]; [reflexivity | reflexivity | lia].
Defined.

(** X9.  [main] of [stage_and_load_to_bq_local_v2.py] with a batch size that
    is not positive submits nothing, whatever files there are: a batch size
    of zero ends the run by the [ValueError] of [range], a negative one lets
    it return as if all had been loaded. *)
Theorem local_load_batch_size_not_positive (B : Z) (wh : Gcs.warehouse)
    (all_files : list string) (w : Gcs.bq_world) :
  B ≤ 0 →
  snd (LocalV2.main B wh all_files w) = w
  ∧ (B = 0 → ∃ msg, fst (LocalV2.main B wh all_files w) = Raise (ValueError msg))
  ∧ (B < 0 → fst (LocalV2.main B wh all_files w) = Ok tt).
Proof.
  intros HB. unfold LocalV2.main, bind, lift_result, Gcs.chunks.
  destruct (Z.eqb_spec B 0) as [->|Hne].
  - repeat split; eauto. lia.
  - destruct (Z.ltb_spec B 0); [|lia].
    repeat split; auto. contradiction.
Qed.

Lemma local_load_batch_size_not_positive_witness :
  snd (LocalV2.main (-1) all_jobs_succeed ["a"; "b"] bq_start) = bq_start
  ∧ fst (LocalV2.main (-1) all_jobs_succeed ["a"; "b"] bq_start) = Ok tt.
Proof.
  destruct (local_load_batch_size_not_positive (-1) all_jobs_succeed ["a"; "b"]
              bq_start ltac:(lia)) as (Hw & _ & Hr).
  split; [exact Hw | apply Hr; lia].
Defined.

(** ** The bucket and the prefix *)

Section S3Path.

Lemma string_of_list_ascii_app (a b : list ascii) :
  string_of_list_ascii (a ++ b) = string_of_list_ascii a +:+ string_of_list_ascii b.
Proof. induction a as [|c a IH]; simpl; [reflexivity | rewrite IH; reflexivity]. Qed.

Lemma list_ascii_of_string_app (a b : string) :
  list_ascii_of_string (a +:+ b) = list_ascii_of_string a ++ list_ascii_of_string b.
Proof. induction a as [|c a IH]; simpl; [reflexivity | rewrite IH; reflexivity]. Qed.

Lemma take_until_spec (stop : ascii → bool) (l : list ascii) :
  let '(a, b) := V2.take_until stop l in
  l = a ++ b ∧ forallb (λ c, negb (stop c)) a = true
  ∧ match b with c :: _ => stop c = true | [] => True end.
Proof.
  induction l as [|c r IH]; cbn [V2.take_until]; [auto|].
  destruct (stop c) eqn:E; [auto|].
  destruct (V2.take_until stop r) as [a b]. destruct IH as (-> & Ha & Hb).
  cbn [forallb]. rewrite E. auto.
Qed.

Lemma drop_while_head (f : ascii → bool) (l : list ascii) :
  match drop_while f l with c :: _ => f c = false | [] => True end.
Proof.
  induction l as [|c r IH]; cbn [drop_while]; [exact I|].
  destruct (f c) eqn:E; [exact IH | exact E].
Qed.

Lemma lstrip_slash_head (s : string) : startswith (lstrip_slash s) "/" = false.
Proof.
  unfold lstrip_slash.
  pose proof (drop_while_head is_slash (list_ascii_of_string s)) as H.
  destruct (drop_while is_slash (list_ascii_of_string s)) as [|c r]; [reflexivity|].
  cbn [string_of_list_ascii startswith]. unfold is_slash, slash in H.
  rewrite Ascii.eqb_sym, H. reflexivity.
Qed.

Lemma contains_char_false (s : string) (c : ascii) :
  forallb (λ x, negb (Ascii.eqb x c)) (list_ascii_of_string s) = true →
  contains s (String c "") = false.
Proof.
  induction s as [|x s IH]; cbn [list_ascii_of_string forallb contains startswith];
    [reflexivity|].
  rewrite andb_true_iff, negb_true_iff. intros [Hx Hs].
  rewrite Ascii.eqb_sym, Hx. cbn [andb]. exact (IH Hs).
Qed.

Lemma netloc_holds_no (l : list ascii) (c : ascii) :
  forallb (λ x, negb (Ascii.eqb x "/" || Ascii.eqb x "?" || Ascii.eqb x "#")) l = true →
  (c = "/" ∨ c = "?" ∨ c = "#")%char →
  contains (string_of_list_ascii l) (String c "") = false.
Proof.
  intros H Hc. apply contains_char_false.
  rewrite list_ascii_of_string_of_list_ascii.
  rewrite forallb_forall in *. intros x Hx. specialize (H x Hx).
  rewrite negb_true_iff, !orb_false_iff in H. destruct H as [[H1 H2] H3].
  rewrite negb_true_iff. destruct Hc as [->|[->| ->]]; assumption.
Qed.

Lemma contains_char (l : list ascii) (c : ascii) :
  contains (string_of_list_ascii l) (String c "") = existsb (Ascii.eqb c) l.
Proof.
  induction l as [|x l IH]; [reflexivity|].
  cbn [string_of_list_ascii contains startswith existsb].
  rewrite andb_true_r. destruct (Ascii.eqb c x); [reflexivity | exact IH].
Qed.

(** What [urlparse] returns for a text after [s3://]: a network location
    without [/], [?] and [#], with both brackets or none. *)
Lemma urlparse_s3_ok (rest : list ascii) (netloc path : string) :
  V2.urlparse_s3 rest = Ok (netloc, path) →
  contains netloc "/" = false ∧ contains netloc "?" = false
  ∧ contains netloc "#" = false
  ∧ contains netloc "[" = contains netloc "]".
Proof.
  unfold V2.urlparse_s3.
  match goal with |- context [V2.take_until ?stop ?l] =>
    pose proof (take_until_spec stop l) as Hn;
    destruct (V2.take_until stop l) as [nl after] end.
  destruct Hn as (_ & Hn & _).
  destruct (V2.take_until _ after) as [pth q].
  destruct (xorb _ _) eqn:Hx; [discriminate|].
  destruct (_ && negb (V2.check_bracketed_netloc nl)); [discriminate|].
  intros H. injection H as <- <-.
  split; [apply netloc_holds_no; auto|].
  split; [apply netloc_holds_no; auto|].
  split; [apply netloc_holds_no; auto|].
  rewrite !contains_char. apply xorb_eq. exact Hx.
Qed.

Lemma urlparse_s3_raise (rest : list ascii) (e : exn) :
  V2.urlparse_s3 rest = Raise e → e = ValueError "Invalid IPv6 URL".
Proof.
  unfold V2.urlparse_s3.
  destruct (V2.take_until _ _) as [nl after].
  destruct (V2.take_until _ after) as [pth q].
  destruct (xorb _ _); [intros H; injection H as <-; reflexivity|].
  destruct (_ && negb (V2.check_bracketed_netloc nl)); [|discriminate].
  intros H. injection H as <-. reflexivity.
Qed.

End S3Path.

(** X10.  [parse_s3_path] refuses by [ValueError] a text that does not start
    with [s3://], and raises nothing but [ValueError].  When it returns, the
    bucket holds none of [/], [?] and [#] and has both brackets or none, and
    the key prefix does not start with a separator and is empty or ends
    with one.  A bucket with one bracket is refused; a tab in the text is
    dropped. *)
Theorem parse_s3_path_normal_form (s3_path : string) :
  (startswith s3_path "s3://" = false →
   ∃ msg, V2.parse_s3_path s3_path = Raise (ValueError msg))
  ∧ (∀ e, V2.parse_s3_path s3_path = Raise e → ∃ msg, e = ValueError msg)
  ∧ (∀ bucket key, V2.parse_s3_path s3_path = Ok (bucket, key) →
       startswith s3_path "s3://" = true
       ∧ contains bucket "/" = false ∧ contains bucket "?" = false
       ∧ contains bucket "#" = false
       ∧ contains bucket "[" = contains bucket "]"
       ∧ startswith key "/" = false
       ∧ (key = "" ∨ endswith key "/" = true))
  ∧ V2.parse_s3_path "s3://[bkt/v1/account_id=1/" = Raise (ValueError "Invalid IPv6 URL")
  ∧ V2.parse_s3_path "s3://[bkt]/v1/account_id=1/" = Raise (ValueError "Invalid IPv6 URL")
  ∧ V2.parse_s3_path ("s3://bk" +:+ String "009" "t/v1/account_id=1?x#y")
    = Ok ("bkt", "v1/account_id=1/").
Proof.
  split; [|split; [|split; [|vm_compute; auto]]]; unfold V2.parse_s3_path;
    destruct (startswith s3_path "s3://") eqn:E; cbn [negb];
    try discriminate; eauto.
  - intros e H.
    destruct (V2.urlparse_s3 _) as [[netloc path]|e'] eqn:U; [discriminate|].
    injection H as <-. rewrite (urlparse_s3_raise _ _ U). eauto.
  - intros e H. injection H as <-. eauto.
  - intros bucket key H.
    destruct (V2.urlparse_s3 _) as [[netloc path]|e'] eqn:U; [|discriminate].
    apply urlparse_s3_ok in U as (U1 & U2 & U3 & U4).
    injection H as <- <-.
    split; [reflexivity|]. do 4 (split; [assumption|]).
    pose proof (lstrip_slash_head path) as Hh.
    destruct (lstrip_slash path) as [|c r] eqn:Ek.
    + cbn. auto.
    + destruct (endswith (String c r) "/") eqn:Ee; cbn [truthy String.eqb negb andb].
      * auto.
      * split; [|right; apply endswith_app].
        cbn [startswith] in Hh. simpl String.append. cbn [startswith]. exact Hh.
Qed.

Section AccountBase.

Lemma rx_lit_app (lit : list ascii) (k : V2.rx) (r : list ascii) :
  V2.rx_lit lit k (lit ++ r)
  = match k r with Some m => Some (length lit + m)%nat | None => None end.
Proof.
  induction lit as [|a lit IH]; cbn [V2.rx_lit app length].
  - destruct (k r); reflexivity.
  - rewrite Ascii.eqb_refl. unfold V2.rx_then. rewrite IH.
    destruct (k r); reflexivity.
Qed.

(** [\d+] takes a run of digits that is followed by something else. *)
Lemma rx_digits_run (k : V2.rx) (ds rest : list ascii) (m : nat) :
  ds ≠ [] → forallb is_digit ds = true →
  match rest with c :: _ => is_digit c = false | [] => True end →
  k rest = Some m →
  V2.rx_digits k (ds ++ rest) = Some (length ds + m)%nat.
Proof.
  intros Hne Hd Hrest Hk. induction ds as [|c ds IH]; [contradiction|].
  cbn [forallb] in Hd. apply andb_true_iff in Hd as [Hc Hd].
  cbn [app V2.rx_digits length]. rewrite Hc.
  destruct ds as [|c' ds].
  - cbn [app]. replace (V2.rx_digits k rest) with (@None nat).
    + unfold V2.rx_then. rewrite Hk. reflexivity.
    + destruct rest as [|x rest]; cbn [V2.rx_digits]; [reflexivity|].
      rewrite Hrest. reflexivity.
  - rewrite IH by (auto; discriminate). reflexivity.
Qed.

Lemma re_search_here (r : V2.rx) (s : list ascii) (n : nat) :
  r s = Some n → V2.re_search r s = true.
Proof. intros H. destruct s; cbn [V2.re_search]; rewrite H; reflexivity. Qed.

(** The key prefix of the documented hint, [v1/account_id=<digits>/], is
    taken as the account base. *)
Lemma account_base_found (n : string) :
  digits n = true →
  V2.re_search V2.rx_account_end
    (list_ascii_of_string ("v1/account_id=" +:+ n +:+ "/")) = true.
Proof.
  unfold digits, truthy. rewrite andb_true_iff, negb_true_iff.
  intros [Hne Hd].
  eapply re_search_here.
  rewrite list_ascii_of_string_app. change (list_ascii_of_string "v1/account_id=")
    with V2.account_lit.
  unfold V2.rx_account_end. rewrite rx_lit_app.
  rewrite list_ascii_of_string_app.
  rewrite (rx_digits_run _ _ _ 1).
  - reflexivity.
  - destruct n; [discriminate | discriminate].
  - exact Hd.
  - reflexivity.
  - reflexivity.
Qed.

Lemma validate_typed (account_base partition_type : string) :
  partition_type ∈ type_choices →
  V2.validate_prefix_endswith (typed_prefix account_base partition_type) partition_type
  = Ok tt.
Proof.
  intros Hin. apply validate_ok_iff. unfold type_choices in Hin.
  assert (He : endswith (typed_prefix account_base partition_type)
                 ("type=" +:+ partition_type +:+ "/") = true)
    by apply endswith_app.
  repeat (apply elem_of_cons in Hin as [->|Hin]); [| | |inversion Hin];
    (split; [unfold acceptable; cbn [existsb]; simpl in He; rewrite He;
             rewrite ?orb_true_r; reflexivity|]);
    split; try discriminate; auto.
Qed.

End AccountBase.

(** X11.  With a [--prefix], [compute_bucket_and_prefix] does not look at
    the hint of the credentials exchange: the result is the same for every
    hint.  What it returns is the given prefix, made to end with a
    separator, and the bucket of [--bucket] or else the default bucket,
    never the bucket of the hint.  It does return when the prefix ends with
    the marker of the requested type. *)
Theorem explicit_prefix_wins (env : environment) (a : V2.args) (p : string)
    (hint : option string) :
  V2.prefix a = Some p → truthy p = true →
  (∀ hint', V2.compute_bucket_and_prefix env a hint
            = V2.compute_bucket_and_prefix env a hint')
  ∧ (∀ b pre, V2.compute_bucket_and_prefix env a hint = Ok (b, pre) →
       pre = with_slash p ∧ b = or_else (V2.bucket a) (V2.DEFAULT_BUCKET env))
  ∧ (V2.partition_type a ∈ type_choices →
     endswith (with_slash p) ("type=" +:+ V2.partition_type a +:+ "/") = true →
     V2.compute_bucket_and_prefix env a hint
     = Ok (or_else (V2.bucket a) (V2.DEFAULT_BUCKET env), with_slash p)).
Proof.
  intros Hp Ht. unfold V2.compute_bucket_and_prefix.
  rewrite Hp. cbn [truthy_opt from_option]. unfold id. rewrite Ht.
  fold (with_slash p). split; [reflexivity|]. split.
  - intros b pre H.
    destruct (V2.validate_prefix_endswith (with_slash p) (V2.partition_type a));
      [|discriminate].
    injection H as <- <-. auto.
  - intros Hin He.
    replace (V2.validate_prefix_endswith (with_slash p) (V2.partition_type a))
      with (Ok tt); [reflexivity|].
    symmetry. apply validate_ok_iff. unfold type_choices in Hin.
    repeat (apply elem_of_cons in Hin as [E|Hin]); [| | |inversion Hin];
      rewrite E in *;
      (split; [unfold acceptable; cbn [existsb]; simpl in He; rewrite He;
               rewrite ?orb_true_r; reflexivity|]);
      split; try discriminate; auto.
Qed.

Lemma explicit_prefix_wins_witness :
  let a := {| V2.auth := "optimizely"; V2.pat := Some "token"; V2.bucket := None;
              V2.prefix := Some "v1/account_id=1/type=events";
              V2.account_id := Some "2"; V2.partition_type := "events";
              V2.out_dir := "downloads";
              V2.start_date := "2024-10-30"; V2.end_date := "2024-10-31";
              V2.dry_run := false; V2.require_success := true |} in
  V2.compute_bucket_and_prefix (quiet_env []) a (Some "s3://other-bucket/v1/account_id=3/")
  = Ok ("optimizely-events-data", "v1/account_id=1/type=events/").
Proof.
  intros a.
  refine (proj2 (proj2 (explicit_prefix_wins (quiet_env []) a
                          "v1/account_id=1/type=events"
                          (Some "s3://other-bucket/v1/account_id=3/")
                          eq_refl eq_refl)) _ _).
  - unfold type_choices. cbn [V2.partition_type a]. set_solver.
  - reflexivity.
Defined.

(** X12.  Without a [--prefix], a hint that parses to the key prefix
    [v1/account_id=<digits>/] gives the account base: the prefix returned is
    that key prefix followed by [type=<type>/], whatever [--account-id]
    says, and the bucket is that of [--bucket], or else of the hint, or else
    the default bucket.  A hint that [parse_s3_path] refuses counts for
    nothing: the result is that of a run without a hint. *)
Theorem prefix_from_hint (env : environment) (a : V2.args) (hint : string) :
  truthy_opt (V2.prefix a) = false →
  V2.partition_type a ∈ type_choices →
  (∀ b n, V2.parse_s3_path hint = Ok (b, "v1/account_id=" +:+ n +:+ "/") →
          digits n = true →
          V2.compute_bucket_and_prefix env a (Some hint)
          = Ok (or_else (V2.bucket a) (or_else (Some b) (V2.DEFAULT_BUCKET env)),
                typed_prefix ("v1/account_id=" +:+ n +:+ "/") (V2.partition_type a)))
  ∧ (∀ e, V2.parse_s3_path hint = Raise e →
          V2.compute_bucket_and_prefix env a (Some hint)
          = V2.compute_bucket_and_prefix env a None).
Proof.
  intros Hp Hin. split.
  - intros b n Hparse Hn.
    pose proof (account_base_found n Hn) as Hfound.
    assert (Hk : truthy ("v1/account_id=" +:+ n +:+ "/") = true) by reflexivity.
    assert (Hh : truthy hint = true).
    { destruct hint; [discriminate | reflexivity]. }
    pose proof (validate_typed ("v1/account_id=" +:+ n +:+ "/") _ Hin) as Hv.
    unfold typed_prefix in *.
    remember ("v1/account_id=" +:+ n +:+ "/") as k eqn:Ek.
    unfold V2.compute_bucket_and_prefix. rewrite Hp, Hh, Hparse.
    cbn [fmap option_fmap option_map fst snd].
    rewrite Hk, Hfound.
    do 3 (cbn [andb negb truthy_opt from_option]; rewrite ?Hk).
    unfold id. rewrite Hv. reflexivity.
  - intros e Hparse. unfold V2.compute_bucket_and_prefix. rewrite Hp, Hparse.
    destruct (truthy hint); reflexivity.
Qed.

Lemma prefix_from_hint_witness :
  let a := {| V2.auth := "optimizely"; V2.pat := Some "token"; V2.bucket := None;
              V2.prefix := None;
              V2.account_id := Some "999"; V2.partition_type := "decisions";
              V2.out_dir := "downloads";
              V2.start_date := "2024-10-30"; V2.end_date := "2024-10-31";
              V2.dry_run := false; V2.require_success := true |} in
  V2.compute_bucket_and_prefix (quiet_env []) a
    (Some "s3://optimizely-events-data/v1/account_id=123")
  = Ok ("optimizely-events-data", "v1/account_id=123/type=decisions/")
  ∧ V2.compute_bucket_and_prefix (quiet_env []) a
      (Some "s3://[optimizely-events-data/v1/account_id=123")
    = V2.compute_bucket_and_prefix (quiet_env []) a None.
Proof.
  intros a.
  assert (Hin : V2.partition_type a ∈ type_choices).
  { unfold type_choices. cbn [V2.partition_type a]. set_solver. }
  split.
  - exact (proj1 (prefix_from_hint (quiet_env []) a
                    "s3://optimizely-events-data/v1/account_id=123" eq_refl Hin)
             "optimizely-events-data" "123" eq_refl eq_refl).
  - exact (proj2 (prefix_from_hint (quiet_env []) a
                    "s3://[optimizely-events-data/v1/account_id=123" eq_refl Hin)
             (ValueError "Invalid IPv6 URL") eq_refl).
Defined.

(** X13.  Without a [--prefix] and without a hint, the prefix is built from
    [--account-id], as [v1/account_id=<id>/type=<type>/], in the bucket of
    [--bucket] or else the default bucket; without an account id there is
    nothing to go on and the function raises [RuntimeError]. *)
Theorem prefix_without_hint (env : environment) (a : V2.args) :
  truthy_opt (V2.prefix a) = false →
  V2.partition_type a ∈ type_choices →
  V2.compute_bucket_and_prefix env a None
  = match V2.account_id a with
    | Some acct =>
        if truthy acct
        then Ok (or_else (V2.bucket a) (V2.DEFAULT_BUCKET env),
                 typed_prefix ("v1/account_id=" +:+ acct +:+ "/") (V2.partition_type a))
        else Raise no_account_base
    | None => Raise no_account_base
    end.
Proof.
  intros Hp Hin. unfold V2.compute_bucket_and_prefix. rewrite Hp.
  cbn [fmap option_fmap option_map truthy_opt negb andb].
  destruct (V2.account_id a) as [acct|]; cbn [truthy_opt]; [|reflexivity].
  destruct (truthy acct) eqn:Hid; cbn [negb andb truthy_opt]; [|reflexivity].
  assert (Hk : truthy ("v1/account_id=" +:+ acct +:+ "/") = true) by reflexivity.
  pose proof (validate_typed ("v1/account_id=" +:+ acct +:+ "/") _ Hin) as Hv.
  unfold typed_prefix in *. cbn [from_option]. unfold id.
  remember ("v1/account_id=" +:+ acct +:+ "/") as k eqn:Ek.
  rewrite Hk. cbn [negb]. rewrite Hv. reflexivity.
Qed.

Lemma prefix_without_hint_witness :
  let a := {| V2.auth := "aws"; V2.pat := None; V2.bucket := Some "my-bucket";
              V2.prefix := None;
              V2.account_id := Some "123"; V2.partition_type := "events";
              V2.out_dir := "downloads";
              V2.start_date := "2024-10-30"; V2.end_date := "2024-10-31";
              V2.dry_run := false; V2.require_success := true |} in
  V2.compute_bucket_and_prefix (quiet_env []) a None
  = Ok ("my-bucket", "v1/account_id=123/type=events/").
Proof.
  intros a.
  refine (prefix_without_hint (quiet_env []) a eq_refl _).
  unfold type_choices. cbn [V2.partition_type a]. set_solver.
Defined.

(** ** The collection of [load_optimizely_decisions_v2.py] *)

Section Days.

Variable env : environment.

(** The probe of the marker when the request gets through. *)
Lemma success_marker_quiet (Hq : no_fault env) bucket prefix d w :
  success_marker_exists env bucket (V2.date_prefix_of prefix d) w
  = (Ok (has_marker env bucket prefix d),
     mk_world (fs w) (net_log w ++ [HeadObject bucket (marker_key prefix d)])).
Proof.
  unfold success_marker_exists, try_except, head_object, bind, has_marker.
  fold (marker_key prefix d). rewrite request_returns by exact Hq.
  destruct (remote_size env bucket (marker_key prefix d)); reflexivity.
Qed.

Lemma collect_day_quiet (Hq : no_fault env) bucket prefix rs d acc w :
  ∃ w', V2.collect_day env bucket prefix rs d acc w
        = (Ok (acc ++ day_taken env bucket prefix rs d), w')
        ∧ fs w' = fs w.
Proof.
  unfold V2.collect_day, bind. rewrite success_marker_quiet by exact Hq.
  unfold day_taken. rewrite (andb_comm rs).
  destruct (negb (has_marker env bucket prefix d) && rs).
  { eexists. rewrite app_nil_r. split; reflexivity. }
  unfold list_objects, bind. rewrite request_returns by exact Hq.
  unfold ret. fold (day_parquet env bucket prefix d).
  destruct (day_parquet env bucket prefix d) as [|o l]; cbn [is_nil].
  - eexists. rewrite app_nil_r. split; reflexivity.
  - eexists. split; reflexivity.
Qed.

Lemma collect_days_quiet (Hq : no_fault env) bucket prefix rs days acc w :
  ∃ w', for_each days (V2.collect_day env bucket prefix rs) acc w
        = (Ok (acc ++ flat_map (day_taken env bucket prefix rs) days), w')
        ∧ fs w' = fs w.
Proof.
  revert acc w. induction days as [|d days IH]; intros acc w.
  - exists w. cbn. rewrite app_nil_r. auto.
  - cbn [for_each flat_map]. unfold bind.
    destruct (collect_day_quiet Hq bucket prefix rs d acc w) as (w1 & -> & Hw1).
    destruct (IH (acc ++ day_taken env bucket prefix rs d) w1) as (w2 & -> & Hw2).
    exists w2. rewrite <- app_assoc. split; [reflexivity | congruence].
Qed.

(** A day loop that goes through the last date of the calendar ends by the
    overflow of the addition. *)
Lemma daterange_loop_overflows (fuel : nat) (d : date) :
  valid_date d = true →
  day_rank date_max + 1 - day_rank d ≤ Z.of_nat fuel →
  snd (daterange_loop fuel d date_max) = Some OverflowError.
Proof.
  revert d. induction fuel as [|fuel IH]; intros d Hd Hf.
  - pose proof (rank_le_max d Hd). lia.
  - cbn [daterange_loop].
    assert (Hle : date_le d date_max = true).
    { apply date_le_rank; [exact Hd | reflexivity | apply rank_le_max, Hd]. }
    rewrite Hle. destruct (add_day d) as [d'|e] eqn:Ha.
    + destruct (add_day_ok d d' Hd Ha) as (Hv & Hlt & _).
      specialize (IH d' Hv ltac:(lia)).
      destruct (daterange_loop fuel d' date_max) as [l e]. exact IH.
    + destruct (add_day_raise d e Hd Ha) as [-> _]. reflexivity.
Qed.

Lemma for_generated_raises {S A B} (gen : list A * option exn)
    (body : A → B → M S B) (acc : B) (s : S) (e : exn) :
  snd gen = Some e →
  (∃ e', fst (for_generated gen body acc s) = Raise e')
  ∧ (is_ok (fst (for_each (fst gen) body acc s)) = true →
     fst (for_generated gen body acc s) = Raise e).
Proof.
  intros He. unfold for_generated, bind. rewrite He.
  destruct (for_each (fst gen) body acc s) as [[a|e'] s1]; cbn; eauto.
  split; [eauto | discriminate].
Qed.

(** The listing of a day makes one request, however it ends. *)
Lemma day_listing_log bucket date_prefix (acc : list s3obj) w :
  net_log (snd ((do listed <- list_objects env bucket date_prefix;
                 let day_objs := List.filter (λ o, endswith (Key o) ".parquet") listed in
                 if is_nil day_objs then ret acc else ret (acc ++ day_objs)) w))
  = net_log w ++ [ListObjectsV2 bucket date_prefix].
Proof.
  unfold list_objects, bind, request, ret.
  destruct (net_fault env (length (net_log w))); [reflexivity|].
  match goal with |- context [is_nil ?l] => destruct (is_nil l) end; reflexivity.
Qed.

End Days.

(** X14.  A day whose marker probe fails is left out when the marker is
    required, whatever made the probe fail (no marker, or a fault of the
    request): the list collected so far is kept as it is and the day is not
    listed.  When the marker is not required the probe is requested all the
    same, and the listing of the day after it. *)
Theorem day_without_marker_is_skipped (env : environment) (bucket prefix : string)
    (d : date) (all_objects : list s3obj) (w : world) (e : exn) :
  fst (head_object env bucket (marker_key prefix d) w) = Raise e →
  V2.collect_day env bucket prefix true d all_objects w
  = (Ok all_objects,
     mk_world (fs w) (net_log w ++ [HeadObject bucket (marker_key prefix d)]))
  ∧ net_log (snd (V2.collect_day env bucket prefix false d all_objects w))
    = net_log w ++ [HeadObject bucket (marker_key prefix d);
                    ListObjectsV2 bucket (V2.date_prefix_of prefix d)].
Proof.
  intros Hp.
  assert (Hs : success_marker_exists env bucket (V2.date_prefix_of prefix d) w
               = (Ok false,
                  mk_world (fs w)
                    (net_log w ++ [HeadObject bucket (marker_key prefix d)]))).
  { revert Hp. unfold success_marker_exists, try_except.
    fold (marker_key prefix d). unfold head_object, bind, request, raise, ret.
    destruct (net_fault env (length (net_log w))) as [x|]; cbn [fst].
    - intros _. rewrite fault_is_Exception. reflexivity.
    - destruct (remote_size env bucket (marker_key prefix d)); [discriminate|].
      reflexivity. }
  unfold V2.collect_day. unfold bind at 1. unfold bind at 2. rewrite Hs.
  cbn [negb andb]. split; [reflexivity|].
  etransitivity;
    [apply (day_listing_log env bucket (V2.date_prefix_of prefix d) all_objects)|].
  cbn [net_log]. rewrite <- app_assoc. reflexivity.
Qed.

(** A throttled probe: the marker is in the bucket, the day is left out. *)
Lemma day_without_marker_is_skipped_witness :
  let contents := [mk_obj "p/date=2024-10-30/_SUCCESS" 0;
                   mk_obj "p/date=2024-10-30/part-0.parquet" 10] in
  let env := {| bucket_contents := λ _, contents;
                net_fault := λ n, if Nat.eqb n 0 then Some SlowDown else None;
                cred_reply := NoReply; getenv := λ _, None; dir_size := 4096;
                human_size_fault := λ _, None |} in
  V2.collect_day env "bucket" "p/" true (mk_date 2024 10 30) [] empty_world
  = (Ok [], mk_world ∅ [HeadObject "bucket" "p/date=2024-10-30/_SUCCESS"]).
Proof.
  intros contents env.
  refine (proj1 (day_without_marker_is_skipped env "bucket" "p/" (mk_date 2024 10 30)
                   [] empty_world (ClientError "503") _)).
  reflexivity.
Defined.

(** X15.  When every request gets through and the range does not end on the
    last date of the calendar, the collection returns, day after day in
    ascending order, the Parquet objects of the bucket under the prefix of
    the day, in listing order; with the marker required, those of the days
    whose marker object is in the bucket.  The file system is not touched. *)
Theorem collection_is_complete (env : environment) (bucket prefix : string)
    (require_success : bool) (start end_ : date) (w : world) :
  no_fault env →
  valid_date start = true → valid_date end_ = true → end_ ≠ date_max →
  ∃ w', V2.collect env bucket prefix require_success start end_ w
        = (Ok (flat_map (day_taken env bucket prefix require_success)
                 (fst (daterange start end_))), w')
        ∧ fs w' = fs w.
Proof.
  intros Hq Hs He Hmax.
  destruct (daterange_exact start end_ Hs He) as (_ & _ & _ & [Hend|[_ Hend]]);
    [|contradiction].
  unfold V2.collect, for_generated, bind.
  destruct (collect_days_quiet env Hq bucket prefix require_success
              (fst (daterange start end_)) [] w) as (w' & -> & Hw).
  rewrite Hend. exists w'. split; [reflexivity | exact Hw].
Qed.

Lemma collection_is_complete_witness :
  let contents :=
    [mk_obj "p/date=2024-10-30/_SUCCESS" 0;
     mk_obj "p/date=2024-10-30/part-0.parquet" 10;
     mk_obj "p/date=2024-10-30/part-0.crc" 1;
     mk_obj "p/date=2024-10-31/part-0.parquet" 20] in
  ∃ w', V2.collect (quiet_env contents) "bucket" "p/" true
          (mk_date 2024 10 30) (mk_date 2024 10 31) empty_world
        = (Ok (flat_map (day_taken (quiet_env contents) "bucket" "p/" true)
                 (fst (daterange (mk_date 2024 10 30) (mk_date 2024 10 31)))), w')
        ∧ fs w' = fs empty_world.
Proof.
  intros contents.
  apply (collection_is_complete (quiet_env contents) "bucket" "p/" true
           (mk_date 2024 10 30) (mk_date 2024 10 31) empty_world).
  - intros n. reflexivity.
  - reflexivity.
  - reflexivity.
  - discriminate.
Defined.

(** X16.  A range that ends on the last date of the calendar,
    [9999-12-31], cannot be collected: [daterange] yields every day of the
    range and then ends by the [OverflowError] of [d += timedelta(days=1)],
    so that the day loops of both scripts end by an exception, this one
    when every request got through. *)
Theorem range_to_the_last_date_raises (env : environment) (bucket prefix : string)
    (require_success : bool) (start : date) (w : world) :
  valid_date start = true →
  snd (daterange start date_max) = Some OverflowError
  ∧ (∃ e, fst (V2.collect env bucket prefix require_success start date_max w)
          = Raise e)
  ∧ (∃ e, fst (Extract.list_by_day_if_partitioned env bucket prefix start date_max w)
          = Raise e)
  ∧ (no_fault env →
     fst (V2.collect env bucket prefix require_success start date_max w)
     = Raise OverflowError
     ∧ fst (Extract.list_by_day_if_partitioned env bucket prefix start date_max w)
       = Raise OverflowError).
Proof.
  intros Hs.
  assert (Hov : snd (daterange start date_max) = Some OverflowError).
  { unfold daterange. apply daterange_loop_overflows; [exact Hs | lia]. }
  split; [exact Hov|].
  split; [apply (for_generated_raises _ _ _ _ _ Hov)|].
  split; [apply (for_generated_raises _ _ _ _ _ Hov)|].
  intros Hq. split.
  - apply (for_generated_raises _ _ _ _ _ Hov).
    apply for_each_returns. intros x acc s _.
    apply collect_day_returns. exact Hq.
  - apply (for_generated_raises _ _ _ _ _ Hov).
    apply for_each_returns. intros x acc s _. unfold bind.
    pose proof (list_objects_returns env Hq bucket (Extract.ymd_path_for prefix x) s) as Hl.
    unfold Extract.list_s3_objects.
    destruct (list_objects env bucket _ s) as [[listed|e] s1]; [reflexivity|discriminate].
Qed.

Lemma range_to_the_last_date_raises_witness :
  fst (V2.collect (quiet_env []) "bucket" "p/" false (mk_date 9999 12 30) date_max
         empty_world)
  = Raise OverflowError.
Proof.
  refine (proj1 (proj2 (proj2 (proj2
            (range_to_the_last_date_raises (quiet_env []) "bucket" "p/" false
               (mk_date 9999 12 30) empty_world eq_refl))) _)).
  intros n. reflexivity.
Defined.

(** ** Runs of [main] of [load_optimizely_decisions_v2.py] *)

Section MainStages.

Variable env : environment.

Lemma fromisoformat_valid s d : fromisoformat s = Ok d → valid_date d = true.
Proof.
  unfold fromisoformat, new_date.
  repeat match goal with
         | |- context [match ?x with _ => _ end] => destruct x eqn:?
         end; intros E; inversion E; subst; assumption.
Qed.

Lemma compute_raises (a : V2.args) hint e :
  V2.compute_bucket_and_prefix env a hint = Raise e → is_Exception e = true.
Proof.
  unfold V2.compute_bucket_and_prefix.
  destruct (truthy_opt (V2.prefix a)).
  - match goal with |- context [V2.validate_prefix_endswith ?p ?t] =>
      destruct (validate_cases p t) as [(E & _ & _)|[msg E]]; rewrite E end;
      intros R; inversion R; reflexivity.
  - cbv zeta.
    match goal with |- context [if negb (truthy_opt ?ab) then _ else _] =>
      destruct (negb (truthy_opt ab)) end; [intros R; inversion R; reflexivity|].
    match goal with |- context [V2.validate_prefix_endswith ?p ?t] =>
      destruct (validate_cases p t) as [(E & _ & _)|[msg E]]; rewrite E end;
      intros R; inversion R; reflexivity.
Qed.

(** A run ends early, or gets to the day loop with the dates, the bucket
    and the prefix, having made at most the request of the credentials
    exchange. *)
Lemma main_stages (a : V2.args) (w : world) :
  (early_end (fst (V2.main env a w))
   ∧ fs (snd (V2.main env a w)) = fs w
   ∧ (net_log (snd (V2.main env a w)) = net_log w
      ∨ net_log (snd (V2.main env a w)) = net_log w ++ [credentials_request]))
  ∨ ∃ start end_ hint bucket prefix w1,
      fromisoformat (V2.start_date a) = Ok start
      ∧ fromisoformat (V2.end_date a) = Ok end_
      ∧ date_lt end_ start = false
      ∧ V2.compute_bucket_and_prefix env a hint = Ok (bucket, prefix)
      ∧ fs w1 = fs w
      ∧ (net_log w1 = net_log w ∨ net_log w1 = net_log w ++ [credentials_request])
      ∧ V2.main env a w = main_from_day_loop env a bucket prefix start end_ w1.
Proof.
  unfold early_end.
  unfold V2.main, main_from_day_loop, bind, try_except, lift_result, ret,
    sys_exit_msg, raise.
  destruct (fromisoformat (V2.start_date a)) as [start|e1] eqn:E1.
  2: { left. rewrite (fromisoformat_raises _ _ E1). cbn. repeat split; eauto. }
  destruct (fromisoformat (V2.end_date a)) as [end_|e2] eqn:E2.
  2: { left. rewrite (fromisoformat_raises _ _ E2). cbn. repeat split; eauto. }
  destruct (date_lt end_ start) eqn:Hd.
  { left. cbn. repeat split; eauto. }
  destruct (String.eqb (V2.auth a) "optimizely").
  - destruct (negb (truthy_opt (if truthy_opt (V2.pat a) then V2.pat a
                                else getenv env "OPTIMIZELY_PAT"))).
    { left. cbn. repeat split; eauto. }
    destruct (s3_client_via_optimizely_cases env w) as (Hw & [[hint Hr]|[msg Hr]]).
    + destruct (V2.s3_client_via_optimizely env w) as [r1 w1].
      cbn [fst snd] in Hw, Hr. subst r1 w1.
      destruct (V2.compute_bucket_and_prefix env a hint) as [[bucket prefix]|e] eqn:Hc.
      * right. exists start, end_, hint, bucket, prefix,
          (mk_world (fs w) (net_log w ++ [credentials_request])).
        repeat split; eauto.
      * left. rewrite (compute_raises _ _ _ Hc). cbn. repeat split; eauto.
    + destruct (V2.s3_client_via_optimizely env w) as [r1 w1].
      cbn [fst snd] in Hw, Hr. subst r1 w1. left. cbn. repeat split; eauto.
  - destruct (negb (truthy_opt (getenv env "AWS_ACCESS_KEY_ID")
                    && truthy_opt (getenv env "AWS_SECRET_ACCESS_KEY"))).
    { left. cbn. repeat split; eauto. }
    destruct (V2.compute_bucket_and_prefix env a None) as [[bucket prefix]|e] eqn:Hc.
    + right. exists start, end_, None, bucket, prefix, w.
      repeat split; eauto.
    + left. rewrite (compute_raises _ _ _ Hc). cbn. repeat split; eauto.
Qed.

End MainStages.

Section DayLoop.

Variable env : environment.

Lemma probes_only_refl w : probes_only w w.
Proof. split; [reflexivity|]. exists []. rewrite app_nil_r. auto. Qed.

Lemma probes_only_trans w w1 w2 :
  probes_only w w1 → probes_only w1 w2 → probes_only w w2.
Proof.
  intros (F1 & L1 & E1 & P1) (F2 & L2 & E2 & P2). split; [congruence|].
  exists (L1 ++ L2). rewrite E2, E1, app_assoc. split; [reflexivity|].
  apply Forall_app. auto.
Qed.

Lemma probes_only_request e w :
  is_download e = false → probes_only w (snd (request env e w)).
Proof.
  intros He. unfold request.
  destruct (net_fault env (length (net_log w))); cbn [snd];
    (split; [reflexivity|]; exists [e]; split; [reflexivity|]; repeat constructor;
     exact He).
Qed.

Lemma probes_only_marker bucket date_prefix w :
  probes_only w (snd (success_marker_exists env bucket date_prefix w)).
Proof.
  pose proof (probes_only_request (HeadObject bucket (date_prefix +:+ "_SUCCESS")) w
                eq_refl) as H.
  unfold success_marker_exists, try_except, head_object, bind.
  destruct (request env _ w) as [[[]|e] w1]; cbn [snd] in *.
  - unfold raise, ret. destruct (remote_size env bucket _); exact H.
  - destruct (is_Exception e); exact H.
Qed.

Lemma probes_only_listing bucket prefix w :
  probes_only w (snd (list_objects env bucket prefix w)).
Proof.
  pose proof (probes_only_request (ListObjectsV2 bucket prefix) w eq_refl) as H.
  unfold list_objects, bind.
  destruct (request env _ w) as [[[]|e] w1]; exact H.
Qed.

Lemma probes_only_day bucket prefix rs d acc w :
  probes_only w (snd (V2.collect_day env bucket prefix rs d acc w)).
Proof.
  unfold V2.collect_day, bind.
  pose proof (probes_only_marker bucket (V2.date_prefix_of prefix d) w) as H1.
  destruct (success_marker_exists env bucket _ w) as [[has|e] w1]; cbn [snd] in *;
    [|exact H1].
  destruct (negb has && rs); [exact H1|].
  pose proof (probes_only_listing bucket (V2.date_prefix_of prefix d) w1) as H2.
  destruct (list_objects env bucket _ w1) as [[listed|e] w2]; cbn [snd] in *.
  - destruct (is_nil _); eapply probes_only_trans; eassumption.
  - eapply probes_only_trans; eassumption.
Qed.

Lemma probes_only_days bucket prefix rs days acc w :
  probes_only w (snd (for_each days (V2.collect_day env bucket prefix rs) acc w)).
Proof.
  revert acc w. induction days as [|d days IH]; intros acc w.
  - apply probes_only_refl.
  - cbn [for_each]. unfold bind.
    pose proof (probes_only_day bucket prefix rs d acc w) as H1.
    destruct (V2.collect_day env bucket prefix rs d acc w) as [[acc1|e] w1];
      cbn [snd] in *; [|exact H1].
    eapply probes_only_trans; [exact H1 | apply IH].
Qed.

Lemma probes_only_collect bucket prefix rs start end_ w :
  probes_only w (snd (V2.collect env bucket prefix rs start end_ w)).
Proof.
  unfold V2.collect, for_generated, bind.
  pose proof (probes_only_days bucket prefix rs (fst (daterange start end_)) [] w) as H.
  destruct (for_each _ _ [] w) as [[acc|e] w1]; cbn [snd] in *; [|exact H].
  destruct (snd (daterange start end_)); exact H.
Qed.



Lemma elem_of_sort_by_key o objs : o ∈ sort_by_key objs ↔ o ∈ objs.
Proof. unfold sort_by_key. rewrite merge_sort_Permutation. reflexivity. Qed.




(** What the day loop and the transfer add to the log, however the run
    ends. *)
Lemma day_loop_log (a : V2.args) bucket prefix start end_ w1 :
  ∃ Lc Lt,
    net_log (snd (main_from_day_loop env a bucket prefix start end_ w1))
    = net_log w1 ++ Lc ++ Lt
    ∧ Forall (λ e, is_download e = false) Lc
    ∧ (Lt = []
       ∨ ∃ objs w2,
           V2.collect env bucket prefix (V2.require_success a) start end_ w1
           = (Ok objs, w2)
           ∧ V2.dry_run a = false
           ∧ Forall (download_of passed_inline bucket (V2.out_dir a)
                       (sort_by_key objs)) Lt).
Proof.
  unfold main_from_day_loop. unfold bind at 1.
  destruct (probes_only_collect bucket prefix (V2.require_success a) start end_ w1)
    as (_ & Lc & HLc & HPc).
  destruct (V2.collect env bucket prefix _ start end_ w1) as [[objs|e] w2] eqn:Hc;
    cbn [snd] in *.
  2: { exists Lc, []. rewrite app_nil_r. auto. }
  destruct (is_nil objs).
  { exists Lc, []. rewrite app_nil_r. auto. }
  cbv zeta. unfold bind at 1. unfold lift_result.
  destruct (V2.human_size env _) as [[]|e].
  2: { exists Lc, []. rewrite app_nil_r. auto. }
  unfold bind, V2.transfer_inline. fold passed_inline.
  destruct (transfer_log env passed_inline (V2.human_size env) bucket (V2.out_dir a)
              (V2.dry_run a) (sort_by_key objs) w2) as (Lt & HLt & HPt & HD).
  exists Lc, Lt.
  destruct (transfer env passed_inline (V2.human_size env) bucket (sort_by_key objs)
              (V2.out_dir a) (V2.dry_run a) w2) as [[c|e] w3]; cbn [snd] in *.
  - assert (Hlog : net_log w3 = net_log w1 ++ Lc ++ Lt)
      by (rewrite HLt, HLc, app_assoc; reflexivity).
    destruct c as [[ok sk] fl].
    destruct (0 <? fl); cbn [snd sys_exit raise ret];
      (split; [exact Hlog|]; split; [exact HPc|]);
      (destruct (V2.dry_run a); [left; auto | right; eauto]).
  - split; [rewrite HLt, HLc, app_assoc; reflexivity|]. split; [exact HPc|].
    destruct (V2.dry_run a); [left; auto | right; eauto].
Qed.

End DayLoop.

(** X17.  With dates that are read, [main] ends by [sys.exit] with a
    message, exit status 1, before it has made a request or touched the
    file system, when the end date is earlier than the start date, when
    [--auth optimizely] has no token from [--pat] or [OPTIMIZELY_PAT], and
    when an other [--auth] lacks one of the two AWS keys in the
    environment. *)
Theorem configuration_errors_end_early (env : environment) (a : V2.args)
    (w : world) (start end_ : date) :
  fromisoformat (V2.start_date a) = Ok start →
  fromisoformat (V2.end_date a) = Ok end_ →
  (date_lt end_ start = true →
   V2.main env a w
   = (Raise (SystemExit 1 "ERROR: --end-date cannot be earlier than --start-date"), w))
  ∧ (date_lt end_ start = false → V2.auth a = "optimizely" →
     truthy_opt (V2.pat a) = false →
     truthy_opt (getenv env "OPTIMIZELY_PAT") = false →
     V2.main env a w
     = (Raise (SystemExit 1 "ERROR: --pat is required for --auth optimizely (or set OPTIMIZELY_PAT)"), w))
  ∧ (date_lt end_ start = false → V2.auth a ≠ "optimizely" →
     truthy_opt (getenv env "AWS_ACCESS_KEY_ID")
     && truthy_opt (getenv env "AWS_SECRET_ACCESS_KEY") = false →
     V2.main env a w
     = (Raise (SystemExit 1 "ERROR: Missing AWS_ACCESS_KEY_ID / AWS_SECRET_ACCESS_KEY for --auth aws"), w)).
Proof.
  intros E1 E2.
  unfold V2.main, bind, try_except, lift_result, ret, sys_exit_msg, raise.
  rewrite E1, E2. split; [|split].
  - intros ->. reflexivity.
  - intros -> -> Hp Hg. cbn [String.eqb Ascii.eqb Bool.eqb].
    rewrite Hp, Hg. reflexivity.
  - intros -> Ha Hk. apply String.eqb_neq in Ha. rewrite Ha, Hk. reflexivity.
Qed.

Lemma configuration_errors_end_early_witness :
  V2.main (quiet_env []) (aws_args "p/type=decisions/" "2024-10-30" "2024-10-31" false)
    empty_world
  = (Raise (SystemExit 1 "ERROR: Missing AWS_ACCESS_KEY_ID / AWS_SECRET_ACCESS_KEY for --auth aws"),
     empty_world).
Proof.
  refine (proj2 (proj2 (configuration_errors_end_early (quiet_env [])
                          (aws_args "p/type=decisions/" "2024-10-30" "2024-10-31" false)
                          empty_world (mk_date 2024 10 30) (mk_date 2024 10 31)
                          eq_refl eq_refl)) eq_refl _ eq_refl).
  discriminate.
Defined.



(** X19.  Whatever a run of [main] downloads, it downloads from the bucket
    it has computed, in a run that is not a dry run, to the local path of
    the key under the output directory, and the key is that of a Parquet
    object under the prefix of a day of the range. *)
Theorem main_downloads_stay_in_range (env : environment) (a : V2.args)
    (w : world) (b key path : string) :
  DownloadFile b key path ∈ net_log (snd (V2.main env a w)) →
  DownloadFile b key path ∈ net_log w
  ∨ (V2.dry_run a = false
     ∧ endswith key ".parquet" = true
     ∧ path = local_path_of (V2.out_dir a) key
     ∧ ∃ start end_ hint prefix d,
         fromisoformat (V2.start_date a) = Ok start
         ∧ fromisoformat (V2.end_date a) = Ok end_
         ∧ V2.compute_bucket_and_prefix env a hint = Ok (b, prefix)
         ∧ valid_date d = true ∧ in_range start end_ d
         ∧ startswith key (V2.date_prefix_of prefix d) = true).
Proof.
  intros Hin.
  assert (Hcred : ∀ l, DownloadFile b key path ∈ l ++ [credentials_request] →
                       DownloadFile b key path ∈ l).
  { intros l H. apply elem_of_app in H as [H|H]; [exact H|].
    apply list_elem_of_singleton in H. discriminate. }
  destruct (main_stages env a w) as [(_ & _ & [Hl|Hl])|H].
  { left. rewrite Hl in Hin. exact Hin. }
  { left. rewrite Hl in Hin. apply Hcred, Hin. }
  destruct H as (start & end_ & hint & bucket & prefix & w1 & E1 & E2 & Hd & Hc
                 & _ & Hl1 & Hrun).
  rewrite Hrun in Hin.
  destruct (day_loop_log env a bucket prefix start end_ w1)
    as (Lc & Lt & HL & HPc & HLt).
  rewrite HL in Hin. apply elem_of_app in Hin as [Hin|Hin].
  { left. destruct Hl1 as [Hl1|Hl1]; rewrite Hl1 in Hin; [exact Hin | apply Hcred, Hin]. }
  apply elem_of_app in Hin as [Hin|Hin].
  { rewrite Forall_forall in HPc. specialize (HPc _ Hin). discriminate. }
  destruct HLt as [->|(objs & w2 & Hcol & Hdry & HPt)]; [inversion Hin|].
  rewrite Forall_forall in HPt. destruct (HPt _ Hin) as (o & Ho & _ & Heq).
  injection Heq as -> -> ->. apply (proj1 (elem_of_sort_by_key _ _)) in Ho.
  destruct (collect_ok env _ _ _ _ _ _ _ _ Hcol o Ho) as (d & Hday & Hpre & Hpq).
  destruct (daterange_exact start end_ (fromisoformat_valid _ _ E1)
              (fromisoformat_valid _ _ E2)) as (Hvis & _).
  destruct (Hvis d Hday) as (Hv & Hlo & Hhi).
  right. repeat split; auto.
  exists start, end_, hint, prefix, d. repeat split; auto.
Qed.

Lemma main_downloads_stay_in_range_witness :
  let env := aws_env two_days in
  let a := aws_args "p/type=decisions/" "2024-10-30" "2024-11-01" false in
  let key := "p/type=decisions/date=2024-11-01/part-0.parquet" in
  V2.dry_run a = false
  ∧ endswith key ".parquet" = true
  ∧ "downloads/p/type=decisions/date=2024-11-01/part-0.parquet"
    = local_path_of (V2.out_dir a) key
  ∧ ∃ start end_ hint prefix d,
      fromisoformat (V2.start_date a) = Ok start
      ∧ fromisoformat (V2.end_date a) = Ok end_
      ∧ V2.compute_bucket_and_prefix env a hint
        = Ok ("optimizely-events-data", prefix)
      ∧ valid_date d = true ∧ in_range start end_ d
      ∧ startswith key (V2.date_prefix_of prefix d) = true.
Proof.
  intros env a key.
  destruct (main_downloads_stay_in_range env a empty_world "optimizely-events-data" key
              "downloads/p/type=decisions/date=2024-11-01/part-0.parquet") as [H|H].
  - replace (net_log (snd (V2.main env a empty_world)))
      with [HeadObject "optimizely-events-data" "p/type=decisions/date=2024-10-30/_SUCCESS";
            ListObjectsV2 "optimizely-events-data" "p/type=decisions/date=2024-10-30/";
            HeadObject "optimizely-events-data" "p/type=decisions/date=2024-10-31/_SUCCESS";
            HeadObject "optimizely-events-data" "p/type=decisions/date=2024-11-01/_SUCCESS";
            ListObjectsV2 "optimizely-events-data" "p/type=decisions/date=2024-11-01/";
            DownloadFile "optimizely-events-data"
              "p/type=decisions/date=2024-10-30/part-0.parquet"
              "downloads/p/type=decisions/date=2024-10-30/part-0.parquet";
            DownloadFile "optimizely-events-data"
              "p/type=decisions/date=2024-11-01/part-0.parquet"
              "downloads/p/type=decisions/date=2024-11-01/part-0.parquet"]
      by (vm_compute; reflexivity).
    set_solver.
  - inversion H.
  - exact H.
Defined.

(** ** The collection of [extract_optimizely_s3.py] *)

Section DateHeuristic.

Lemma digit_val_bounds c : is_digit c = true → 0 ≤ digit_val c ≤ 9.
Proof.
  unfold is_digit, digit_val. rewrite andb_true_iff, !Z.leb_le. lia.
Qed.

Lemma rx_year_bounds {A} (k : matcher A) s y x n :
  rx_year k s = Some ((y, x), n) → 2000 ≤ y ≤ 2099.
Proof.
  unfold rx_year. destruct s as [|a [|b [|c [|d r]]]]; try discriminate.
  destruct (Ascii.eqb a "2" && Ascii.eqb b "0" && is_digit c && is_digit d) eqn:E;
    [|discriminate].
  apply andb_true_iff in E as [E Hd]. apply andb_true_iff in E as [_ Hc].
  destruct (k r) as [[x' n']|]; [|discriminate].
  intros H. injection H as <- _ _.
  pose proof (digit_val_bounds c Hc). pose proof (digit_val_bounds d Hd).
  unfold two_digits. lia.
Qed.

Lemma finditer_years skip prev s y md :
  (y, md) ∈ finditer skip prev s → 2000 ≤ y ≤ 2099.
Proof.
  revert skip prev. induction s as [|c r IH]; intros skip prev H.
  - inversion H.
  - cbn [finditer] in H. destruct skip as [|k]; [|exact (IH _ _ H)].
    destruct prev; [exact (IH _ _ H)|].
    destruct (rx_date (c :: r)) as [[[y' md'] n]|] eqn:E; [|exact (IH _ _ H)].
    apply elem_of_cons in H as [H|H]; [|exact (IH _ _ H)].
    injection H as -> _. exact (rx_year_bounds _ _ _ _ _ E).
Qed.

Lemma extracted_dates_years ms x :
  (∀ y md, (y, md) ∈ ms → 2000 ≤ y ≤ 2099) →
  x ∈ extracted_dates ms → 2000 ≤ year x ≤ 2099.
Proof.
  induction ms as [|[y [mth d]] rest IH]; cbn [extracted_dates]; intros Hy H;
    [inversion H|].
  assert (Hrest : ∀ y0 md, (y0, md) ∈ rest → 2000 ≤ y0 ≤ 2099)
    by (intros y0 md Hin; apply (Hy y0 md); right; exact Hin).
  unfold new_date in H. destruct (valid_date (mk_date y mth d)); [|exact (IH Hrest H)].
  apply elem_of_cons in H as [->|H]; [|exact (IH Hrest H)].
  cbn [year]. apply (Hy y (mth, d)). left.
Qed.

End DateHeuristic.

(** X20.  The date heuristic of the full scan knows the years 2000 to 2099
    only: every date it reads in a key is a calendar date of these years,
    and for a range that ends before 2000 or starts after 2099 it lets no
    key through. *)
Theorem scan_knows_one_century (key : string) (start end_ : date) :
  (∀ x, x ∈ dates_in_key key → valid_date x = true ∧ 2000 ≤ year x ≤ 2099)
  ∧ (year end_ < 2000 ∨ 2099 < year start →
     key_has_date_in_range key start end_ = false).
Proof.
  assert (Hd : ∀ x, x ∈ dates_in_key key → valid_date x = true ∧ 2000 ≤ year x ≤ 2099).
  { intros x Hx. split; [exact (extracted_dates_valid _ _ Hx)|].
    apply (extracted_dates_years _ x (finditer_years 0 false _) Hx). }
  split; [exact Hd|]. intros Hout.
  destruct (key_has_date_in_range key start end_) eqn:E; [|reflexivity].
  apply any_in_range_spec in E as (x & Hx & H1 & H2).
  destruct (Hd x Hx) as [_ Hy].
  apply date_le_spec in H1, H2. lia.
Qed.

Section ExtractCollection.

Variable env : environment.
Hypothesis Hq : no_fault env.

Lemma list_objects_quiet bucket prefix w :
  list_objects env bucket prefix w
  = (Ok (under env bucket prefix),
     mk_world (fs w) (net_log w ++ [ListObjectsV2 bucket prefix])).
Proof.
  unfold list_objects, bind. rewrite request_returns by exact Hq. reflexivity.
Qed.

Lemma list_days_quiet bucket base_prefix days acc w :
  ∃ w', for_each days
          (λ d acc, do objs <- Extract.list_s3_objects env bucket
                                 (Extract.ymd_path_for base_prefix d);
                    ret (acc ++ objs)) acc w
        = (Ok (acc ++ flat_map (λ d, under env bucket
                                       (Extract.ymd_path_for base_prefix d)) days), w')
        ∧ fs w' = fs w.
Proof.
  revert acc w. induction days as [|d days IH]; intros acc w.
  - exists w. cbn. rewrite app_nil_r. auto.
  - cbn [for_each flat_map]. unfold bind at 1. unfold bind at 1.
    unfold Extract.list_s3_objects at 1. rewrite list_objects_quiet. unfold ret at 1.
    destruct (IH (acc ++ under env bucket (Extract.ymd_path_for base_prefix d))
                (mk_world (fs w)
                   (net_log w ++ [ListObjectsV2 bucket
                                    (Extract.ymd_path_for base_prefix d)])))
      as (w2 & -> & Hw2).
    exists w2. rewrite <- app_assoc. split; [reflexivity | exact Hw2].
Qed.

Lemma list_by_day_quiet bucket base_prefix start end_ w :
  snd (daterange start end_) = None →
  ∃ w', Extract.list_by_day_if_partitioned env bucket base_prefix start end_ w
        = (Ok (flat_map (λ d, under env bucket (Extract.ymd_path_for base_prefix d))
                 (fst (daterange start end_))), w')
        ∧ fs w' = fs w.
Proof.
  intros Hend. unfold Extract.list_by_day_if_partitioned, for_generated.
  unfold bind at 1.
  destruct (list_days_quiet bucket base_prefix (fst (daterange start end_)) [] w)
    as (w2 & -> & Hw2).
  rewrite Hend. exists w2. split; [reflexivity | exact Hw2].
Qed.

End ExtractCollection.

(** X21.  When every request gets through and the range does not end on
    the last date of the calendar, [main] of [extract_optimizely_s3.py]
    collects the objects of the day folders [prefix/YYYY/MM/DD/] of the
    range, day after day, when no full scan is forced and there is an
    object under the folder of the first day; otherwise it collects the
    objects under the prefix whose key passes the date heuristic, even if
    later days have their folder.  The file system is not touched. *)
Theorem extract_collection (env : environment) (a : Extract.args)
    (start end_ : date) (w : world) :
  no_fault env →
  valid_date start = true → valid_date end_ = true → end_ ≠ date_max →
  ∃ w', Extract.collect env a start end_ w = (Ok (extract_taken env a start end_), w')
        ∧ fs w' = fs w.
Proof.
  intros Hq Hs He Hmax.
  destruct (daterange_exact start end_ Hs He) as (_ & _ & _ & [Hend|[_ Hend]]);
    [|contradiction].
  unfold Extract.collect, extract_taken. fold (extract_prefix a).
  unfold bind at 1.
  destruct (Extract.force_scan a); cbn [orb].
  - unfold ret at 1. unfold bind. unfold Extract.list_s3_objects.
    rewrite list_objects_quiet by exact Hq. eexists. split; reflexivity.
  - unfold try_except, Extract.try_detect_partitioning, bind,
      Extract.list_s3_objects.
    rewrite list_objects_quiet by exact Hq. unfold ret at 1.
    destruct (is_nil (under env (Extract.bucket a)
                        (Extract.ymd_path_for (extract_prefix a) start))); cbn [negb].
    + rewrite list_objects_quiet by exact Hq. eexists. split; reflexivity.
    + destruct (list_by_day_quiet env Hq (Extract.bucket a) (extract_prefix a)
                  start end_
                  (mk_world (fs w)
                     (net_log w ++ [ListObjectsV2 (Extract.bucket a)
                                      (Extract.ymd_path_for (extract_prefix a) start)]))
                  Hend)
        as (w2 & -> & Hw2).
      exists w2. split; [reflexivity | exact Hw2].
Qed.

(** The folder of the first day is empty: the folders of the later days are
    not looked at, and the object of the second day is found by its key. *)
Lemma extract_collection_witness :
  let contents := [mk_obj "events/2024/10/31/part-0.parquet" 10;
                   mk_obj "events/other/part-1.parquet" 20] in
  let a := {| Extract.bucket := "bucket"; Extract.prefix := "events/";
              Extract.out_dir := "downloads";
              Extract.start_date := "2024-10-30"; Extract.end_date := "2024-10-31";
              Extract.dry_run := false; Extract.force_scan := false |} in
  extract_taken (quiet_env contents) a (mk_date 2024 10 30) (mk_date 2024 10 31)
  = [mk_obj "events/2024/10/31/part-0.parquet" 10]
  ∧ ∃ w', Extract.collect (quiet_env contents) a (mk_date 2024 10 30)
            (mk_date 2024 10 31) empty_world
          = (Ok (extract_taken (quiet_env contents) a (mk_date 2024 10 30)
                   (mk_date 2024 10 31)), w')
          ∧ fs w' = fs empty_world.
Proof.
  intros contents a. split; [vm_compute; reflexivity|].
  apply (extract_collection (quiet_env contents) a (mk_date 2024 10 30)
           (mk_date 2024 10 31) empty_world).
  - intros n. reflexivity.
  - reflexivity.
  - reflexivity.
  - discriminate.
Defined.

(** ** Staging: [stage_and_load_to_bq_gcs.py] *)

Section Buckets.
Import Stage.

Variable env : stage_env.

Lemma cloud_request_cases e w :
  cloud_request env e w
  = (Ok tt, mk_cloud (buckets w) (datasets w) (blobs w) (cloud_log w ++ [e]) (bq w))
  ∨ ∃ x, cloud_request env e w
         = (Raise (exn_of_fault x),
            mk_cloud (buckets w) (datasets w) (blobs w) (cloud_log w ++ [e]) (bq w)).
Proof.
  unfold cloud_request. destruct (cloud_fault env (length (cloud_log w))); eauto.
Qed.

Lemma cloud_request_quiet (Hq : quiet_cloud env) e w :
  cloud_request env e w
  = (Ok tt, mk_cloud (buckets w) (datasets w) (blobs w) (cloud_log w ++ [e]) (bq w)).
Proof. unfold cloud_request. rewrite Hq. reflexivity. Qed.

Lemma fault_is_not_NotFound x : is_NotFound (exn_of_fault x) = false.
Proof. destruct x; reflexivity. Qed.

End Buckets.

(** X22.  [ensure_bucket] gets the bucket or creates it.  When it returns,
    the bucket is there; a bucket that was there has kept its location,
    whatever location was asked for, at the cost of one request; a bucket
    that was not there has been created in the location asked for, by a
    second request.  Nothing else has changed.  When it raises, no bucket
    has been created, and the exception is not [NotFound]. *)
Theorem ensure_bucket_gets_or_creates (env : Stage.stage_env)
    (bucket_name location : string) (w : Stage.cloud) :
  match Stage.ensure_bucket env bucket_name location w with
  | (Ok b, w') =>
      b = bucket_name
      ∧ Stage.buckets w'
        = (match Stage.buckets w !! bucket_name with
           | Some _ => Stage.buckets w
           | None => <[bucket_name := location]> (Stage.buckets w)
           end)
      ∧ Stage.cloud_log w'
        = Stage.cloud_log w
          ++ (match Stage.buckets w !! bucket_name with
              | Some _ => [Stage.GetBucket bucket_name]
              | None => [Stage.GetBucket bucket_name;
                         Stage.CreateBucket bucket_name location]
              end)
      ∧ Stage.datasets w' = Stage.datasets w
      ∧ Stage.blobs w' = Stage.blobs w
      ∧ Stage.bq w' = Stage.bq w
  | (Raise e, w') =>
      Stage.is_NotFound e = false
      ∧ Stage.buckets w' = Stage.buckets w
      ∧ Stage.datasets w' = Stage.datasets w
      ∧ Stage.blobs w' = Stage.blobs w
      ∧ Stage.bq w' = Stage.bq w
  end.
Proof.
  unfold Stage.ensure_bucket, Stage.try_except_NotFound, Stage.get_bucket,
    Stage.create_bucket, bind.
  destruct (cloud_request_cases env (Stage.GetBucket bucket_name) w) as [->|[x ->]].
  2: { rewrite fault_is_not_NotFound. cbn. repeat split; auto using fault_is_not_NotFound. }
  cbn [Stage.buckets].
  destruct (Stage.buckets w !! bucket_name) as [loc|] eqn:Hb.
  { cbn. repeat split; auto using fault_is_not_NotFound. }
  cbn [Stage.is_NotFound Stage.NotFound String.eqb Ascii.eqb Bool.eqb].
  match goal with |- context [Stage.cloud_request env ?e ?w0] =>
    destruct (cloud_request_cases env e w0) as [->|[x ->]] end.
  2: { cbn. rewrite fault_is_not_NotFound. repeat split; auto using fault_is_not_NotFound. }
  cbn [Stage.buckets]. rewrite Hb. cbn. rewrite <- app_assoc. repeat split; auto.
Qed.

Section Uploads.
Import Stage.

Variable env : stage_env.
Variables (bucket gcs_prefix : string).

Lemma staging_only_refl w : staging_only w w.
Proof. repeat split. exists []. rewrite app_nil_r. reflexivity. Qed.

Lemma staging_only_trans w w1 w2 :
  staging_only w w1 → staging_only w1 w2 → staging_only w w2.
Proof.
  intros (B1 & D1 & Q1 & L1 & E1) (B2 & D2 & Q2 & L2 & E2).
  repeat split; try congruence.
  exists (L1 ++ L2). rewrite E2, E1, app_assoc. reflexivity.
Qed.

Ltac close_round :=
  cbn; rewrite <- ?app_assoc;
  repeat split; eauto; try discriminate; try congruence;
  try (intros; apply lookup_insert_ne; congruence);
  try (intros ? E; injection E as <-; reflexivity);
  try (intros; apply lookup_insert_eq);
  try (intros; assumption);
  try (intros; eexists; split; [reflexivity|]; repeat constructor).

(** One round of the loop, however it ends. *)
Lemma upload_one_effect f uris w r w' :
  upload_one env bucket gcs_prefix f uris w = (r, w') →
  staging_only w w'
  ∧ (∀ bk, bk ≠ (bucket, gcs_key_of gcs_prefix f) → blobs w' !! bk = blobs w !! bk)
  ∧ (∀ uris', r = Ok uris' →
       uris' = uris ++ [uri_of bucket gcs_prefix f] ∧ staged w' bucket gcs_prefix f)
  ∧ (staged w bucket gcs_prefix f →
     blobs w' = blobs w
     ∧ ∃ L, cloud_log w' = cloud_log w ++ L ∧ Forall (λ e, is_upload e = false) L).
Proof.
  unfold upload_one, blob_exists, blob_reload, upload_from_filename, staged,
    staging_only.
  set (k := gcs_key_of gcs_prefix f).
  unfold bind, ret.
  destruct (cloud_request_cases env (BlobExists bucket k) w) as [->|[x ->]].
  2: { intros H. injection H as <- <-. close_round. }
  cbn [blobs buckets datasets bq cloud_log].
  destruct (blobs w !! (bucket, k)) as [n|] eqn:Hb.
  - rewrite bool_decide_eq_true_2 by eauto.
    match goal with |- context [cloud_request env ?e ?w0] =>
      destruct (cloud_request_cases env e w0) as [->|[x ->]] end.
    2: { intros H. injection H as <- <-. close_round. }
    cbn [blobs buckets datasets bq cloud_log]. rewrite Hb.
    destruct (Z.eqb_spec n (st_size f)) as [->|Hne]; cbn [negb].
    + intros H. injection H as <- <-. close_round.
    + match goal with |- context [cloud_request env ?e ?w0] =>
        destruct (cloud_request_cases env e w0) as [->|[x ->]] end.
      2: { intros H. injection H as <- <-. close_round. }
      cbn [blobs buckets datasets bq cloud_log].
      destruct (buckets w !! bucket); intros H; injection H as <- <-; close_round.
  - rewrite bool_decide_eq_false_2 by (intros [? ?]; discriminate).
    match goal with |- context [cloud_request env ?e ?w0] =>
      destruct (cloud_request_cases env e w0) as [->|[x ->]] end.
    2: { intros H. injection H as <- <-. close_round. }
    cbn [blobs buckets datasets bq cloud_log].
    destruct (buckets w !! bucket); intros H; injection H as <- <-; close_round.
Qed.

(** The loop of [upload_to_gcs], however it ends. *)
Lemma upload_loop_effect files uris w r w' :
  for_each files (upload_one env bucket gcs_prefix) uris w = (r, w') →
  staging_only w w'
  ∧ (∀ bk, (∀ f, f ∈ files → bk ≠ (bucket, gcs_key_of gcs_prefix f)) →
           blobs w' !! bk = blobs w !! bk)
  ∧ (∀ uris', r = Ok uris' →
       uris' = uris ++ (uri_of bucket gcs_prefix <$> files)
       ∧ (keys_apart gcs_prefix files →
          ∀ f, f ∈ files → staged w' bucket gcs_prefix f)).
Proof.
  revert uris w. induction files as [|f rest IH]; intros uris w H.
  - injection H as <- <-. split; [apply staging_only_refl|]. split; [auto|].
    intros uris' E. injection E as <-. rewrite app_nil_r.
    split; [reflexivity|]. intros _ f Hf. inversion Hf.
  - cbn [for_each] in H. unfold bind in H.
    destruct (upload_one env bucket gcs_prefix f uris w) as [[uris1|e] w1] eqn:E1.
    + destruct (upload_one_effect f uris w _ _ E1) as (S1 & O1 & R1 & _).
      destruct (R1 uris1 eq_refl) as [-> St1].
      destruct (IH _ _ H) as (S2 & O2 & R2).
      split; [eapply staging_only_trans; eassumption|]. split.
      * intros bk Hbk. rewrite O2 by (intros g Hg; apply Hbk; right; exact Hg).
        apply O1, Hbk. left.
      * intros uris' ->. destruct (R2 uris' eq_refl) as [-> St2].
        split; [rewrite <- app_assoc; reflexivity|].
        intros Hk g Hg. unfold keys_apart in Hk. cbn [fmap list_fmap] in Hk.
        apply NoDup_cons in Hk as [Hf Hk].
        apply elem_of_cons in Hg as [->|Hg]; [|apply St2; assumption].
        unfold staged in *. rewrite O2; [exact St1|].
        intros g Hg E. apply Hf. injection E as ->.
        apply list_elem_of_fmap. eauto.
    + injection H as <- <-.
      destruct (upload_one_effect f uris w _ _ E1) as (S1 & O1 & _).
      split; [exact S1|]. split; [|discriminate].
      intros bk Hbk. apply O1, Hbk. left.
Qed.

(** A round on a file that is staged, when the requests get through. *)
Lemma upload_one_skips (Hq : quiet_cloud env) f uris w :
  staged w bucket gcs_prefix f →
  upload_one env bucket gcs_prefix f uris w
  = (Ok (uris ++ [uri_of bucket gcs_prefix f]),
     mk_cloud (buckets w) (datasets w) (blobs w)
       (cloud_log w ++ [BlobExists bucket (gcs_key_of gcs_prefix f);
                        BlobReload bucket (gcs_key_of gcs_prefix f)])
       (bq w)).
Proof.
  unfold staged. intros Hs.
  unfold upload_one, blob_exists, blob_reload, bind, ret.
  rewrite cloud_request_quiet by exact Hq. cbn [blobs buckets datasets bq cloud_log].
  rewrite bool_decide_eq_true_2 by eauto.
  rewrite cloud_request_quiet by exact Hq. cbn [blobs buckets datasets bq cloud_log].
  rewrite Hs, Z.eqb_refl. cbn [negb]. rewrite <- app_assoc. reflexivity.
Qed.

Lemma upload_loop_skips (Hq : quiet_cloud env) files uris w :
  (∀ f, f ∈ files → staged w bucket gcs_prefix f) →
  ∃ w', for_each files (upload_one env bucket gcs_prefix) uris w
        = (Ok (uris ++ (uri_of bucket gcs_prefix <$> files)), w')
        ∧ blobs w' = blobs w
        ∧ ∃ L, cloud_log w' = cloud_log w ++ L
               ∧ Forall (λ e, is_upload e = false) L
               ∧ length L = (2 * length files)%nat.
Proof.
  revert uris w. induction files as [|f rest IH]; intros uris w Hs.
  - exists w. cbn. rewrite app_nil_r. repeat split.
    exists []. rewrite app_nil_r. auto.
  - cbn [for_each]. unfold bind.
    rewrite (upload_one_skips Hq) by (apply Hs; left).
    destruct (IH (uris ++ [uri_of bucket gcs_prefix f])
                (mk_cloud (buckets w) (datasets w) (blobs w)
                   (cloud_log w ++ [BlobExists bucket (gcs_key_of gcs_prefix f);
                                    BlobReload bucket (gcs_key_of gcs_prefix f)])
                   (bq w)))
      as (w' & -> & Hb & L & HL & HF & Hlen).
    { intros g Hg. unfold staged. cbn [blobs]. apply Hs. right. exact Hg. }
    exists w'. cbn [fmap list_fmap]. rewrite <- app_assoc. split; [reflexivity|].
    split; [exact Hb|].
    exists ([BlobExists bucket (gcs_key_of gcs_prefix f);
             BlobReload bucket (gcs_key_of gcs_prefix f)] ++ L).
    rewrite HL. cbn [cloud_log]. rewrite <- app_assoc. split; [reflexivity|].
    split; [repeat constructor; exact HF|].
    rewrite length_app. cbn [length]. lia.
Qed.

(** A round returns when the requests get through and the bucket is
    there. *)
Lemma upload_one_returns (Hq : quiet_cloud env) f uris w :
  is_Some (buckets w !! bucket) →
  is_ok (fst (upload_one env bucket gcs_prefix f uris w)) = true.
Proof.
  intros [loc Hb].
  unfold upload_one, blob_exists, blob_reload, upload_from_filename, bind, ret.
  rewrite cloud_request_quiet by exact Hq. cbn [blobs buckets datasets bq cloud_log].
  destruct (blobs w !! (bucket, gcs_key_of gcs_prefix f)) as [n|] eqn:Hn.
  - rewrite bool_decide_eq_true_2 by eauto.
    rewrite cloud_request_quiet by exact Hq. cbn [blobs buckets datasets bq cloud_log].
    rewrite Hn. destruct (negb (n =? st_size f)); [|reflexivity].
    rewrite cloud_request_quiet by exact Hq. cbn [blobs buckets datasets bq cloud_log].
    rewrite Hb. reflexivity.
  - rewrite bool_decide_eq_false_2 by (intros [? ?]; discriminate).
    rewrite cloud_request_quiet by exact Hq. cbn [blobs buckets datasets bq cloud_log].
    rewrite Hb. reflexivity.
Qed.

Lemma upload_loop_returns (Hq : quiet_cloud env) files uris w :
  is_Some (buckets w !! bucket) →
  is_ok (fst (for_each files (upload_one env bucket gcs_prefix) uris w)) = true.
Proof.
  revert uris w. induction files as [|f rest IH]; intros uris w Hb; [reflexivity|].
  cbn [for_each]. unfold bind.
  pose proof (upload_one_returns Hq f uris w Hb) as Hr.
  destruct (upload_one env bucket gcs_prefix f uris w) as [[uris1|e] w1] eqn:E1;
    [|discriminate].
  apply IH. destruct (upload_one_effect f uris w _ _ E1) as ((B & _) & _).
  rewrite B. exact Hb.
Qed.

End Uploads.

(** X23.  When [upload_to_gcs] returns, it returns one reference per local
    file, [gs://<bucket>/<prefix without trailing separators>/<relative
    path>], in the order of the files, for the files it has uploaded and for
    those it has skipped alike.  It has touched no blob but those of the
    files, and no bucket or dataset; when the files go to different blobs,
    the blob of every file is there with the size of the file. *)
Theorem upload_stages_every_file (env : Stage.stage_env) (bucket gcs_prefix : string)
    (w : Stage.cloud) (uris : list string) (w' : Stage.cloud) :
  Stage.upload_to_gcs env bucket gcs_prefix w = (Ok uris, w') →
  uris = (Stage.uri_of bucket gcs_prefix <$> Stage.local_parquet env)
  ∧ staging_only w w'
  ∧ (∀ bk, (∀ f, f ∈ Stage.local_parquet env →
                 bk ≠ (bucket, Stage.gcs_key_of gcs_prefix f)) →
           Stage.blobs w' !! bk = Stage.blobs w !! bk)
  ∧ (keys_apart gcs_prefix (Stage.local_parquet env) →
     ∀ f, f ∈ Stage.local_parquet env → staged w' bucket gcs_prefix f).
Proof.
  intros H. unfold Stage.upload_to_gcs in H.
  destruct (upload_loop_effect env bucket gcs_prefix _ _ _ _ _ H) as (S & O & R).
  destruct (R uris eq_refl) as [-> St]. auto.
Qed.

(** Two files, the first of them in the bucket already. *)
Lemma upload_stages_every_file_witness :
  let files := [Stage.mk_local_file "downloads/a/x.parquet" "a/x.parquet" 10;
                Stage.mk_local_file "downloads/b/y.parquet" "b/y.parquet" 20] in
  let w := Stage.mk_cloud {["bucket" := "EU"]} ∅ {[("bucket", "events/a/x.parquet") := 10]}
             [] bq_start in
  let w' := snd (Stage.upload_to_gcs (quiet_stage files) "bucket" "events/" w) in
  Stage.cloud_log w'
  = [Stage.BlobExists "bucket" "events/a/x.parquet";
     Stage.BlobReload "bucket" "events/a/x.parquet";
     Stage.BlobExists "bucket" "events/b/y.parquet";
     Stage.UploadFromFilename "bucket" "events/b/y.parquet" "downloads/b/y.parquet"]
  ∧ ["gs://bucket/events/a/x.parquet"; "gs://bucket/events/b/y.parquet"]
    = (Stage.uri_of "bucket" "events/" <$> files).
Proof.
  intros files w w'. split; [vm_compute; reflexivity|].
  refine (proj1 (upload_stages_every_file (quiet_stage files) "bucket" "events/" w
                   ["gs://bucket/events/a/x.parquet"; "gs://bucket/events/b/y.parquet"]
                   w' _)).
  vm_compute. reflexivity.
Defined.

(** X24.  A second run of [upload_to_gcs] over the same files, after a
    first one that returned, uploads nothing when its requests get through:
    it asks for every blob and its size, two requests a file, finds the
    sizes equal, and returns the same references; the blobs are as they
    were.  The files are taken to go to different blobs. *)
Theorem second_upload_skips_all (env env2 : Stage.stage_env)
    (bucket gcs_prefix : string) (w : Stage.cloud) (uris : list string)
    (w' : Stage.cloud) :
  keys_apart gcs_prefix (Stage.local_parquet env) →
  Stage.upload_to_gcs env bucket gcs_prefix w = (Ok uris, w') →
  Stage.local_parquet env2 = Stage.local_parquet env →
  quiet_cloud env2 →
  ∃ w'', Stage.upload_to_gcs env2 bucket gcs_prefix w' = (Ok uris, w'')
         ∧ Stage.blobs w'' = Stage.blobs w'
         ∧ ∃ L, Stage.cloud_log w'' = Stage.cloud_log w' ++ L
                ∧ Forall (λ e, is_upload e = false) L
                ∧ length L = (2 * length (Stage.local_parquet env))%nat.
Proof.
  intros Hk H Hfiles Hq. unfold Stage.upload_to_gcs in *.
  destruct (upload_loop_effect env bucket gcs_prefix _ _ _ _ _ H) as (_ & _ & R).
  destruct (R uris eq_refl) as [-> St]. rewrite Hfiles.
  destruct (upload_loop_skips env2 bucket gcs_prefix Hq (Stage.local_parquet env) [] w'
              (St Hk)) as (w'' & E & Hb & HL).
  exists w''. auto.
Qed.

Lemma second_upload_skips_all_witness :
  let files := [Stage.mk_local_file "downloads/a/x.parquet" "a/x.parquet" 10;
                Stage.mk_local_file "downloads/b/y.parquet" "b/y.parquet" 20] in
  let w := Stage.mk_cloud {["bucket" := "EU"]} ∅ ∅ [] bq_start in
  let w' := snd (Stage.upload_to_gcs (quiet_stage files) "bucket" "events/" w) in
  ∃ w'', Stage.upload_to_gcs (quiet_stage files) "bucket" "events/" w'
         = (Ok ["gs://bucket/events/a/x.parquet"; "gs://bucket/events/b/y.parquet"], w'')
         ∧ Stage.blobs w'' = Stage.blobs w'
         ∧ ∃ L, Stage.cloud_log w'' = Stage.cloud_log w' ++ L
                ∧ Forall (λ e, is_upload e = false) L
                ∧ length L = (2 * length files)%nat.
Proof.
  intros files w w'.
  refine (second_upload_skips_all (quiet_stage files) (quiet_stage files) "bucket"
            "events/" w _ w' _ _ eq_refl _).
  - apply (bool_decide_unpack _). vm_compute. exact I.
  - vm_compute. reflexivity.
  - intros n. reflexivity.
Defined.

Section StageMain.
Import Stage.

Variable env : stage_env.

(** The bucket and the dataset are got or created without a blob or the
    warehouse being touched, however the requests end. *)
Lemma ensure_bucket_keeps bucket_name location w :
  let w' := snd (ensure_bucket env bucket_name location w) in
  datasets w' = datasets w ∧ blobs w' = blobs w ∧ bq w' = bq w
  ∧ (is_ok (fst (ensure_bucket env bucket_name location w)) = true →
     fst (ensure_bucket env bucket_name location w) = Ok bucket_name
     ∧ is_Some (buckets w' !! bucket_name)).
Proof.
  unfold ensure_bucket, try_except_NotFound, get_bucket, create_bucket, bind.
  destruct (cloud_request_cases env (GetBucket bucket_name) w) as [->|[x ->]].
  2: { rewrite fault_is_not_NotFound. cbn. repeat split; auto; discriminate. }
  cbn [buckets].
  destruct (buckets w !! bucket_name) as [loc|] eqn:Hb.
  { cbn. repeat split; eauto. }
  cbn [is_NotFound NotFound String.eqb Ascii.eqb Bool.eqb].
  match goal with |- context [cloud_request env ?e ?w0] =>
    destruct (cloud_request_cases env e w0) as [->|[x ->]] end.
  2: { cbn. repeat split; auto; discriminate. }
  cbn [buckets]. rewrite Hb. cbn. repeat split; auto.
  rewrite lookup_insert_eq. eauto.
Qed.

Lemma ensure_dataset_keeps project_id dataset_id location w :
  let w' := snd (ensure_dataset env project_id dataset_id location w) in
  buckets w' = buckets w ∧ blobs w' = blobs w ∧ bq w' = bq w
  ∧ (is_ok (fst (ensure_dataset env project_id dataset_id location w)) = true →
     is_Some (datasets w' !! (project_id +:+ "." +:+ dataset_id))).
Proof.
  unfold ensure_dataset, try_except_NotFound, get_dataset, create_dataset.
  unfold bind at 1.
  destruct (dataset_ref_error env).
  { cbn. repeat split; auto; discriminate. }
  unfold bind.
  match goal with |- context [cloud_request env ?e ?w0] =>
    destruct (cloud_request_cases env e w0) as [->|[x ->]] end.
  2: { rewrite fault_is_not_NotFound. cbn. repeat split; auto; discriminate. }
  cbn [datasets].
  destruct (datasets w !! _) as [loc|] eqn:Hb.
  { cbn. rewrite ?Hb. repeat split; eauto. }
  cbn [is_NotFound NotFound String.eqb Ascii.eqb Bool.eqb].
  match goal with |- context [cloud_request env ?e ?w0] =>
    destruct (cloud_request_cases env e w0) as [->|[x ->]] end.
  2: { cbn. repeat split; auto; discriminate. }
  cbn [datasets]. rewrite Hb. cbn. repeat split; auto.
  rewrite lookup_insert_eq. eauto.
Qed.

Lemma ensure_bucket_returns (Hq : quiet_cloud env) bucket_name location w :
  is_ok (fst (ensure_bucket env bucket_name location w)) = true.
Proof.
  unfold ensure_bucket, try_except_NotFound, get_bucket, create_bucket, bind.
  rewrite cloud_request_quiet by exact Hq. cbn [buckets].
  destruct (buckets w !! bucket_name) as [loc|] eqn:Hb; [reflexivity|].
  cbn [is_NotFound NotFound String.eqb Ascii.eqb Bool.eqb].
  rewrite cloud_request_quiet by exact Hq. cbn [buckets]. rewrite Hb. reflexivity.
Qed.

Lemma ensure_dataset_returns (Hq : quiet_cloud env) project_id dataset_id location w :
  dataset_ref_error env = None →
  is_ok (fst (ensure_dataset env project_id dataset_id location w)) = true.
Proof.
  intros Hd.
  unfold ensure_dataset, try_except_NotFound, get_dataset, create_dataset.
  unfold bind at 1. rewrite Hd. unfold bind.
  rewrite cloud_request_quiet by exact Hq. cbn [datasets].
  destruct (datasets w !! _) as [loc|] eqn:Hb; [reflexivity|].
  cbn [is_NotFound NotFound String.eqb Ascii.eqb Bool.eqb].
  rewrite cloud_request_quiet by exact Hq. cbn [datasets]. rewrite Hb. reflexivity.
Qed.

End StageMain.

(** X25.  [main] of [stage_and_load_to_bq_gcs.py] with nothing to load.
    When the local directory is not there it ends by exit status 1 before
    it has made a request.  When no Parquet file is found it never returns
    normally and never uploads a blob or submits a load job; if nothing goes
    wrong on the side of the cloud it ends by exit status 0, after it has
    got or created the bucket and the dataset. *)
Theorem stage_main_without_files (cfg : Stage.config) (env : Stage.stage_env)
    (w : Stage.cloud) :
  (Stage.local_root_exists env = false →
   Stage.main cfg env w = (Raise (SystemExit 1 ""), w))
  ∧ (Stage.local_parquet env = [] →
     fst (Stage.main cfg env w) ≠ Ok tt
     ∧ Stage.blobs (snd (Stage.main cfg env w)) = Stage.blobs w
     ∧ Stage.bq (snd (Stage.main cfg env w)) = Stage.bq w
     ∧ (Stage.local_root_exists env = true → Stage.client_error env = None →
        Stage.dataset_ref_error env = None → quiet_cloud env →
        fst (Stage.main cfg env w) = Raise (SystemExit 0 "")
        ∧ is_Some (Stage.buckets (snd (Stage.main cfg env w))
                     !! Stage.GCS_BUCKET cfg)
        ∧ is_Some (Stage.datasets (snd (Stage.main cfg env w))
                     !! (Stage.PROJECT_ID cfg +:+ "." +:+ Stage.BQ_DATASET cfg)))).
Proof.
  split.
  { unfold Stage.main. intros ->. reflexivity. }
  intros Hfiles.
  destruct (Stage.main cfg env w) as [r w'] eqn:Hm. cbn [fst snd].
  revert Hm. unfold Stage.main.
  destruct (Stage.local_root_exists env); cbn [negb].
  2: { intros Hm. injection Hm as <- <-.
       split; [discriminate|]. split; [reflexivity|]. split; [reflexivity|].
       intros E. discriminate. }
  unfold bind at 1. unfold Stage.new_client.
  destruct (Stage.client_error env) as [e|].
  { intros Hm. injection Hm as <- <-.
    split; [discriminate|]. split; [reflexivity|]. split; [reflexivity|].
    intros _ E. discriminate. }
  unfold bind at 1.
  pose proof (ensure_bucket_keeps env (Stage.GCS_BUCKET cfg) (Stage.LOCATION cfg) w)
    as (D1 & B1 & Q1 & R1).
  pose proof (ensure_bucket_returns env) as Ret1.
  specialize (λ Hq, Ret1 Hq (Stage.GCS_BUCKET cfg) (Stage.LOCATION cfg) w).
  destruct (Stage.ensure_bucket env (Stage.GCS_BUCKET cfg) (Stage.LOCATION cfg) w)
    as [[b|e] w1]; cbn [fst snd is_ok] in *.
  2: { intros Hm. injection Hm as <- <-.
       split; [discriminate|]. split; [exact B1|]. split; [exact Q1|].
       intros _ _ _ Hq. specialize (Ret1 Hq). discriminate. }
  destruct (R1 eq_refl) as [Eb Hb]. injection Eb as ->.
  unfold bind at 1. unfold bind at 1.
  pose proof (ensure_dataset_keeps env (Stage.PROJECT_ID cfg) (Stage.BQ_DATASET cfg)
                (Stage.LOCATION cfg) w1) as (B2 & L2 & Q2 & R2).
  pose proof (ensure_dataset_returns env) as Ret2.
  specialize (λ Hq, Ret2 Hq (Stage.PROJECT_ID cfg) (Stage.BQ_DATASET cfg)
                      (Stage.LOCATION cfg) w1).
  destruct (Stage.ensure_dataset env (Stage.PROJECT_ID cfg) (Stage.BQ_DATASET cfg)
              (Stage.LOCATION cfg) w1) as [[d|e] w2]; cbn [fst snd is_ok] in *.
  2: { intros Hm. injection Hm as <- <-.
       split; [discriminate|]. split; [congruence|]. split; [congruence|].
       intros _ _ Hd Hq. specialize (Ret2 Hq Hd). discriminate. }
  unfold bind, Stage.upload_to_gcs. rewrite Hfiles. cbn.
  intros Hm. injection Hm as <- <-.
  split; [discriminate|]. split; [congruence|]. split; [congruence|].
  intros _ _ _ _. split; [reflexivity|]. split.
  - rewrite B2. exact Hb.
  - apply R2. reflexivity.
Qed.

(** X26.  [main] of [stage_and_load_to_bq_gcs.py] when nothing goes wrong:
    with files to load that go to different blobs, requests that get
    through and load jobs that succeed, it returns; the bucket and the
    dataset are there; the blob of every file is in the bucket with the
    size of the file; and the references of the files, in their order, have
    been loaded in batches of at most 9000, one job a batch, each waited
    for, before the table is looked up. *)
Theorem stage_main_loads_every_file (cfg : Stage.config) (env : Stage.stage_env)
    (w : Stage.cloud) :
  quiet_cloud env →
  Stage.client_error env = None → Stage.dataset_ref_error env = None →
  Stage.local_root_exists env = true → Stage.local_parquet env ≠ [] →
  keys_apart (Stage.GCS_PREFIX cfg) (Stage.local_parquet env) →
  (∀ job, Gcs.job_fails (Stage.load_warehouse env) job = false) →
  Stage.bq w = bq_start →
  ∃ w' batches,
    Stage.main cfg env w = (Ok tt, w')
    ∧ is_Some (Stage.buckets w' !! Stage.GCS_BUCKET cfg)
    ∧ is_Some (Stage.datasets w'
                 !! (Stage.PROJECT_ID cfg +:+ "." +:+ Stage.BQ_DATASET cfg))
    ∧ (∀ f, f ∈ Stage.local_parquet env →
            staged w' (Stage.GCS_BUCKET cfg) (Stage.GCS_PREFIX cfg) f)
    ∧ Gcs.chunks (Stage.uri_of (Stage.GCS_BUCKET cfg) (Stage.GCS_PREFIX cfg)
                    <$> Stage.local_parquet env) Gcs.CHUNK_SIZE
      = Ok batches
    ∧ Stage.bq w'
      = {| Gcs.bq_log := batch_log 0 batches ++ [Gcs.GetTable];
           Gcs.bq_jobs := length batches |}.
Proof.
  intros Hq Hc Hd Hroot Hfiles Hk Hjobs Hbq.
  unfold Stage.main. rewrite Hroot. cbn [negb].
  unfold bind at 1. unfold Stage.new_client. rewrite Hc.
  unfold bind at 1.
  pose proof (ensure_bucket_keeps env (Stage.GCS_BUCKET cfg) (Stage.LOCATION cfg) w)
    as (D1 & B1 & Q1 & R1).
  pose proof (ensure_bucket_returns env Hq (Stage.GCS_BUCKET cfg) (Stage.LOCATION cfg) w)
    as Ret1.
  destruct (Stage.ensure_bucket env (Stage.GCS_BUCKET cfg) (Stage.LOCATION cfg) w)
    as [[b|e] w1]; cbn [fst snd is_ok] in *; [|discriminate].
  destruct (R1 eq_refl) as [Eb Hb]. injection Eb as ->.
  unfold bind at 1. unfold bind at 1.
  pose proof (ensure_dataset_keeps env (Stage.PROJECT_ID cfg) (Stage.BQ_DATASET cfg)
                (Stage.LOCATION cfg) w1) as (B2 & L2 & Q2 & R2).
  pose proof (ensure_dataset_returns env Hq (Stage.PROJECT_ID cfg)
                (Stage.BQ_DATASET cfg) (Stage.LOCATION cfg) w1 Hd) as Ret2.
  destruct (Stage.ensure_dataset env (Stage.PROJECT_ID cfg) (Stage.BQ_DATASET cfg)
              (Stage.LOCATION cfg) w1) as [[d|e] w2]; cbn [fst snd is_ok] in *;
    [|discriminate].
  specialize (R2 eq_refl).
  unfold bind at 1. unfold Stage.upload_to_gcs.
  pose proof (upload_loop_returns env (Stage.GCS_BUCKET cfg) (Stage.GCS_PREFIX cfg) Hq
                (Stage.local_parquet env) [] w2) as Ret3.
  rewrite B2 in Ret3. specialize (Ret3 Hb).
  destruct (for_each (Stage.local_parquet env) _ [] w2) as [[uris|e] w3] eqn:Hup;
    cbn [fst is_ok] in Ret3; [|discriminate].
  destruct (upload_loop_effect env _ _ _ _ _ _ _ Hup) as ((B3 & D3 & Q3 & _) & _ & R3).
  destruct (R3 uris eq_refl) as [-> St]. cbn [app] in *.
  destruct (Stage.local_parquet env) as [|f0 files] eqn:Hlp; [contradiction|].
  cbn [fmap list_fmap is_nil].
  unfold bind, Stage.lift_bq.
  assert (Hw3 : Stage.bq w3 = bq_start) by congruence. rewrite Hw3.
  unfold Gcs.load_parquet_to_bq, Gcs.load_parquet_to_bq_at, bind, lift_result.
  destruct (chunks_spec (Stage.uri_of (Stage.GCS_BUCKET cfg) (Stage.GCS_PREFIX cfg) f0
                         :: (Stage.uri_of (Stage.GCS_BUCKET cfg) (Stage.GCS_PREFIX cfg)
                               <$> files))
              Gcs.CHUNK_SIZE ltac:(reflexivity))
    as (batches & Hch & _).
  rewrite Hch.
  destruct (load_batches_log (Stage.load_warehouse env) Hjobs batches 0 bq_start)
    as [done' E].
  rewrite E. cbn.
  eexists. exists batches. split; [reflexivity|]. cbn [Stage.buckets Stage.datasets
    Stage.blobs Stage.bq].
  split; [rewrite B3, B2; exact Hb|].
  split; [rewrite D3; exact R2|].
  split; [exact (St Hk)|].
  split; reflexivity.
Qed.

Lemma stage_main_loads_every_file_witness :
  let files := [Stage.mk_local_file "downloads/a/x.parquet" "a/x.parquet" 10;
                Stage.mk_local_file "downloads/b/y.parquet" "b/y.parquet" 20] in
  ∃ w' batches,
    Stage.main sample_config (quiet_stage files) empty_cloud = (Ok tt, w')
    ∧ is_Some (Stage.buckets w' !! "bucket")
    ∧ is_Some (Stage.datasets w' !! "project.optimizely_e3")
    ∧ (∀ f, f ∈ files → staged w' "bucket" "events/" f)
    ∧ Gcs.chunks (Stage.uri_of "bucket" "events/" <$> files) Gcs.CHUNK_SIZE
      = Ok batches
    ∧ Stage.bq w'
      = {| Gcs.bq_log := batch_log 0 batches ++ [Gcs.GetTable];
           Gcs.bq_jobs := length batches |}.
Proof.
  intros files.
  refine (stage_main_loads_every_file sample_config (quiet_stage files) empty_cloud
            _ eq_refl eq_refl eq_refl _ _ _ eq_refl).
  - intros n. reflexivity.
  - discriminate.
  - apply (bool_decide_unpack _). vm_compute. exact I.
  - intros job. reflexivity.
Defined.
